(** * Semantic retrieval core of the knowledge-base MCP server

    A shallow embedding of the search subsystem:
    - [core/vector-search.js]: [cosineSimilarity], [vectorSearch],
      [filterByDateRange];
    - [core/indexer.js]: [saveVectorDb], [chunkText];
    - [sources/discord.js]: [discordSemanticSearch], [discordHybridSearch];
    - [sources/docs.js]: [docsSemanticSearch];
    - [sources/knowledge.js]: [knowledgeSemanticSearch];
    - [sources/unified.js]: [unifiedSemanticSearch].

    Conventions of the embedding.
    - JavaScript numbers that carry scores are idealised as real numbers
      ([R]); rounding, NaN and infinities are outside the model.  Counts and
      limits are natural numbers.  The percentage of a progress report is
      computed in double precision, as the code computes it.
    - JavaScript strings are [string]s of 8-bit characters; only the ASCII
      white space and the ASCII letters are treated specially by [trim],
      [\s] and [toLowerCase].
    - A call that may throw returns a [result]; exceptions propagate through
      the bind of that type, as they do through [await] and nested calls.
    - [Array.prototype.sort] is stable; with the comparators used here (a
      difference of two real scores) every stable sort returns the same
      array, so it is modelled by a stable insertion sort. *)

From Stdlib Require Import Reals Lra Lia String Ascii List.
From Stdlib Require Floats.PrimFloat Floats.FloatOps Floats.SpecFloat.
From Stdlib Require Numbers.Cyclic.Int63.Uint63.
From stdpp Require Import base list gmap strings sorting pretty.

(** ** JavaScript primitives *)

Module JS.

Inductive exn : Type :=
| Error (msg : string)
| TypeError (msg : string)
| SyntaxError (msg : string).

(** [Unmodelled] marks a run that leaves the fragment of the language
    covered by the embedding (see [RegExp.compile]). *)
Inductive result (A : Type) : Type :=
| Ok (a : A)
| Throw (e : exn)
| Unmodelled.

Arguments Ok {A} a.
Arguments Throw {A} e.
Arguments Unmodelled {A}.

Definition bind {A B : Type} (m : result A) (k : A → result B) : result B :=
  match m with
  | Ok a => k a
  | Throw e => Throw e
  | Unmodelled => Unmodelled
  end.

(** [xs.map(f)] where [f] may throw: the first exception aborts the map. *)
Fixpoint mapM {A B : Type} (f : A → result B) (xs : list A) : result (list B) :=
  match xs with
  | [] => Ok []
  | x :: xs' =>
      bind (f x) (λ y, bind (mapM f xs') (λ ys, Ok (y :: ys)))
  end.

#[global] Instance Req_decision (x y : R) : Decision (x = y) := Req_dec_T x y.
#[global] Instance Rlt_decision (x y : R) : Decision (x < y)%R := Rlt_dec x y.

(** [x / y] on numbers idealised as reals.  For a zero divisor
    JavaScript gives [NaN] or an infinity, which no real number stands
    for: such a quotient is outside the model. *)
Definition divide (x y : R) : result R :=
  if decide (y = 0%R) then Unmodelled else Ok (x / y)%R.

(** The double that stands for a count; exact below [2 ^ 53], which
    every array length is. *)
Definition toNumber (n : nat) : PrimFloat.float :=
  PrimFloat.of_uint63 (Uint63.of_Z (Z.of_nat n)).

(** [Math.round(x)]: the integer closest to the double [x], the greater
    one of two that are equally close.  A finite double is [m * 2 ^ e]
    with a sign.  The result is [None] when [x] is NaN or an infinity. *)
Definition Math_round (x : PrimFloat.float) : option Z :=
  match FloatOps.Prim2SF x with
  | SpecFloat.S754_zero _ => Some 0%Z
  | SpecFloat.S754_finite negative m e =>
      let n := if negative then Z.neg m else Z.pos m in
      Some (if (0 <=? e)%Z then (n * 2 ^ e)%Z
            else ((2 * n + 2 ^ (- e)) / 2 ^ (1 - e))%Z)
  | _ => None
  end.

(** [xs.sort(cmp)]: [cmp a b > 0] moves [b] in front of [a]; otherwise
    the original order is kept. *)
Fixpoint insertBy {A : Type} (cmp : A → A → R) (x : A) (l : list A) : list A :=
  match l with
  | [] => [x]
  | y :: l' =>
      if bool_decide (0 < cmp x y)%R then y :: insertBy cmp x l' else x :: y :: l'
  end.

Fixpoint sortBy {A : Type} (cmp : A → A → R) (l : list A) : list A :=
  match l with
  | [] => []
  | x :: l' => insertBy cmp x (sortBy cmp l')
  end.

(** [xs.slice(0, limit)] for a count [limit]. *)
Definition slice0 {A : Type} (limit : nat) (xs : list A) : list A := take limit xs.

(** [xs.slice(start, end)] for counts [start] and [end]. *)
Definition slice {A : Type} (start end_ : nat) (xs : list A) : list A :=
  take (end_ - start) (drop start xs).

(** Truthiness of an optional string: [undefined] and the empty string
    are falsy. *)
Definition truthy (s : option string) : bool :=
  match s with
  | Some s' => negb (String.eqb s' EmptyString)
  | None => false
  end.

(** *** Strings *)

Definition LF : ascii := "010"%char.
Definition CR : ascii := "013"%char.

(** The ASCII part of the white space recognised by [\s] and [trim]. *)
Definition whiteSpace : list ascii :=
  [" "; "009"; LF; "011"; "012"; CR]%char.

Definition isWhiteSpace (c : ascii) : bool := existsb (Ascii.eqb c) whiteSpace.

Definition nonEmpty (s : string) : bool := negb (String.eqb s EmptyString).

Definition lowerChar (c : ascii) : ascii :=
  let n := nat_of_ascii c in
  if (65 <=? n) && (n <=? 90) then ascii_of_nat (n + 32) else c.

Fixpoint toLowerCase (s : string) : string :=
  match s with
  | EmptyString => EmptyString
  | String c s' => String (lowerChar c) (toLowerCase s')
  end.

Fixpoint trimStart (s : string) : string :=
  match s with
  | EmptyString => EmptyString
  | String c s' => if isWhiteSpace c then trimStart s' else s
  end.

Fixpoint trimEnd (s : string) : string :=
  match s with
  | EmptyString => EmptyString
  | String c s' =>
      match trimEnd s' with
      | EmptyString => if isWhiteSpace c then EmptyString else String c EmptyString
      | r => String c r
      end
  end.

Definition trim (s : string) : string := trimEnd (trimStart s).

Fixpoint dropChars (n : nat) (s : string) : string :=
  match n, s with
  | S n', String _ s' => dropChars n' s'
  | _, _ => s
  end.

Fixpoint chars (s : string) : list string :=
  match s with
  | EmptyString => []
  | String c s' => String c EmptyString :: chars s'
  end.

(** [s.split(separator)] for a non-empty string separator.  [cur] is the
    piece being read; after a separator is found at the current position,
    [skip] counts its characters still to be passed over. *)
Fixpoint splitFrom (separator : string) (skip : nat) (cur s : string) : list string :=
  match s with
  | EmptyString => [cur]
  | String c s' =>
      match skip with
      | S k => splitFrom separator k cur s'
      | 0 =>
          if String.prefix separator s then
            cur :: splitFrom separator (String.length separator - 1) EmptyString s'
          else splitFrom separator 0 (cur +:+ String c EmptyString) s'
      end
  end.

(** [s.split(separator)]: an empty separator splits into characters. *)
Definition split (separator s : string) : list string :=
  match separator with
  | EmptyString => chars s
  | _ => splitFrom separator 0 EmptyString s
  end.

(** [s.replace(pattern, replacement)] for a string pattern: the first
    occurrence only.  The replacement strings used here contain no [$]. *)
Fixpoint replace (pattern replacement s : string) : string :=
  if String.prefix pattern s then
    replacement +:+ dropChars (String.length pattern) s
  else
    match s with
    | EmptyString => EmptyString
    | String c s' => String c (replace pattern replacement s')
    end.

(** [s.includes(search)] *)
Fixpoint includes (s search : string) : bool :=
  if String.prefix search s then true
  else
    match s with
    | EmptyString => false
    | String _ s' => includes s' search
    end.

(** [a < b] where [a] or [b] may be [undefined]: two strings are compared
    by code units; [undefined] converts to NaN and compares false. *)
Definition lessThan (a b : option string) : bool :=
  match a, b with
  | Some x, Some y => String.ltb x y
  | _, _ => false
  end.

End JS.

Import JS.

#[global] Instance result_bind : MBind result := λ A B k m, JS.bind m k.

#[global] Instance result_fmap : FMap result := λ A B f m,
  match m with
  | Ok a => Ok (f a)
  | Throw e => Throw e
  | Unmodelled => Unmodelled
  end.

(** ** Regular expressions

    The patterns that occur in the sources are the literals
    [/[^.!?]+[.!?]+/g] and [/\s+/], and [new RegExp(keyword, 'g')] for a
    keyword typed by the user.  The embedding covers sequences of quantified
    one-character atoms, matched by backtracking in the priority order of
    the language. *)

Module RegExp.

Inductive atom : Type :=
| Char (c : ascii)
| AnyChar
| Class (negated : bool) (members : list ascii).

Inductive quantifier : Type :=
| Once
| Optional (greedy : bool)
| Star (greedy : bool)
| Plus (greedy : bool).

Definition pattern : Type := list (atom * quantifier).

Definition atomMatches (a : atom) (c : ascii) : bool :=
  match a with
  | Char c' => Ascii.eqb c c'
  | AnyChar => negb (Ascii.eqb c LF || Ascii.eqb c CR)
  | Class negated members => xorb negated (existsb (Ascii.eqb c) members)
  end.

Definition orElse (first second : option nat) : option nat :=
  match first with
  | Some n => Some n
  | None => second
  end.

(** One more character matched by [a], then [k]. *)
Definition step (a : atom) (k : string → option nat) (s : string) : option nat :=
  match s with
  | String c s' => if atomMatches a c then S <$> k s' else None
  | EmptyString => None
  end.

(** Zero or more characters matched by [a], then [k]; the result is the
    number of characters consumed by the first alternative that succeeds. *)
Fixpoint star (a : atom) (greedy : bool) (k : string → option nat) (s : string)
    : option nat :=
  match s with
  | EmptyString => k s
  | String c s' =>
      if atomMatches a c then
        if greedy then orElse (S <$> star a greedy k s') (k s)
        else orElse (k s) (S <$> star a greedy k s')
      else k s
  end.

(** A match of [p] that starts at the first character of the string. *)
Fixpoint matchAt (p : pattern) : string → option nat :=
  match p with
  | [] => λ _, Some 0
  | (a, q) :: p' =>
      let k := matchAt p' in
      match q with
      | Once => step a k
      | Optional greedy =>
          λ s, if greedy then orElse (step a k s) (k s) else orElse (k s) (step a k s)
      | Star greedy => star a greedy k
      | Plus greedy => step a (star a greedy k)
      end
  end.

(** [s.match(re)] for a global [re]: successive matches from [lastIndex];
    an empty match advances [lastIndex] by one.  [skip] counts the
    characters of the previous match still to be passed over. *)
Fixpoint matchAllFrom (p : pattern) (skip : nat) (s : string) : list string :=
  let next n :=
    match s with
    | EmptyString => []
    | String _ s' => matchAllFrom p n s'
    end in
  match skip with
  | S k => next k
  | 0 =>
      match matchAt p s with
      | Some n => substring 0 n s :: next (pred n)
      | None => next 0
      end
  end.

(** [s.match(re) || []] *)
Definition matchAll (p : pattern) (s : string) : list string := matchAllFrom p 0 s.

(** [s.split(re)]: [cur] is the piece read since the end of the last
    separator; a separator must be non-empty or start after that end. *)
Fixpoint splitFrom (p : pattern) (cur : string) (skip : nat) (s : string)
    : list string :=
  match s with
  | EmptyString => [cur]
  | String c s' =>
      match skip with
      | S k => splitFrom p cur k s'
      | 0 =>
          match matchAt p s with
          | None => splitFrom p (cur +:+ String c EmptyString) 0 s'
          | Some 0 =>
              if nonEmpty cur then cur :: splitFrom p (String c EmptyString) 0 s'
              else splitFrom p (String c EmptyString) 0 s'
          | Some (S k) => cur :: splitFrom p EmptyString k s'
          end
      end
  end.

Definition split (p : pattern) (s : string) : list string :=
  match s with
  | EmptyString => match matchAt p s with Some _ => [] | None => [s] end
  | _ => splitFrom p EmptyString 0 s
  end.

(** [/\s+/] *)
Definition whiteSpaceRun : pattern := [(Class false whiteSpace, Plus true)].

(** [/[^.!?]+[.!?]+/g] *)
Definition sentence : pattern :=
  [(Class true ["."; "!"; "?"]%char, Plus true);
   (Class false ["."; "!"; "?"]%char, Plus true)].

(** *** [new RegExp(source)]

    Ordinary characters stand for themselves, [.] is any character but a
    line terminator, and [*], [+], [?] quantify the atom before them; a
    [?] after a quantifier makes it lazy.  A quantifier with nothing to
    repeat is a syntax error.  Sources that use any other syntax
    character are not interpreted. *)

Inductive compiled : Type :=
| Compiled (p : pattern)
| Invalid
| Unsupported.

(** The backslash (code 092) and the other syntax characters. *)
Definition otherSyntax : list ascii :=
  ["092"; "^"; "$"; "|"; "("; ")"; "["; "]"; "{"; "}"]%char.

(** What a quantifier character may attach to. *)
Inductive pending : Type :=
| Nothing
| BareAtom (a : atom)
| Quantified (a : atom) (q : bool → quantifier).

Definition flush (last : pending) (done : pattern) : pattern :=
  match last with
  | Nothing => done
  | BareAtom a => done ++ [(a, Once)]
  | Quantified a q => done ++ [(a, q true)]
  end.

Fixpoint parse (done : pattern) (last : pending) (source : string) : compiled :=
  match source with
  | EmptyString => Compiled (flush last done)
  | String c source' =>
      if existsb (Ascii.eqb c) otherSyntax then Unsupported
      else if existsb (Ascii.eqb c) ["*"; "+"; "?"]%char then
        match last with
        | Nothing => Invalid
        | BareAtom a =>
            let q := if Ascii.eqb c "*" then Star
                     else if Ascii.eqb c "+" then Plus else Optional in
            parse done (Quantified a q) source'
        | Quantified a q =>
            if Ascii.eqb c "?" then parse (done ++ [(a, q false)]) Nothing source'
            else Invalid
        end
      else
        parse (flush last done) (BareAtom (if Ascii.eqb c "." then AnyChar else Char c))
          source'
  end.

Definition compile (source : string) : compiled := parse [] Nothing source.

(** [(text.match(new RegExp(source, 'g')) || []).length] *)
Definition countMatches (source text : string) : result nat :=
  match compile source with
  | Compiled p => Ok (length (matchAll p text))
  | Invalid => Throw (SyntaxError "Invalid regular expression: Nothing to repeat")
  | Unsupported => Unmodelled
  end.

End RegExp.

(** ** core/embeddings.js *)

Module Embeddings.

(** The feature-extraction pipeline applied to a text with
    [{ pooling: 'mean', normalize: true }], its output read by
    [Array.from(embedding.data)]. *)
Definition Model : Type := string → result (list R).

Definition EMBEDDING_MODEL : string := "Xenova/all-MiniLM-L6-v2".
Definition EMBEDDING_DIMENSIONS : nat := 384.

(** [initializeEmbedder]: [embedder] is the module variable and [pipeline]
    what loading the model gives when it is attempted. *)
Definition initializeEmbedder (pipeline : result Model) (embedder : option Model)
    : option Model * result Model :=
  match embedder with
  | Some model => (embedder, Ok model)
  | None =>
      match pipeline with
      | Ok model => (Some model, Ok model)
      | Throw e => (None, Throw e)
      | Unmodelled => (None, Unmodelled)
      end
  end.

Definition generateEmbedding (pipeline : result Model) (embedder : option Model)
    (text : string) : option Model * result (list R) :=
  match initializeEmbedder pipeline embedder with
  | (embedder, Ok model) => (embedder, model text)
  | (embedder, Throw e) => (embedder, Throw e)
  | (embedder, Unmodelled) => (embedder, Unmodelled)
  end.

(** The loop over [texts] stops at the first text that the model rejects. *)
Definition generateEmbeddings (pipeline : result Model) (embedder : option Model)
    (texts : list string) : option Model * result (list (list R)) :=
  match initializeEmbedder pipeline embedder with
  | (embedder, Ok model) => (embedder, mapM model texts)
  | (embedder, Throw e) => (embedder, Throw e)
  | (embedder, Unmodelled) => (embedder, Unmodelled)
  end.

Definition getEmbeddingConfig : string * nat := (EMBEDDING_MODEL, EMBEDDING_DIMENSIONS).

End Embeddings.

(** ** core/vector-search.js *)

Module VectorSearch.

Record VectorRecord : Type := mkRecord {
  doc_id : string;
  embedding : list R;
  metadata : gmap string string
}.

(** A record spread into a fresh object together with its score:
    [{...doc, similarity}]. *)
Record Scored : Type := mkScored {
  doc : VectorRecord;
  similarity : R
}.

(** The loop of [cosineSimilarity]; the accumulator is
    [(dotProduct, normA, normB)]. *)
Fixpoint accumulate (a b : list R) (acc : R * R * R) : R * R * R :=
  match a, b with
  | x :: a', y :: b' =>
      let '(dotProduct, normA, normB) := acc in
      accumulate a' b' (dotProduct + x * y, normA + x * x, normB + y * y)%R
  | _, _ => acc
  end.

Definition cosineSimilarity (a b : list R) : result R :=
  if decide (length a ≠ length b) then
    Throw (Error "Vectors must have the same length")
  else
    let '(dotProduct, normA, normB) := accumulate a b (0, 0, 0)%R in
    let normA := sqrt normA in
    let normB := sqrt normB in
    if decide (normA = 0%R ∨ normB = 0%R) then Ok 0%R
    else divide dotProduct (normA * normB).

Definition score (queryVector : list R) (d : VectorRecord) : result Scored :=
  s ← cosineSimilarity queryVector (embedding d);
  Ok (mkScored d s).

(** The comparator [(a, b) => b.similarity - a.similarity]. *)
Definition bySimilarity (a b : Scored) : R := (similarity b - similarity a)%R.

Definition vectorSearch (queryVector : list R) (documents : list VectorRecord)
    (limit : nat) : result (list Scored) :=
  results ← mapM (score queryVector) documents;
  Ok (slice0 limit (sortBy bySimilarity results)).

(** [filterByDateRange]: a record without a (truthy) date is kept. *)
Definition inDateRange (startDate endDate : option string) (result : Scored) : bool :=
  let date := metadata (doc result) !! "date" in
  if negb (truthy date) then true
  else if truthy startDate && lessThan date startDate then false
  else if truthy endDate && lessThan endDate date then false
  else true.

Definition filterByDateRange (results : list Scored) (startDate endDate : option string)
    : list Scored :=
  List.filter (inDateRange startDate endDate) results.

(** *** [loadVectorDb] *)

(** A record as [JSON.parse] returns it: older snapshots hold the vector
    under [values], newer ones under [embedding]. *)
Module Stored.
Record t : Type := mk {
  id : string;
  values : option (list R);
  embedding : option (list R);
  metadata : gmap string string
}.
End Stored.

(** [v.values && !v.embedding ? { ...v, embedding: v.values } : v] *)
Definition normalize (v : Stored.t) : Stored.t :=
  match Stored.values v, Stored.embedding v with
  | Some values, None =>
      {| Stored.id := Stored.id v;
         Stored.values := Some values;
         Stored.embedding := Some values;
         Stored.metadata := Stored.metadata v |}
  | _, _ => v
  end.

(** [existsSync], [readFile] and [JSON.parse] belong to the file system:
    [read path] is [None] when there is no file at [path], and otherwise
    what reading and parsing the file gives. *)
Definition loadVectorDb (read : string → option (result (list Stored.t)))
    (vectorDbPath : string) : result (list Stored.t) :=
  match read vectorDbPath with
  | None => Throw (Error ("Vector database not found: " +:+ vectorDbPath))
  | Some parsed =>
      vectors ← parsed;
      Ok (map normalize vectors)
  end.

(** *** [filterResults] *)

(** The loop over [Object.entries(filters)], for filter values that are
    strings, [null] or [undefined]: [false] at the first entry whose
    value differs from the metadata. *)
Fixpoint matchesFilters (metadata : gmap string string)
    (entries : list (string * option string)) : bool :=
  match entries with
  | [] => true
  | (key, value) :: entries' =>
      match value with
      | None => matchesFilters metadata entries'
      | Some _ =>
          if bool_decide (metadata !! key ≠ value) then false
          else matchesFilters metadata entries'
      end
  end.

Definition filterResults (results : list Scored) (filters : list (string * option string))
    : list Scored :=
  List.filter (λ result, matchesFilters (metadata (doc result)) filters) results.

(** *** [formatResults] *)

(** A property value of a formatted result. *)
Inductive field : Type :=
| Number (x : R)
| Text (s : string)
| Vector (v : list R).

Record FormatOptions : Type := mkFormatOptions {
  includeEmbedding : option bool;
  includeMetadata : option bool
}.

(** The object built for one result.  [Object.assign] lets the metadata
    overwrite the properties set before it. *)
Definition formatResult (options : FormatOptions) (result : Scored) : gmap string field :=
  let includeEmbedding := default false (includeEmbedding options) in
  let includeMetadata := default true (includeMetadata options) in
  let formatted : gmap string field :=
    {[ "score" := Number (similarity result);
       "similarity" := Number (similarity result) ]} in
  let formatted :=
    if includeMetadata then (Text <$> metadata (doc result)) ∪ formatted
    else formatted in
  if includeEmbedding then <["embedding" := Vector (embedding (doc result))]> formatted
  else formatted.

Definition formatResults (results : list Scored) (options : FormatOptions)
    : list (gmap string field) :=
  map (formatResult options) results.

End VectorSearch.

Import VectorSearch.

(** ** core/indexer.js *)

Module Indexer.

(** *** [chunkText] *)

Record ChunkOptions : Type := mkOptions {
  chunkSize : option nat;
  chunkOverlap : option nat;
  separator : option string
}.

(** [chunks] and [currentChunk] of the loop. *)
Definition state : Type := list string * string.

Definition pushCurrent (st : state) : state :=
  let '(chunks, currentChunk) := st in (chunks ++ [trim currentChunk], currentChunk).

Definition addSentence (chunkSize : nat) (st : state) (sentence : string) : state :=
  let '(chunks, currentChunk) := st in
  if chunkSize <? String.length currentChunk + String.length sentence then
    let '(chunks, _) := if nonEmpty currentChunk then pushCurrent st else st in
    (chunks, sentence)
  else (chunks, currentChunk +:+ sentence).

Definition addSection (chunkSize : nat) (separator : string) (st : state)
    (section : string) : state :=
  let '(chunks, currentChunk) := st in
  if chunkSize <? String.length section then
    let st := if nonEmpty currentChunk then (fst (pushCurrent st), EmptyString) else st in
    let sentences :=
      match RegExp.matchAll RegExp.sentence section with
      | [] => [section]
      | found => found
      end in
    fold_left (addSentence chunkSize) sentences st
  else if chunkSize <? String.length currentChunk + String.length section then
    (fst (pushCurrent st), section)
  else
    (chunks,
     currentChunk +:+ (if nonEmpty currentChunk then separator else EmptyString)
       +:+ section).

Definition chunkText (text : string) (options : ChunkOptions) : list string :=
  let chunkSize := default 1000 (chunkSize options) in
  let chunkOverlap := default 200 (chunkOverlap options) in
  let separator := default (String LF (String LF EmptyString)) (separator options) in
  let sections := split separator text in
  let st := fold_left (addSection chunkSize separator) sections ([], EmptyString) in
  let '(chunks, _) := if nonEmpty (snd st) then pushCurrent st else st in
  List.filter (λ chunk, 0 <? String.length chunk) chunks.

(** *** [saveVectorDb]

    The file system is a map from paths to file contents.  A file holds
    the complete serialisation of a document or, after a write that
    failed midway, only its first characters.  Whether a call of
    [mkdir] or [writeFile] succeeds is decided by the environment. *)

Record Descriptor : Type := mkDescriptor {
  indexed_at : string;
  total_vectors : nat;
  embedding_model : string;
  dimensions : nat
}.

Inductive document : Type :=
| VectorsJson (vectors : list VectorRecord)
| MetadataJson (descriptor : Descriptor).

Inductive content : Type :=
| Complete (d : document)
| Truncated (d : document) (written : nat).

Abbreviation FileSystem := (gmap string content).

Inductive writeOutcome : Type :=
| Written
| FailedBeforeOpen
| FailedAfter (written : nat).

(** [writeFile(path, data)] opens the target for writing, which empties
    it, and then writes the data. *)
Definition writeFile (fs : FileSystem) (path : string) (data : document)
    (outcome : writeOutcome) : FileSystem * result unit :=
  match outcome with
  | Written => (<[path := Complete data]> fs, Ok ())
  | FailedBeforeOpen => (fs, Throw (Error "EACCES: permission denied"))
  | FailedAfter n =>
      (<[path := Truncated data n]> fs, Throw (Error "ENOSPC: no space left on device"))
  end.

(** The decisions of the environment during one call of [saveVectorDb]. *)
Record Environment : Type := mkEnvironment {
  directoryExists : bool;
  mkdir : result unit;
  writeVectors : writeOutcome;
  writeMetadata : writeOutcome;
  now : string
}.

Definition metadataPathOf (outputPath : string) : string :=
  replace "vectors.json" "metadata.json" outputPath.

Definition saveVectorDb (env : Environment) (fs : FileSystem)
    (vectors : list VectorRecord) (outputPath : string) : FileSystem * result unit :=
  match (if directoryExists env then Ok () else mkdir env) with
  | Ok _ =>
      match writeFile fs outputPath (VectorsJson vectors) (writeVectors env) with
      | (fs, Ok _) =>
          let metadataPath := metadataPathOf outputPath in
          let metadata :=
            {| indexed_at := now env;
               total_vectors := length vectors;
               embedding_model := "Xenova/all-MiniLM-L6-v2";
               dimensions := 384 |} in
          writeFile fs metadataPath (MetadataJson metadata) (writeMetadata env)
      | (fs, Throw e) => (fs, Throw e)
      | (fs, Unmodelled) => (fs, Unmodelled)
      end
  | Throw e => (fs, Throw e)
  | Unmodelled => (fs, Unmodelled)
  end.

(** *** [indexDocuments] *)

(** An input document [{ id, text, metadata }]. *)
Module Document.
Record t : Type := mk {
  id : option string;
  text : string;
  metadata : option (gmap string string)
}.
End Document.

(** The argument of [onProgress]. *)
Record Progress : Type := mkProgress {
  current : nat;
  total : nat;
  percentage : option nat
}.

(** [onProgress] tells whether a callback is given; the callback only
    observes its arguments. *)
Record IndexOptions : Type := mkIndexOptions {
  batchSize : option nat;
  onProgress : bool
}.

(** [Math.ceil(n / batchSize)] for a positive [batchSize]. *)
Definition ceilDiv (n batchSize : nat) : nat := (n + batchSize - 1) / batchSize.

(** [Math.round((end / total) * 100)], with the division and the
    multiplication rounded to doubles as in the code.  The result is
    [None] when it is no integer, which takes a [total] of 0. *)
Definition percent (end_ total : nat) : option nat :=
  Z.to_nat
    <$> Math_round
          (PrimFloat.mul (PrimFloat.div (toNumber end_) (toNumber total)) (toNumber 100)).

(** The object pushed for [batch[j]]. *)
Definition vectorOf (start j : nat) (d : Document.t) (embedding : list R) : VectorRecord :=
  {| doc_id :=
       if truthy (Document.id d) then default EmptyString (Document.id d)
       else "doc_" +:+ pretty (start + j);
     embedding := embedding;
     metadata := default ∅ (Document.metadata d) |}.

(** The loop over the batches [i]; [vectors] is the array filled so far
    and [reports] the arguments passed to [onProgress] so far.  The array
    [embeddings] has one element for every document of the batch. *)
Fixpoint batchLoop (pipeline : result Embeddings.Model) (documents : list Document.t)
    (batchSize : nat) (onProgress : bool) (indexes : list nat)
    (embedder : option Embeddings.Model) (reports : list Progress)
    (vectors : list VectorRecord)
    : option Embeddings.Model * list Progress * result (list VectorRecord) :=
  match indexes with
  | [] => (embedder, reports, Ok vectors)
  | i :: indexes' =>
      let start := i * batchSize in
      let end_ := (start + batchSize) `min` length documents in
      let batch := slice start end_ documents in
      let texts := map Document.text batch in
      match Embeddings.generateEmbeddings pipeline embedder texts with
      | (embedder, Ok embeddings) =>
          let vectors :=
            vectors ++ imap (λ j p, vectorOf start j p.1 p.2) (zip batch embeddings) in
          let reports :=
            if onProgress then
              reports ++ [{| current := end_;
                             total := length documents;
                             percentage := percent end_ (length documents) |}]
            else reports in
          batchLoop pipeline documents batchSize onProgress indexes' embedder reports vectors
      | (embedder, Throw e) => (embedder, reports, Throw e)
      | (embedder, Unmodelled) => (embedder, reports, Unmodelled)
      end
  end.

(** With [batchSize] 0 and a document to index, [batches] is [Infinity]
    and the loop does not end: that run is outside the embedding. *)
Definition indexDocuments (pipeline : result Embeddings.Model)
    (embedder : option Embeddings.Model) (documents : list Document.t)
    (options : IndexOptions)
    : option Embeddings.Model * list Progress * result (list VectorRecord) :=
  let batchSize := default 10 (batchSize options) in
  match batchSize, documents with
  | 0, _ :: _ => (embedder, [], Unmodelled)
  | _, _ =>
      let batches := ceilDiv (length documents) batchSize in
      batchLoop pipeline documents batchSize (onProgress options) (seq 0 batches)
        embedder [] []
  end.

(** *** [incrementalIndex] *)

Definition incrementalIndex (pipeline : result Embeddings.Model)
    (embedder : option Embeddings.Model) (existingVectors : list VectorRecord)
    (newDocuments : list Document.t)
    : option Embeddings.Model * result (list VectorRecord) :=
  match indexDocuments pipeline embedder newDocuments (mkIndexOptions None false) with
  | (embedder, _, Ok newVectors) => (embedder, Ok (existingVectors ++ newVectors))
  | (embedder, _, Throw e) => (embedder, Throw e)
  | (embedder, _, Unmodelled) => (embedder, Unmodelled)
  end.

End Indexer.

(** ** sources/discord.js *)

Module Discord.

(** What the adapter obtains from its collaborators: the collection
    returned by [initializeDiscordVectors] (loaded once and cached, or the
    error raised when the snapshot is missing) and the embedding
    provider. *)
Record Env : Type := mkEnv {
  vectors : result (list VectorRecord);
  generateEmbedding : string → result (list R)
}.

Module Params.
Record t : Type := mk {
  query : string;
  server_id : option string;
  channel_id : option string;
  author : option string;
  start_date : option string;
  end_date : option string;
  limit : option nat;
  semantic_weight : option R
}.
End Params.

(** One element of [results]. *)
Module Hit.
Record t : Type := mk {
  text : option string;
  score : R;
  similarity : R;
  server_id : option string;
  channel_id : option string;
  author : option string;
  date : option string;
  time : option string;
  message_id : option string
}.
End Hit.

Record Filters : Type := mkFilters {
  filter_server_id : string;
  filter_channel_id : string;
  filter_author : string;
  date_range : string
}.

Record Response (hit : Type) : Type := mkResponse {
  query : string;
  total_results : nat;
  results : list hit;
  search_type : string;
  weights : option (R * R);
  filters : Filters
}.

Arguments mkResponse {hit}.
Arguments query {hit}.
Arguments total_results {hit}.
Arguments results {hit}.
Arguments search_type {hit}.
Arguments weights {hit}.
Arguments filters {hit}.

(** [value || 'all'] *)
Definition orAll (value : option string) : string :=
  if truthy value then default EmptyString value else "all".

Definition echoFilters (params : Params.t) : Filters :=
  {| filter_server_id := orAll (Params.server_id params);
     filter_channel_id := orAll (Params.channel_id params);
     filter_author := orAll (Params.author params);
     date_range :=
       if truthy (Params.start_date params) && truthy (Params.end_date params) then
         default EmptyString (Params.start_date params) +:+ " to "
           +:+ default EmptyString (Params.end_date params)
       else "all" |}.

(** The chain of [if (...) continue;] of the filtering loop: [true] when
    the record reaches [filteredResults.push]. *)
Definition passesFilters (params : Params.t) (metadata : gmap string string) : bool :=
  if truthy (Params.server_id params)
     && negb (bool_decide (metadata !! "server_id" = Params.server_id params))
  then false
  else if truthy (Params.channel_id params)
     && negb (bool_decide (metadata !! "channel_id" = Params.channel_id params))
  then false
  else if truthy (Params.author params)
     && negb (bool_decide (metadata !! "author" = Params.author params))
  then false
  else if truthy (Params.start_date params)
     && lessThan (metadata !! "date") (Params.start_date params)
  then false
  else if truthy (Params.end_date params)
     && lessThan (Params.end_date params) (metadata !! "date")
  then false
  else true.

Definition toHit (result : Scored) : Hit.t :=
  let metadata := VectorSearch.metadata (doc result) in
  {| Hit.text := metadata !! "text";
     Hit.score := VectorSearch.similarity result;
     Hit.similarity := VectorSearch.similarity result;
     Hit.server_id := metadata !! "server_id";
     Hit.channel_id := metadata !! "channel_id";
     Hit.author := metadata !! "author";
     Hit.date := metadata !! "date";
     Hit.time := metadata !! "time";
     Hit.message_id := metadata !! "message_id" |}.

(** The filtering loop, with its [break] once [limit] results are held. *)
Fixpoint filterLoop (params : Params.t) (limit : nat) (filteredResults : list Hit.t)
    (searchResults : list Scored) : list Hit.t :=
  match searchResults with
  | [] => filteredResults
  | result :: searchResults' =>
      if passesFilters params (VectorSearch.metadata (doc result)) then
        let filteredResults := filteredResults ++ [toHit result] in
        if limit <=? length filteredResults then filteredResults
        else filterLoop params limit filteredResults searchResults'
      else filterLoop params limit filteredResults searchResults'
  end.

Definition discordSemanticSearch (env : Env) (params : Params.t)
    : result (Response Hit.t) :=
  let limit := default 20 (Params.limit params) in
  if negb (nonEmpty (Params.query params)) then Throw (Error "query is required")
  else
    docs ← vectors env;
    queryVector ← generateEmbedding env (Params.query params);
    searchResults ← vectorSearch queryVector docs (limit * 2);
    let filteredResults := filterLoop params limit [] searchResults in
    Ok {| query := Params.query params;
          total_results := length filteredResults;
          results := filteredResults;
          search_type := "semantic";
          weights := None;
          filters := echoFilters params |}.

(** One element of the [results] of a hybrid search:
    [{...result, keyword_score, hybrid_score}]. *)
Record HybridHit : Type := mkHybridHit {
  hit : Hit.t;
  keyword_score : R;
  hybrid_score : R
}.

(** The [reduce] over the keywords: the running sum of match counts. *)
Fixpoint countKeywordMatches (text : string) (score : nat) (keywords : list string)
    : result nat :=
  match keywords with
  | [] => Ok score
  | keyword :: keywords' =>
      matches ← RegExp.countMatches keyword text;
      countKeywordMatches text (score + matches) keywords'
  end.

Definition rescore (keywords : list string) (semantic_weight : R) (result : Hit.t)
    : JS.result HybridHit :=
  match Hit.text result with
  | None => Throw (TypeError "Cannot read properties of undefined (reading 'toLowerCase')")
  | Some text =>
      let text := toLowerCase text in
      total ← countKeywordMatches text 0 keywords;
      let keywordScore := (INR total / INR (length keywords))%R in
      let normalizedKeywordScore := Rmin (keywordScore / 5) 1 in
      let hybridScore :=
        (Hit.similarity result * semantic_weight
         + normalizedKeywordScore * (1 - semantic_weight))%R in
      Ok {| hit := result;
            keyword_score := normalizedKeywordScore;
            hybrid_score := hybridScore |}
  end.

(** The comparator [(a, b) => b.hybrid_score - a.hybrid_score]. *)
Definition byHybridScore (a b : HybridHit) : R := (hybrid_score b - hybrid_score a)%R.

Definition withLimit (params : Params.t) (limit : nat) : Params.t :=
  {| Params.query := Params.query params;
     Params.server_id := Params.server_id params;
     Params.channel_id := Params.channel_id params;
     Params.author := Params.author params;
     Params.start_date := Params.start_date params;
     Params.end_date := Params.end_date params;
     Params.limit := Some limit;
     Params.semantic_weight := None |}.

Definition discordHybridSearch (env : Env) (params : Params.t)
    : result (Response HybridHit) :=
  let limit := default 20 (Params.limit params) in
  let semantic_weight := default 0.7%R (Params.semantic_weight params) in
  if negb (nonEmpty (Params.query params)) then Throw (Error "query is required")
  else
    semanticResults ← discordSemanticSearch env (withLimit params (limit * 2));
    let keywords := RegExp.split RegExp.whiteSpaceRun (toLowerCase (Params.query params)) in
    hybridResults ← mapM (rescore keywords semantic_weight) (results semanticResults);
    let hybridResults := sortBy byHybridScore hybridResults in
    Ok {| query := Params.query params;
          total_results := length hybridResults `min` limit;
          results := slice0 limit hybridResults;
          search_type := "hybrid";
          weights := Some (semantic_weight, (1 - semantic_weight)%R);
          filters := echoFilters params |}.

(** *** [initializeDiscordVectors] *)

(** The module variables [vectors] and [vectorDbPath]. *)
Record Cache : Type := mkCache {
  cached_vectors : option (list Stored.t);
  cached_path : option string
}.

(** The collaborators of the initialisation: what
    [getVectorDbPath('discord')] answers, and the file system as
    [loadVectorDb] reads it. *)
Record Disk : Type := mkDisk {
  getVectorDbPath : result string;
  read : string → option (result (list Stored.t))
}.

Definition notInitialized (vectorDbPath : string) : exn :=
  Error ("Discord vector database not initialized. Run: npm run index-discord"
         +:+ String LF ("Path: " +:+ vectorDbPath)).

(** An array is truthy even when it is empty, so [if (vectors)] holds as
    soon as a collection has been loaded. *)
Definition initializeDiscordVectors (disk : Disk) (cache : Cache)
    : Cache * result (list Stored.t) :=
  match cached_vectors cache with
  | Some vectors => (cache, Ok vectors)
  | None =>
      let located :=
        if truthy (cached_path cache) then Ok (default EmptyString (cached_path cache))
        else getVectorDbPath disk in
      match located with
      | Ok vectorDbPath =>
          let cache := {| cached_vectors := None; cached_path := Some vectorDbPath |} in
          match read disk vectorDbPath with
          | None => (cache, Throw (notInitialized vectorDbPath))
          | Some _ =>
              match loadVectorDb (read disk) vectorDbPath with
              | Ok vectors =>
                  ({| cached_vectors := Some vectors; cached_path := Some vectorDbPath |},
                   Ok vectors)
              | Throw e => (cache, Throw e)
              | Unmodelled => (cache, Unmodelled)
              end
          end
      | Throw e => (cache, Throw e)
      | Unmodelled => (cache, Unmodelled)
      end
  end.

End Discord.

(** ** sources/docs.js *)

Module Docs.

(** The collection returned by [initializeDocsVectors] and the embedding
    provider. *)
Record Env : Type := mkEnv {
  vectors : result (list VectorRecord);
  generateEmbedding : string → result (list R)
}.

Module Params.
Record t : Type := mk {
  query : string;
  file_path : option string;
  category : option string;
  doc_type : option string;
  limit : option nat
}.
End Params.

(** One element of [results].  Scalar metadata are kept as their text. *)
Module Hit.
Record t : Type := mk {
  text : option string;
  score : R;
  similarity : R;
  file_path : option string;
  category : option string;
  doc_type : option string;
  section : option string;
  chunk_index : option string;
  total_chunks : option string
}.
End Hit.

Record Filters : Type := mkFilters {
  filter_file_path : string;
  filter_category : string;
  filter_doc_type : string
}.

Record Response : Type := mkResponse {
  query : string;
  total_results : nat;
  results : list Hit.t;
  search_type : string;
  filters : Filters
}.

(** [value || 'all'] *)
Definition orAll (value : option string) : string :=
  if truthy value then default EmptyString value else "all".

(** [metadata.file_path.includes(file_path)]: a record without
    [file_path] makes the call throw. *)
Definition pathIncludes (metadata : gmap string string) (file_path : option string)
    : result bool :=
  match metadata !! "file_path" with
  | Some path => Ok (includes path (default EmptyString file_path))
  | None => Throw (TypeError "Cannot read properties of undefined (reading 'includes')")
  end.

(** The chain of [if (...) continue;]: [true] when the record reaches
    [filteredResults.push]. *)
Definition passesFilters (params : Params.t) (metadata : gmap string string)
    : result bool :=
  inPath ← (if truthy (Params.file_path params)
            then pathIncludes metadata (Params.file_path params) else Ok true);
  if negb inPath then Ok false
  else if truthy (Params.category params)
     && negb (bool_decide (metadata !! "category" = Params.category params))
  then Ok false
  else if truthy (Params.doc_type params)
     && negb (bool_decide (metadata !! "doc_type" = Params.doc_type params))
  then Ok false
  else Ok true.

Definition toHit (result : Scored) : Hit.t :=
  let metadata := VectorSearch.metadata (doc result) in
  {| Hit.text := metadata !! "text";
     Hit.score := VectorSearch.similarity result;
     Hit.similarity := VectorSearch.similarity result;
     Hit.file_path := metadata !! "file_path";
     Hit.category := metadata !! "category";
     Hit.doc_type := metadata !! "doc_type";
     Hit.section := metadata !! "section";
     Hit.chunk_index := metadata !! "chunk_index";
     Hit.total_chunks := metadata !! "total_chunks" |}.

Fixpoint filterLoop (params : Params.t) (limit : nat) (filteredResults : list Hit.t)
    (searchResults : list Scored) : JS.result (list Hit.t) :=
  match searchResults with
  | [] => Ok filteredResults
  | result :: searchResults' =>
      passes ← passesFilters params (VectorSearch.metadata (doc result));
      if passes : bool then
        let filteredResults := filteredResults ++ [toHit result] in
        if limit <=? length filteredResults then Ok filteredResults
        else filterLoop params limit filteredResults searchResults'
      else filterLoop params limit filteredResults searchResults'
  end.

Definition docsSemanticSearch (env : Env) (params : Params.t) : result Response :=
  let limit := default 20 (Params.limit params) in
  if negb (nonEmpty (Params.query params)) then Throw (Error "query is required")
  else
    docs ← vectors env;
    queryVector ← generateEmbedding env (Params.query params);
    searchResults ← vectorSearch queryVector docs (limit * 2);
    filteredResults ← filterLoop params limit [] searchResults;
    Ok {| query := Params.query params;
          total_results := length filteredResults;
          results := filteredResults;
          search_type := "semantic";
          filters :=
            {| filter_file_path := orAll (Params.file_path params);
               filter_category := orAll (Params.category params);
               filter_doc_type := orAll (Params.doc_type params) |} |}.

End Docs.

(** ** sources/knowledge.js *)

Module Knowledge.

(** The collection returned by [initializeKnowledgeVectors] and the
    embedding provider. *)
Record Env : Type := mkEnv {
  vectors : result (list VectorRecord);
  generateEmbedding : string → result (list R)
}.

Module Params.
Record t : Type := mk {
  query : string;
  cluster : option string;
  file_path : option string;
  limit : option nat
}.
End Params.

(** One element of [results].  Scalar metadata are kept as their text. *)
Module Hit.
Record t : Type := mk {
  text : option string;
  score : R;
  similarity : R;
  file_path : option string;
  cluster : option string;
  section : option string;
  chunk_index : option string;
  total_chunks : option string
}.
End Hit.

Record Filters : Type := mkFilters {
  filter_cluster : string;
  filter_file_path : string
}.

Record Response : Type := mkResponse {
  query : string;
  total_results : nat;
  results : list Hit.t;
  search_type : string;
  filters : Filters
}.

(** The chain of [if (...) continue;]: [true] when the record reaches
    [filteredResults.push]. *)
Definition passesFilters (params : Params.t) (metadata : gmap string string)
    : result bool :=
  if truthy (Params.cluster params)
     && negb (bool_decide (metadata !! "cluster" = Params.cluster params))
  then Ok false
  else if truthy (Params.file_path params) then
    inPath ← Docs.pathIncludes metadata (Params.file_path params);
    Ok inPath
  else Ok true.

Definition toHit (result : Scored) : Hit.t :=
  let metadata := VectorSearch.metadata (doc result) in
  {| Hit.text := metadata !! "text";
     Hit.score := VectorSearch.similarity result;
     Hit.similarity := VectorSearch.similarity result;
     Hit.file_path := metadata !! "file_path";
     Hit.cluster := metadata !! "cluster";
     Hit.section := metadata !! "section";
     Hit.chunk_index := metadata !! "chunk_index";
     Hit.total_chunks := metadata !! "total_chunks" |}.

Fixpoint filterLoop (params : Params.t) (limit : nat) (filteredResults : list Hit.t)
    (searchResults : list Scored) : JS.result (list Hit.t) :=
  match searchResults with
  | [] => Ok filteredResults
  | result :: searchResults' =>
      passes ← passesFilters params (VectorSearch.metadata (doc result));
      if passes : bool then
        let filteredResults := filteredResults ++ [toHit result] in
        if limit <=? length filteredResults then Ok filteredResults
        else filterLoop params limit filteredResults searchResults'
      else filterLoop params limit filteredResults searchResults'
  end.

Definition knowledgeSemanticSearch (env : Env) (params : Params.t) : result Response :=
  let limit := default 20 (Params.limit params) in
  if negb (nonEmpty (Params.query params)) then Throw (Error "query is required")
  else
    docs ← vectors env;
    queryVector ← generateEmbedding env (Params.query params);
    searchResults ← vectorSearch queryVector docs (limit * 2);
    filteredResults ← filterLoop params limit [] searchResults;
    Ok {| query := Params.query params;
          total_results := length filteredResults;
          results := filteredResults;
          search_type := "semantic";
          filters :=
            {| filter_cluster := Docs.orAll (Params.cluster params);
               filter_file_path := Docs.orAll (Params.file_path params) |} |}.

End Knowledge.

(** ** sources/unified.js *)

Module Unified.

(** The text of [error.message]. *)
Definition message (e : exn) : string :=
  match e with
  | Error msg | TypeError msg | SyntaxError msg => msg
  end.

Section Aggregator.
(** A result object of any source, with its [similarity] field. *)
Context {hit : Type} (similarity : hit → R).

(** The fields of a source's response that the aggregator reads. *)
Record SourceResult : Type := mkSourceResult {
  total_results : nat;
  results : list hit
}.

(** The [handler]s of the three source adapters, applied to
    [{ query, limit }]. *)
Record Handlers : Type := mkHandlers {
  discord_semantic_search : string → nat → result SourceResult;
  docs_semantic_search : string → nat → result SourceResult;
  knowledge_semantic_search : string → nat → result SourceResult
}.

(** [{...r, source}] *)
Record Tagged : Type := mkTagged {
  item : hit;
  source : string
}.

(** The objects [sourceResults] and [errors] that the callbacks fill. *)
Record Collected : Type := mkCollected {
  sourceResults : gmap string SourceResult;
  errors : gmap string string
}.

(** One element of [searchPromises]:
    [handler(...).then(record and tag).catch(note the error)].  The
    promise never rejects.  Each callback writes only the key of its own
    source, so the order in which the promises settle does not matter
    and they are settled here in the order of the array. *)
Definition settle (name : string) (outcome : result SourceResult) (st : Collected)
    : result (Collected * list Tagged) :=
  match outcome with
  | Ok response =>
      Ok ({| sourceResults := <[name := response]> (sourceResults st);
             errors := errors st |},
          map (λ r, mkTagged r name) (results response))
  | Throw error =>
      Ok ({| sourceResults := sourceResults st;
             errors := <[name := message error]> (errors st) |},
          [])
  | Unmodelled => Unmodelled
  end.

(** [await Promise.all(searchPromises)] *)
Fixpoint settleAll (searchPromises : list (string * result SourceResult))
    (st : Collected) : result (Collected * list (list Tagged)) :=
  match searchPromises with
  | [] => Ok (st, [])
  | (name, outcome) :: rest =>
      '(st, tagged) ← settle name outcome st;
      '(st, others) ← settleAll rest st;
      Ok (st, tagged :: others)
  end.

Record Params : Type := mkParams {
  query : string;
  sources : option (list string);
  limit : option nat
}.

Record Response : Type := mkResponse {
  response_query : string;
  response_total_results : nat;
  response_results : list Tagged;
  search_type : string;
  sources_searched : list string;
  source_counts : gmap string nat;
  response_errors : option (gmap string string)
}.

(** [sourceResults[name]?.total_results || 0] *)
Definition countOf (st : Collected) (name : string) : nat :=
  match sourceResults st !! name with
  | Some response => total_results response
  | None => 0
  end.

(** The comparator [(a, b) => b.similarity - a.similarity]. *)
Definition bySimilarity (a b : Tagged) : R :=
  (similarity (item b) - similarity (item a))%R.

(** The array [searchPromises]: one search per requested known source,
    each called with [{ query, limit }]. *)
Definition searchPromises (handlers : Handlers) (query : string) (sources : list string)
    (limit : nat) : list (string * result SourceResult) :=
  (if bool_decide ("discord" ∈ sources)
   then [("discord", discord_semantic_search handlers query limit)] else [])
  ++ (if bool_decide ("docs" ∈ sources)
      then [("docs", docs_semantic_search handlers query limit)] else [])
  ++ (if bool_decide ("knowledge" ∈ sources)
      then [("knowledge", knowledge_semantic_search handlers query limit)] else []).

Definition unifiedSemanticSearch (handlers : Handlers) (params : Params)
    : result Response :=
  let query := query params in
  let sources := default ["discord"; "docs"; "knowledge"] (sources params) in
  let limit := default 20 (limit params) in
  if negb (nonEmpty query) then Throw (Error "query is required")
  else
    '(st, results) ← settleAll (searchPromises handlers query sources limit)
                       (mkCollected ∅ ∅);
    let allResults := sortBy bySimilarity (concat results) in
    let topResults := slice0 limit allResults in
    Ok {| response_query := query;
          response_total_results := length topResults;
          response_results := topResults;
          search_type := "unified_semantic";
          sources_searched := sources;
          source_counts :=
            {[ "discord" := countOf st "discord";
               "docs" := countOf st "docs";
               "knowledge" := countOf st "knowledge" ]};
          response_errors := if decide (errors st = ∅) then None else Some (errors st) |}.

End Aggregator.

Arguments SourceResult hit : clear implicits.
Arguments Handlers hit : clear implicits.
Arguments Tagged hit : clear implicits.
Arguments Collected hit : clear implicits.
Arguments Response hit : clear implicits.

(** A result object of one of the three adapters. *)
Inductive Hit : Type :=
| OfDiscord (r : Discord.Hit.t)
| OfDocs (r : Docs.Hit.t)
| OfKnowledge (r : Knowledge.Hit.t).

(** [r.similarity] *)
Definition similarityOf (r : Hit) : R :=
  match r with
  | OfDiscord r => Discord.Hit.similarity r
  | OfDocs r => Docs.Hit.similarity r
  | OfKnowledge r => Knowledge.Hit.similarity r
  end.

(** The module state of the three adapters. *)
Record Sources : Type := mkSources {
  discord : Discord.Env;
  docs : Docs.Env;
  knowledge : Knowledge.Env
}.

(** [discordSearchTools.discord_semantic_search.handler({ query, limit })],
    as the aggregator sees its response. *)
Definition discord_handler (env : Discord.Env) (query : string) (limit : nat)
    : result (SourceResult Hit) :=
  response ← Discord.discordSemanticSearch env
    (Discord.Params.mk query None None None None None (Some limit) None);
  Ok (mkSourceResult (Discord.total_results response)
        (map OfDiscord (Discord.results response))).

(** [docsSearchTools.docs_semantic_search.handler({ query, limit })] *)
Definition docs_handler (env : Docs.Env) (query : string) (limit : nat)
    : result (SourceResult Hit) :=
  response ← Docs.docsSemanticSearch env
    (Docs.Params.mk query None None None (Some limit));
  Ok (mkSourceResult (Docs.total_results response)
        (map OfDocs (Docs.results response))).

(** [knowledgeSearchTools.knowledge_semantic_search.handler({ query, limit })] *)
Definition knowledge_handler (env : Knowledge.Env) (query : string) (limit : nat)
    : result (SourceResult Hit) :=
  response ← Knowledge.knowledgeSemanticSearch env
    (Knowledge.Params.mk query None None (Some limit));
  Ok (mkSourceResult (Knowledge.total_results response)
        (map OfKnowledge (Knowledge.results response))).

(** The handlers that [unified.js] imports. *)
Definition searchTools (sources : Sources) : Handlers Hit :=
  {| discord_semantic_search := discord_handler (discord sources);
     docs_semantic_search := docs_handler (docs sources);
     knowledge_semantic_search := knowledge_handler (knowledge sources) |}.

(** *** [unifiedHybridSearch] *)

Section HybridAggregator.

(** A result object of a hybrid search, with its [similarity] and
    [hybrid_score] fields. *)
Context {hit : Type} (similarity hybrid_score : hit → R).

(** The hybrid [handler]s of the three source adapters, applied to
    [{ query, limit, semantic_weight }]. *)
Record HybridHandlers : Type := mkHybridHandlers {
  discord_hybrid_search : string → nat → R → result (SourceResult hit);
  docs_hybrid_search : string → nat → R → result (SourceResult hit);
  knowledge_hybrid_search : string → nat → R → result (SourceResult hit)
}.

Record HybridParams : Type := mkHybridParams {
  hybrid_query : string;
  hybrid_sources : option (list string);
  hybrid_limit : option nat;
  semantic_weight : option R
}.

Record HybridResponse : Type := mkHybridResponse {
  hybrid_response_query : string;
  hybrid_total_results : nat;
  hybrid_results : list (Tagged hit);
  hybrid_search_type : string;
  hybrid_sources_searched : list string;
  hybrid_weights : R * R;
  hybrid_source_counts : gmap string nat;
  hybrid_errors : option (gmap string string)
}.

(** [t.hybrid_score || t.similarity]: a blended score of 0 is falsy. *)
Definition rankKey (t : Tagged hit) : R :=
  if decide (hybrid_score (item t) = 0%R) then similarity (item t)
  else hybrid_score (item t).

(** The comparator
    [(a, b) => (b.hybrid_score || b.similarity) - (a.hybrid_score || a.similarity)]. *)
Definition byRankKey (a b : Tagged hit) : R := (rankKey b - rankKey a)%R.

Definition hybridPromises (handlers : HybridHandlers) (query : string)
    (sources : list string) (limit : nat) (semantic_weight : R)
    : list (string * result (SourceResult hit)) :=
  (if bool_decide ("discord" ∈ sources)
   then [("discord", discord_hybrid_search handlers query limit semantic_weight)] else [])
  ++ (if bool_decide ("docs" ∈ sources)
      then [("docs", docs_hybrid_search handlers query limit semantic_weight)] else [])
  ++ (if bool_decide ("knowledge" ∈ sources)
      then [("knowledge", knowledge_hybrid_search handlers query limit semantic_weight)]
      else []).

Definition unifiedHybridSearch (handlers : HybridHandlers) (params : HybridParams)
    : result HybridResponse :=
  let query := hybrid_query params in
  let sources := default ["discord"; "docs"; "knowledge"] (hybrid_sources params) in
  let limit := default 20 (hybrid_limit params) in
  let semantic_weight := default 0.7%R (semantic_weight params) in
  if negb (nonEmpty query) then Throw (Error "query is required")
  else
    '(st, results) ← settleAll (hybridPromises handlers query sources limit semantic_weight)
                       (mkCollected ∅ ∅ : Collected hit);
    let allResults := sortBy byRankKey (concat results) in
    let topResults := slice0 limit allResults in
    Ok {| hybrid_response_query := query;
          hybrid_total_results := length topResults;
          hybrid_results := topResults;
          hybrid_search_type := "unified_hybrid";
          hybrid_sources_searched := sources;
          hybrid_weights := (semantic_weight, (1 - semantic_weight)%R);
          hybrid_source_counts :=
            {[ "discord" := countOf st "discord";
               "docs" := countOf st "docs";
               "knowledge" := countOf st "knowledge" ]};
          hybrid_errors := if decide (errors st = ∅) then None else Some (errors st) |}.

End HybridAggregator.

Arguments HybridHandlers hit : clear implicits.
Arguments HybridResponse hit : clear implicits.

End Unified.

(** ** auth/hasura-auth.js *)

Module HasuraAuth.

Definition CORE_LEAD : string := "1446244355479306260".
Definition DEV_LEAD : string := "1446245005663535298".
Definition DEV : string := "1446245072290058260".
Definition OPEN : string := "1446245138612891658".

(** An element of [dbRoles]. *)
Record Role : Type := mkRole {
  role_id : nat;
  role_name : option string
}.

(** What [roleMapping[name]] evaluates to when it is truthy: one of the
    identifiers of the object literal or, for a name that every object
    inherits, the inherited function or object. *)
Inductive mapped : Type :=
| RoleId (id : string)
| Inherited (name : string).

#[global] Instance mapped_eq_dec : EqDecision mapped.
Proof. solve_decision. Defined.

(** The properties of [Object.prototype]. *)
Definition inherited : list string :=
  ["constructor"; "hasOwnProperty"; "isPrototypeOf"; "propertyIsEnumerable";
   "toLocaleString"; "toString"; "valueOf"; "__proto__";
   "__defineGetter__"; "__defineSetter__"; "__lookupGetter__"; "__lookupSetter__"].

(** [roleMapping[role.role_name]]; a [null] name reads the key ["null"],
    which is not there. *)
Definition roleMapping (name : option string) : option mapped :=
  match name with
  | None => None
  | Some name =>
      if String.eqb name "admin" then Some (RoleId CORE_LEAD)
      else if String.eqb name "dev" then Some (RoleId DEV)
      else if String.eqb name "member" then Some (RoleId OPEN)
      else if String.eqb name "guest" then Some (RoleId OPEN)
      else if bool_decide (name ∈ inherited) then Some (Inherited name)
      else None
  end.

(** One turn of the loop over [dbRoles]. *)
Definition addRole (discordRoles : list mapped) (role : Role) : list mapped :=
  match roleMapping (role_name role) with
  | Some discordRole =>
      if bool_decide (discordRole ∈ discordRoles) then discordRoles
      else discordRoles ++ [discordRole]
  | None => discordRoles
  end.

Definition mapDatabaseRolesToDiscordRoles (dbRoles : list Role) : list mapped :=
  let discordRoles := fold_left addRole dbRoles [] in
  match discordRoles with
  | [] => [RoleId OPEN]
  | _ => discordRoles
  end.

End HasuraAuth.

(** ** scripts/index-knowledge.js *)

Module IndexKnowledge.

(** [/[/\\]/]: a slash or a backslash (code 092). *)
Definition pathSeparator : RegExp.pattern :=
  [(RegExp.Class false ["/"; "092"]%char, RegExp.Once)].

(** [getKnowledgeCluster], applied to what
    [relative(KNOWLEDGE_DIR, filePath)] gives. *)
Definition getKnowledgeCluster (relativePath : string) : option string :=
  match RegExp.split pathSeparator relativePath with
  | [] => Some "general"
  | part :: _ =>
      let cluster := toLowerCase part in
      if String.eqb cluster "ai" then Some "ai"
      else if String.eqb cluster "company" then Some "company"
      else if String.eqb cluster "rules" then Some "rules"
      else if String.eqb cluster "info-signals" then Some "info-signals"
      else if String.eqb cluster "discord" then None
      else Some "general"
  end.

(** The collaborators of [processKnowledgeFiles]: the file system, the
    two uses of [path.relative], and [extractSection]. *)
Record Env : Type := mkEnv {
  readFile : string → result string;
  relativeToRoot : string → string;
  relativeToKnowledge : string → string;
  extractSection : string → string
}.

(** The documents pushed by [chunks.forEach]; numbers in the metadata are
    kept as their decimal text. *)
Definition documentsOf (relativePath cluster section : string) (chunks : list string)
    : list Indexer.Document.t :=
  imap
    (λ index chunk,
       Indexer.Document.mk
         (Some (relativePath +:+ "_chunk_" +:+ pretty index))
         chunk
         (Some {[ "text" := chunk;
                  "file_path" := relativePath;
                  "cluster" := cluster;
                  "section" := section;
                  "chunk_index" := pretty index;
                  "total_chunks" := pretty (length chunks) ]}))
    chunks.

(** The loop over [filePaths]; [documents] is the array filled so far. *)
Fixpoint processLoop (env : Env) (filePaths : list string)
    (documents : list Indexer.Document.t) : result (list Indexer.Document.t) :=
  match filePaths with
  | [] => Ok documents
  | filePath :: filePaths' =>
      content ← readFile env filePath;
      let relativePath := relativeToRoot env filePath in
      if String.length (trim content) =? 0 then processLoop env filePaths' documents
      else
        match getKnowledgeCluster (relativeToKnowledge env filePath) with
        | None => processLoop env filePaths' documents
        | Some cluster =>
            let section := extractSection env content in
            let chunks :=
              Indexer.chunkText content
                (Indexer.mkOptions (Some 1000) (Some 200)
                   (Some (String LF (String LF EmptyString)))) in
            processLoop env filePaths'
              (documents ++ documentsOf relativePath cluster section chunks)
        end
  end.

Definition processKnowledgeFiles (env : Env) (filePaths : list string)
    : result (list Indexer.Document.t) :=
  processLoop env filePaths [].

End IndexKnowledge.

(** * Vocabulary of the statements *)

(** ** Orders *)

Section SortOrder.

Context {A : Type} (key : A → R).

(** The comparator [(a, b) => key(b) - key(a)]. *)
Definition byDesc (a b : A) : R := (key b - key a)%R.

(** [x] may stand before [y] in an array sorted by descending key. *)
Definition descending : A → A → Prop := λ x y, (key y <= key x)%R.

End SortOrder.

(** ** Vectors *)

Fixpoint dot (v w : list R) : R :=
  match v, w with
  | x :: v', y :: w' => (x * y + dot v' w')%R
  | _, _ => 0%R
  end.

Fixpoint sumSquares (v : list R) : R :=
  match v with
  | x :: v' => (x * x + sumSquares v')%R
  | [] => 0%R
  end.

(** The Euclidean norm, as [cosineSimilarity] computes it. *)
Definition magnitude (v : list R) : R := sqrt (sumSquares v).

Definition lengthError : exn := Error "Vectors must have the same length".

(** [s] is the record [d] with its cosine similarity to [q]. *)
Definition scoredAs (q : list R) (d : VectorRecord) (s : Scored) : Prop :=
  doc s = d ∧ cosineSimilarity q (embedding d) = Ok (similarity s).

(** ** Dates *)

(** The metadata of the record has no [date]. *)
Definition undated (r : Scored) : Prop := metadata (doc r) !! "date" = None.

(** The parameters with [start_date] and [end_date] left out. *)
Definition withoutDates (params : Discord.Params.t) : Discord.Params.t :=
  {| Discord.Params.query := Discord.Params.query params;
     Discord.Params.server_id := Discord.Params.server_id params;
     Discord.Params.channel_id := Discord.Params.channel_id params;
     Discord.Params.author := Discord.Params.author params;
     Discord.Params.start_date := None;
     Discord.Params.end_date := None;
     Discord.Params.limit := Discord.Params.limit params;
     Discord.Params.semantic_weight := Discord.Params.semantic_weight params |}.

(** ** Chunks *)

(** [xs.join(separator)] *)
Fixpoint join (separator : string) (xs : list string) : string :=
  match xs with
  | [] => EmptyString
  | [x] => x
  | x :: xs' => x +:+ separator +:+ join separator xs'
  end.

(** The buffer after a run of sections none of which triggers a flush. *)
Fixpoint accJoin (separator cur : string) (sections : list string) : string :=
  match sections with
  | [] => cur
  | section :: rest =>
      accJoin separator
        (cur +:+ (if nonEmpty cur then separator else EmptyString) +:+ section) rest
  end.

(** The length of the sections, each with one separator. *)
Fixpoint weight (separator : string) (sections : list string) : nat :=
  match sections with
  | [] => 0
  | section :: rest =>
      String.length separator + String.length section + weight separator rest
  end.

Fixpoint repeatString (n : nat) (s : string) : string :=
  match n with
  | 0 => EmptyString
  | S n' => s +:+ repeatString n' s
  end.

(** One chunk, the trimmed input, for a non-empty input that fits the
    configured size. *)
Definition oneTrimmedChunk (text : string) (options : Indexer.ChunkOptions) : Prop :=
  text ≠ EmptyString →
  String.length text ≤ default 1000 (Indexer.chunkSize options) →
  Indexer.chunkText text options = [trim text].

(** ** Snapshots *)

Section SaveVocabulary.

Import Indexer.

(** The descriptor that [saveVectorDb] builds. *)
Definition descriptorOf (env : Environment) (vectors : list VectorRecord) : Descriptor :=
  {| indexed_at := now env;
     total_vectors := length vectors;
     embedding_model := "Xenova/all-MiniLM-L6-v2";
     dimensions := 384 |}.

(** The directory step succeeds: the directory is there or [mkdir] creates it. *)
Definition directoryReady (env : Environment) : Prop :=
  directoryExists env = true ∨ mkdir env = Ok ().

(** A call that fails leaves the visible files as they were. *)
Definition failureKeepsSnapshot (env : Environment) (fs : FileSystem)
    (vectors : list VectorRecord) (outputPath : string) : Prop :=
  (saveVectorDb env fs vectors outputPath).2 ≠ Ok () →
  (saveVectorDb env fs vectors outputPath).1 = fs.

(** No call leaves at the target path a partially written file that was
    not there before. *)
Definition noPartialFile (env : Environment) (fs : FileSystem)
    (vectors : list VectorRecord) (outputPath : string) : Prop :=
  ∀ d n,
    (saveVectorDb env fs vectors outputPath).1 !! outputPath = Some (Truncated d n) →
    fs !! outputPath = Some (Truncated d n).

(** A snapshot of an empty collection, and a collection to replace it. *)
Definition oldSnapshot : FileSystem :=
  {[ "db/vectors.json" := Complete (VectorsJson []);
     "db/metadata.json" :=
       Complete (MetadataJson (mkDescriptor "t0" 0 "Xenova/all-MiniLM-L6-v2" 384)) ]}.

Definition newVectors : list VectorRecord := [mkRecord "doc_0" [1; 0]%R ∅].

End SaveVocabulary.

(** ** Aggregation *)

Section UnifiedVocabulary.

Import Unified.

Context {hit : Type}.

(** The outcome of the promise is within the embedding. *)
Definition settled (outcome : result (SourceResult hit)) : Prop := outcome ≠ Unmodelled.

(** What one settled promise contributes to the merged list. *)
Definition taggedOf (p : string * result (SourceResult hit)) : list (Tagged hit) :=
  match p.2 with
  | Ok response => map (λ r, mkTagged r p.1) (results response)
  | _ => []
  end.

(** What one settled promise leaves in [sourceResults] and [errors]. *)
Definition noted (st : Collected hit) (p : string * result (SourceResult hit))
    : Collected hit :=
  match p.2 with
  | Ok response =>
      {| sourceResults := <[p.1 := response]> (sourceResults st); errors := errors st |}
  | Throw error =>
      {| sourceResults := sourceResults st; errors := <[p.1 := message error]> (errors st) |}
  | Unmodelled => st
  end.

(** Every adapter starts with [if (!query) throw new Error('query is required')]. *)
Definition handlersRequireQuery (handlers : Handlers hit) : Prop :=
  ∀ limit,
    discord_semantic_search handlers EmptyString limit = Throw (Error "query is required")
    ∧ docs_semantic_search handlers EmptyString limit = Throw (Error "query is required")
    ∧ knowledge_semantic_search handlers EmptyString limit = Throw (Error "query is required").

End UnifiedVocabulary.

(** ** Semantic and hybrid search *)

Section DiscordVocabulary.

Import Discord.

(** The records that pass the filters among the first [k] of a ranking,
    as result objects. *)
Definition hitsOf (params : Params.t) (k : nat) (ranking : list Scored) : list Hit.t :=
  map toHit
    (List.filter (λ r, passesFilters params (metadata (doc r))) (take k ranking)).

(** No filter is set. *)
Definition noFilters (params : Params.t) : Prop :=
  truthy (Params.server_id params) = false
  ∧ truthy (Params.channel_id params) = false
  ∧ truthy (Params.author params) = false
  ∧ truthy (Params.start_date params) = false
  ∧ truthy (Params.end_date params) = false.

(** The keyword is a pattern of the fragment. *)
Definition compiles (keyword : string) : Prop :=
  ∃ p, RegExp.compile keyword = RegExp.Compiled p.

Definition hasText (h : Hit.t) : Prop := ∃ text, Hit.text h = Some text.

(** The hybrid search with weight 1 and the semantic search return the
    same sequence of results. *)
Definition sameResults (env : Env) (params : Params.t) : Prop :=
  ∀ hybrid semantic,
    Params.semantic_weight params = Some 1%R →
    discordHybridSearch env params = Ok hybrid →
    discordSemanticSearch env params = Ok semantic →
    map hit (results hybrid) = results semantic.

End DiscordVocabulary.

(** ** Keyword scores *)

(** The number of occurrences of a keyword in a text, counted from left to
    right without overlap; the empty keyword occurs once at every position.
    [skip] counts the characters of the last occurrence still to be passed
    over. *)
Fixpoint occurrencesFrom (keyword : string) (skip : nat) (text : string) : nat :=
  match text with
  | EmptyString =>
      match skip with
      | 0 => if String.prefix keyword text then 1 else 0
      | S _ => 0
      end
  | String _ text' =>
      match skip with
      | S k => occurrencesFrom keyword k text'
      | 0 =>
          if String.prefix keyword text then
            S (occurrencesFrom keyword (String.length keyword - 1) text')
          else occurrencesFrom keyword 0 text'
      end
  end.

Definition occurrences (keyword text : string) : nat := occurrencesFrom keyword 0 text.

(** The keyword score in the words of the specification: the sum of each
    keyword's occurrence count in the lowercased candidate text, divided by
    the number of keywords, divided by 5 and capped at 1. *)
Definition specKeywordScore (keywords : list string) (text : string) : R :=
  Rmin (INR (sum_list (map (λ keyword, occurrences keyword (toLowerCase text)) keywords))
        / INR (length keywords) / 5) 1.

(** A keyword without characters that are syntax in a pattern. *)
Definition plainChar (c : ascii) : bool :=
  negb (existsb (Ascii.eqb c) (RegExp.otherSyntax ++ ["*"; "+"; "?"; "."]%char)).

Definition plain (keyword : string) : Prop :=
  Forall (λ c, plainChar c = true) (list_ascii_of_string keyword).

(** The pattern that matches the keyword character by character. *)
Definition literal (keyword : string) : RegExp.pattern :=
  map (λ c, (RegExp.Char c, RegExp.Once)) (list_ascii_of_string keyword).

(** A candidate rescored as the specification says. *)
Definition rescoredAs (keywords : list string) (w : R) (candidate : Discord.Hit.t)
    (h : Discord.HybridHit) : Prop :=
  Discord.hit h = candidate
  ∧ ∃ text,
      Discord.Hit.text candidate = Some text
      ∧ Discord.keyword_score h = specKeywordScore keywords text
      ∧ Discord.hybrid_score h
        = (Discord.Hit.similarity candidate * w + Discord.keyword_score h * (1 - w))%R.

(** ** A small collection *)

(** Three messages with the same embedding. *)
Definition message (id author text : string) : VectorRecord :=
  mkRecord id [1; 0]%R {[ "author" := author; "text" := text ]}.

Definition sampleDocs : list VectorRecord :=
  [message "m1" "alice" "What is this thing";
   message "m2" "alice" "Lunch at noon";
   message "m3" "bob" "The release is out"].

Definition sampleEnv : Discord.Env :=
  {| Discord.vectors := Ok sampleDocs;
     Discord.generateEmbedding := λ _, Ok [1; 0]%R |}.

Definition sampleScored : list Scored := map (λ d, mkScored d 1) sampleDocs.

Definition question : Scored := mkScored (message "m1" "alice" "What is this thing") 1.

(** Messages of [bob], similarity only. *)
Definition byBob (limit : nat) (query : string) : Discord.Params.t :=
  Discord.Params.mk query None None (Some "bob") None None (Some limit) (Some 1%R).

(** No filter, at most one result, equal weights. *)
Definition about (query : string) : Discord.Params.t :=
  Discord.Params.mk query None None None None None (Some 1) (Some 0.5%R).

(** The Discord snapshot was never written; the other two adapters have
    loaded the sample pages. *)
Definition missingSnapshot : Discord.Env :=
  {| Discord.vectors :=
       Throw (Error "Discord vector database not initialized. Run: npm run index-discord");
     Discord.generateEmbedding := λ _, Ok [1; 0]%R |}.

Definition page (id file_path text : string) : VectorRecord :=
  mkRecord id [1; 0]%R {[ "file_path" := file_path; "text" := text ]}.

Definition samplePages : list VectorRecord :=
  [page "d1" "docs/release.md" "How a release is cut";
   page "d2" "docs/setup.md" "Installing the tools"].

Definition sampleDocsEnv : Docs.Env :=
  {| Docs.vectors := Ok samplePages;
     Docs.generateEmbedding := λ _, Ok [1; 0]%R |}.

Definition sampleKnowledgeEnv : Knowledge.Env :=
  {| Knowledge.vectors := Ok samplePages;
     Knowledge.generateEmbedding := λ _, Ok [1; 0]%R |}.

Definition sampleSources : Unified.Sources :=
  {| Unified.discord := missingSnapshot;
     Unified.docs := sampleDocsEnv;
     Unified.knowledge := sampleKnowledgeEnv |}.

Definition sampleHandlers : Unified.Handlers Unified.Hit :=
  Unified.searchTools sampleSources.

(** ** Snapshots read back *)

(** A record written by [saveVectorDb], as [JSON.parse] returns it. *)
Definition stored (v : VectorRecord) : Stored.t :=
  {| Stored.id := doc_id v;
     Stored.values := None;
     Stored.embedding := Some (embedding v);
     Stored.metadata := metadata v |}.

(** What [readFile] and [JSON.parse] give for a file written by
    [saveVectorDb]: the collection, or the descriptor object, which has
    no [map].  The parse of a file that was cut short is left out. *)
Definition parsed (c : Indexer.content) : result (list Stored.t) :=
  match c with
  | Indexer.Complete (Indexer.VectorsJson vectors) => Ok (map stored vectors)
  | Indexer.Complete (Indexer.MetadataJson _) =>
      Throw (TypeError "vectors.map is not a function")
  | Indexer.Truncated _ _ => Unmodelled
  end.

Definition readSnapshot (fs : Indexer.FileSystem) (path : string)
    : option (result (list Stored.t)) :=
  parsed <$> fs !! path.

(** ** Indexing *)

(** The identifier given to a document without one at position [i]. *)
Definition generatedId (i : nat) : string := "doc_" +:+ pretty i.

(** The record made of the document at position [i] of the input. *)
Definition indexedAs (i : nat) (d : Indexer.Document.t) (embedding : list R)
    : VectorRecord :=
  {| doc_id :=
       match Indexer.Document.id d with
       | Some id => if nonEmpty id then id else generatedId i
       | None => generatedId i
       end;
     embedding := embedding;
     metadata := default ∅ (Indexer.Document.metadata d) |}.

Definition indexedAll (documents : list Indexer.Document.t) (embeddings : list (list R))
    : list VectorRecord :=
  imap (λ i p, indexedAs i p.1 p.2) (zip documents embeddings).

(** The embedder is [model], already loaded or loaded at first use. *)
Definition provides (pipeline : result Embeddings.Model)
    (embedder : option Embeddings.Model) (model : Embeddings.Model) : Prop :=
  embedder = Some model ∨ (embedder = None ∧ pipeline = Ok model).

(** The report after batch [i] of [n] documents. *)
Definition progressAt (batchSize n i : nat) : Indexer.Progress :=
  let done := ((i + 1) * batchSize) `min` n in
  Indexer.mkProgress done n (Indexer.percent done n).

(** A collection whose only message has no text. *)
Definition textlessEnv : Discord.Env :=
  {| Discord.vectors := Ok [mkRecord "m4" [1; 0]%R {[ "author" := "carol" ]}];
     Discord.generateEmbedding := λ _, Ok [1; 0]%R |}.

(** The error of calling [includes] on a missing [file_path]. *)
Definition noFilePath : exn :=
  TypeError "Cannot read properties of undefined (reading 'includes')".

(** A page that was indexed without a [file_path]. *)
Definition sampleLoosePagesEnv : Docs.Env :=
  {| Docs.vectors := Ok [mkRecord "d3" [1; 0]%R {[ "text" := "Loose notes" ]}];
     Docs.generateEmbedding := λ _, Ok [1; 0]%R |}.

(** ** Sentences *)

(** The characters of the class [[.!?]]. *)
Definition terminator (c : ascii) : bool := existsb (Ascii.eqb c) ["."; "!"; "?"]%char.

Definition nonTerminator (c : ascii) : bool := negb (terminator c).

(** Every character of [s] satisfies [f]. *)
Definition allChars (f : ascii → bool) (s : string) : Prop :=
  Forall (λ c, f c = true) (list_ascii_of_string s).

(** The string is empty or starts with a character that is not white space. *)
Definition startsClean (s : string) : Prop :=
  match s with
  | EmptyString => True
  | String c _ => isWhiteSpace c = false
  end.

(** Every chunk flushed so far is a trimmed string. *)
Definition flushedTrimmed (st : Indexer.state) : Prop :=
  Forall (λ chunk, trim chunk = chunk) st.1.

(** The string is empty or starts with a character that [f] rejects. *)
Definition stopsAt (f : ascii → bool) (s : string) : Prop :=
  match s with
  | EmptyString => True
  | String c _ => f c = false
  end.

(** The text holds no occurrence of the separator. *)
Definition unbroken (separator text : string) : Prop := includes text separator = false.

(** The outcome of the promise is a response. *)
Definition answered {hit : Type} (outcome : result (Unified.SourceResult hit)) : Prop :=
  ∃ found, outcome = Ok found.

(** ** The text held by chunks *)

(** The string without its white space. *)
Fixpoint withoutWhiteSpace (s : string) : string :=
  match s with
  | EmptyString => EmptyString
  | String c s' =>
      if isWhiteSpace c then withoutWhiteSpace s' else String c (withoutWhiteSpace s')
  end.

(** The strings one after the other. *)
Fixpoint concatAll (xs : list string) : string :=
  match xs with
  | [] => EmptyString
  | x :: xs' => x +:+ concatAll xs'
  end.

(** The text, white space apart, that the loop of [chunkText] holds. *)
Definition heldText (st : Indexer.state) : string :=
  withoutWhiteSpace (concatAll st.1) +:+ withoutWhiteSpace st.2.

(** ** Queries with white space around them *)

Fixpoint lastChar (s : string) : option ascii :=
  match s with
  | EmptyString => None
  | String c s' =>
      match s' with
      | EmptyString => Some c
      | _ => lastChar s'
      end
  end.

Definition startsBlank (s : string) : bool :=
  match s with
  | String c _ => isWhiteSpace c
  | EmptyString => false
  end.

Definition endsBlank (s : string) : bool :=
  match lastChar s with
  | Some c => isWhiteSpace c
  | None => false
  end.

(** The number of white space characters at the start of the string. *)
Fixpoint blankRun (s : string) : nat :=
  match s with
  | String c s' => if isWhiteSpace c then S (blankRun s') else 0
  | EmptyString => 0
  end.

(** ** Documents of the knowledge base *)

Definition knownClusters : list string :=
  ["ai"; "company"; "rules"; "info-signals"; "general"].

(** A document as the indexing script of the knowledge base makes them:
    it has an identifier, its text is a trimmed, non-empty chunk, and its
    metadata repeats the text and names the file and the cluster. *)
Definition knowledgeDocument (d : Indexer.Document.t) : Prop :=
  truthy (Indexer.Document.id d) = true
  ∧ Indexer.Document.text d ≠ EmptyString
  ∧ trim (Indexer.Document.text d) = Indexer.Document.text d
  ∧ ∃ meta,
      Indexer.Document.metadata d = Some meta
      ∧ meta !! "text" = Some (Indexer.Document.text d)
      ∧ is_Some (meta !! "file_path")
      ∧ ∃ cluster, meta !! "cluster" = Some cluster ∧ cluster ∈ knownClusters.

(** The options with which the indexing script calls [chunkText]. *)
Definition knowledgeChunking : Indexer.ChunkOptions :=
  Indexer.mkOptions (Some 1000) (Some 200) (Some (String LF (String LF EmptyString))).

(** The file adds no document: it is blank, or it lies under [discord]. *)
Definition skippedFile (env : IndexKnowledge.Env) (filePath content : string) : Prop :=
  trim content = EmptyString
  ∨ IndexKnowledge.getKnowledgeCluster (IndexKnowledge.relativeToKnowledge env filePath)
    = None.

(** [part] holds one document for every chunk of the file, in the order
    of the chunks: chunk [i] with the identifier [<path>_chunk_<i>] and
    the metadata of the script. *)
Definition chunkDocuments (env : IndexKnowledge.Env) (filePath content cluster : string)
    (part : list Indexer.Document.t) : Prop :=
  let chunks := Indexer.chunkText content knowledgeChunking in
  let relativePath := IndexKnowledge.relativeToRoot env filePath in
  length part = length chunks
  ∧ ∀ i chunk,
      chunks !! i = Some chunk →
      part !! i
      = Some (Indexer.Document.mk
                (Some (relativePath +:+ "_chunk_" +:+ pretty i))
                chunk
                (Some {[ "text" := chunk;
                         "file_path" := relativePath;
                         "cluster" := cluster;
                         "section" := IndexKnowledge.extractSection env content;
                         "chunk_index" := pretty i;
                         "total_chunks" := pretty (length chunks) ]})).

(** What the loop of [processKnowledgeFiles] adds for one file. *)
Definition documentsFrom (env : IndexKnowledge.Env) (filePath content : string)
    : list Indexer.Document.t :=
  if String.length (trim content) =? 0 then []
  else
    match IndexKnowledge.getKnowledgeCluster
            (IndexKnowledge.relativeToKnowledge env filePath) with
    | None => []
    | Some cluster =>
        IndexKnowledge.documentsOf (IndexKnowledge.relativeToRoot env filePath) cluster
          (IndexKnowledge.extractSection env content)
          (Indexer.chunkText content knowledgeChunking)
    end.

(** The metadata names the file, the cluster and the text. *)
Definition located (metadata : gmap string string) : Prop :=
  is_Some (metadata !! "file_path")
  ∧ is_Some (metadata !! "cluster")
  ∧ is_Some (metadata !! "text").

(** A knowledge file with one heading and one paragraph. *)
Definition sampleKnowledgeFiles : IndexKnowledge.Env :=
  {| IndexKnowledge.readFile := λ _, Ok "# Rules of the house";
     IndexKnowledge.relativeToRoot := λ _, "context/rules/house.md";
     IndexKnowledge.relativeToKnowledge := λ _, "rules/house.md";
     IndexKnowledge.extractSection := λ _, "Rules of the house" |}.

(** The documents of that file, their records, and a knowledge search
    over them. *)
Definition sampleKnowledgeDocuments : list Indexer.Document.t :=
  IndexKnowledge.documentsOf "context/rules/house.md" "rules" "Rules of the house"
    ["# Rules of the house"].

Definition sampleKnowledgeVectors : list VectorRecord :=
  indexedAll sampleKnowledgeDocuments [[1; 0]%R].

Definition sampleIndexedEnv : Knowledge.Env :=
  {| Knowledge.vectors := Ok sampleKnowledgeVectors;
     Knowledge.generateEmbedding := λ _, Ok [1; 0]%R |}.

(** * Properties *)

(** ** Stable sort by a descending key *)

Section SortFacts.

Context {A : Type} (key : A → R).

Lemma insertBy_perm (cmp : A → A → R) x l : insertBy cmp x l ≡ₚ x :: l.
Proof.
  induction l as [|y l IH]; simpl; [done|].
  case_bool_decide; [|done].
  rewrite IH. apply Permutation_swap.
Qed.

Lemma sortBy_perm (cmp : A → A → R) l : sortBy cmp l ≡ₚ l.
Proof.
  induction l as [|x l IH]; simpl; [done|].
  by rewrite insertBy_perm, IH.
Qed.

Lemma sortBy_length (cmp : A → A → R) l : length (sortBy cmp l) = length l.
Proof. apply Permutation_length, sortBy_perm. Qed.

Lemma insertBy_desc_sorted x l :
  StronglySorted (descending key) l →
  StronglySorted (descending key) (insertBy (byDesc key) x l).
Proof.
  induction 1 as [|y l Hl IH Hy]; simpl.
  - repeat constructor.
  - unfold byDesc at 1. case_bool_decide as Hc.
    + constructor; [done|].
      rewrite insertBy_perm. constructor; [unfold descending; lra | done].
    + constructor; [by constructor|].
      constructor; [unfold descending; lra|].
      eapply Forall_impl; [exact Hy|]. unfold descending. intros z Hz. lra.
Qed.

Lemma sortBy_desc_sorted l : StronglySorted (descending key) (sortBy (byDesc key) l).
Proof.
  induction l as [|x l IH]; simpl; [constructor|].
  by apply insertBy_desc_sorted.
Qed.

(** Stability: an array that is already in descending order is left as it
    is, ties included. *)
Lemma sortBy_desc_sorted_id l : Sorted (descending key) l → sortBy (byDesc key) l = l.
Proof.
  induction 1 as [|x l Hl IH Hx]; simpl; [done|].
  rewrite IH. destruct Hx as [|y l Hxy]; simpl; [done|].
  unfold byDesc. rewrite bool_decide_eq_false_2; [done|].
  unfold descending in Hxy. lra.
Qed.

End SortFacts.

(** ** Cosine similarity *)

Lemma accumulate_spec a b d na nb :
  length a = length b →
  accumulate a b (d, na, nb) = (d + dot a b, na + sumSquares a, nb + sumSquares b)%R.
Proof.
  revert b d na nb. induction a as [|x a IH]; intros [|y b] d na nb Hlen;
    simplify_eq/=.
  - f_equal; [f_equal|]; lra.
  - rewrite IH by done. f_equal; [f_equal|]; lra.
Qed.




Lemma cosineSimilarity_equal_length v w :
  length v = length w →
  cosineSimilarity v w =
    if decide (magnitude v = 0%R ∨ magnitude w = 0%R) then Ok 0%R
    else Ok (dot v w / (magnitude v * magnitude w))%R.
Proof.
  intros Hlen. unfold cosineSimilarity.
  rewrite decide_False by (intros ?; done).
  rewrite accumulate_spec by done. rewrite !Rplus_0_l.
  fold (magnitude v) (magnitude w). case_decide as Hz; [done|].
  unfold divide. rewrite decide_False; [done|].
  intros [?|?]%Rmult_integral; apply Hz; auto.
Qed.

Lemma cosineSimilarity_mismatch v w :
  length v ≠ length w → cosineSimilarity v w = Throw lengthError.
Proof. intros Hlen. unfold cosineSimilarity. by rewrite decide_True. Qed.

Lemma cosineSimilarity_total v w :
  length v = length w → ∃ r, cosineSimilarity v w = Ok r.
Proof.
  intros Hlen. rewrite cosineSimilarity_equal_length by done.
  case_decide; eauto.
Qed.

(** Every record is scored, or the first mismatching record aborts the
    map with the length error. *)
Lemma mapM_score_cases q docs :
  (Forall (λ d, length q = length (embedding d)) docs
   ∧ ∃ res, mapM (score q) docs = Ok res ∧ Forall2 (scoredAs q) docs res)
  ∨ (Exists (λ d, length q ≠ length (embedding d)) docs
     ∧ mapM (score q) docs = Throw lengthError).
Proof.
  induction docs as [|d docs IH]; simpl.
  - left. split; [constructor|]. eexists. split; [done | constructor].
  - unfold score at 1 3.
    destruct (decide (length q = length (embedding d))) as [Heq|Hne].
    + destruct (cosineSimilarity_total q (embedding d) Heq) as [r Hr].
      rewrite Hr. simpl.
      destruct IH as [[Hall (res & -> & Hres)] | [Hex ->]]; simpl.
      * left. split; [by constructor|]. eexists. split; [done|].
        constructor; [by split | done].
      * right. split; [by apply Exists_cons_tl | done].
    + rewrite (cosineSimilarity_mismatch q (embedding d) Hne). simpl.
      right. split; [by apply Exists_cons_hd | done].
Qed.

(** C2. Cosine similarity raises the length error exactly when the two
    vectors differ in length, and returns a number exactly when they have
    the same length; [vectorSearch] raises that error exactly when some
    record's embedding differs in length from the query vector, and returns
    exactly when none does. *)
Theorem cosineSimilarity_raises_iff_length_mismatch (v w : list R) :
  (cosineSimilarity v w = Throw lengthError ↔ length v ≠ length w)
  ∧ ((∃ r, cosineSimilarity v w = Ok r) ↔ length v = length w)
  ∧ (∀ docs limit,
       vectorSearch v docs limit = Throw lengthError
       ↔ Exists (λ d, length v ≠ length (embedding d)) docs)
  ∧ (∀ docs limit,
       (∃ res, vectorSearch v docs limit = Ok res)
       ↔ Forall (λ d, length v = length (embedding d)) docs).
Proof.
  split; [|split; [|split]].
  - destruct (decide (length v = length w)) as [Heq|Hne].
    + destruct (cosineSimilarity_total v w Heq) as [r ->]. split; done.
    + by rewrite (cosineSimilarity_mismatch v w Hne).
  - destruct (decide (length v = length w)) as [Heq|Hne].
    + split; [done|]. intros _. by apply cosineSimilarity_total.
    + rewrite (cosineSimilarity_mismatch v w Hne). split; [|done].
      by intros [? ?].
  - intros docs limit. unfold vectorSearch.
    destruct (mapM_score_cases v docs) as [[Hall (res & -> & _)] | [Hex ->]];
      simpl; [|done].
    split; [done|]. intros Hex. exfalso.
    apply Exists_exists in Hex as (d & Hd & Hne).
    rewrite Forall_forall in Hall. by apply Hne, Hall.
  - intros docs limit. unfold vectorSearch.
    destruct (mapM_score_cases v docs) as [[Hall (res & -> & _)] | [Hex ->]];
      simpl; [split; eauto|].
    split; [by intros [? ?]|]. intros Hall. exfalso.
    apply Exists_exists in Hex as (d & Hd & Hne).
    rewrite Forall_forall in Hall. by apply Hne, Hall.
Qed.



(** ** Ranking *)

Lemma vectorSearch_scored q docs limit scored :
  mapM (score q) docs = Ok scored →
  vectorSearch q docs limit = Ok (take limit (sortBy (byDesc similarity) scored)).
Proof. unfold vectorSearch. by intros ->. Qed.

(** C1. When every embedding has the length of the query vector,
    [vectorSearch] returns; it returns [min limit (length docs)] results,
    hence at most [limit]; each is a record of the collection with its
    cosine similarity to the query; the similarities are non-increasing
    along the returned sequence; and no record left out has a higher
    similarity than a returned one. *)
Theorem vectorSearch_returns_top_limit (q : list R) (docs : list VectorRecord)
    (limit : nat) :
  Forall (λ d, length q = length (embedding d)) docs →
  ∃ scored res rest,
    Forall2 (scoredAs q) docs scored
    ∧ vectorSearch q docs limit = Ok res
    ∧ length res = limit `min` length docs
    ∧ length res ≤ limit
    ∧ StronglySorted (λ x y, (similarity y <= similarity x)%R) res
    ∧ scored ≡ₚ res ++ rest
    ∧ ∀ x y, x ∈ res → y ∈ rest → (similarity y <= similarity x)%R.
Proof.
  intros Hall.
  destruct (mapM_score_cases q docs) as [[_ (scored & Hm & Hsc)] | [Hex _]].
  2:{ exfalso. apply Exists_exists in Hex as (d & Hd & Hne).
      rewrite Forall_forall in Hall. by apply Hne, Hall. }
  pose (sorted := sortBy (byDesc similarity) scored).
  exists scored, (take limit sorted), (drop limit sorted).
  assert (Hsorted : StronglySorted (descending similarity) sorted)
    by apply sortBy_desc_sorted.
  split; [done|]. split; [by apply vectorSearch_scored|].
  assert (Hlen : length (take limit sorted) = limit `min` length docs).
  { rewrite length_take. unfold sorted. rewrite sortBy_length.
    by rewrite <- (Forall2_length _ _ _ Hsc). }
  split; [done|]. split; [lia|]. split; [|split].
  - rewrite <- (take_drop limit sorted) in Hsorted.
    by apply StronglySorted_app_1_l in Hsorted.
  - rewrite take_drop. symmetry. apply sortBy_perm.
  - intros x y Hx Hy. rewrite <- (take_drop limit sorted) in Hsorted.
    apply (StronglySorted_app_1_elem_of _ _ _ x y Hsorted Hx Hy).
Qed.

Lemma vectorSearch_returns_top_limit_witness :
  ∃ scored res rest,
    Forall2 (scoredAs [1; 0]%R)
      [mkRecord "a" [0; 1]%R ∅; mkRecord "b" [1; 0]%R ∅; mkRecord "c" [1; 1]%R ∅]
      scored
    ∧ vectorSearch [1; 0]%R
        [mkRecord "a" [0; 1]%R ∅; mkRecord "b" [1; 0]%R ∅; mkRecord "c" [1; 1]%R ∅]
        2 = Ok res
    ∧ length res = 2
    ∧ length res ≤ 2
    ∧ StronglySorted (λ x y, (similarity y <= similarity x)%R) res
    ∧ scored ≡ₚ res ++ rest
    ∧ ∀ x y, x ∈ res → y ∈ rest → (similarity y <= similarity x)%R.
Proof.
  apply (vectorSearch_returns_top_limit [1; 0]%R
    [mkRecord "a" [0; 1]%R ∅; mkRecord "b" [1; 0]%R ∅; mkRecord "c" [1; 1]%R ∅] 2).
  repeat constructor.
Defined.

(** ** Date filters *)

Lemma lessThan_undefined_l b : lessThan None b = false.
Proof. done. Qed.

Lemma lessThan_undefined_r a : lessThan a None = false.
Proof. by destruct a. Qed.

Lemma inDateRange_undated startDate endDate r :
  undated r → inDateRange startDate endDate r = true.
Proof. unfold undated, inDateRange. by intros ->. Qed.

Lemma passesFilters_undated params md :
  md !! "date" = None →
  Discord.passesFilters params md = Discord.passesFilters (withoutDates params) md.
Proof.
  intros Hdate. unfold Discord.passesFilters. simpl.
  rewrite Hdate, lessThan_undefined_l, lessThan_undefined_r, !andb_false_r.
  done.
Qed.

Lemma filterLoop_ext params params' limit acc rs :
  Forall (λ r, Discord.passesFilters params (metadata (doc r))
               = Discord.passesFilters params' (metadata (doc r))) rs →
  Discord.filterLoop params limit acc rs = Discord.filterLoop params' limit acc rs.
Proof.
  intros Hall. revert acc. induction Hall as [|r rs Hr _ IH]; intros acc; simpl; [done|].
  rewrite Hr. destruct (Discord.passesFilters params' _); [|apply IH].
  by rewrite IH.
Qed.

Lemma vectorSearch_subset q docs limit res r :
  vectorSearch q docs limit = Ok res → r ∈ res → doc r ∈ docs.
Proof.
  unfold vectorSearch.
  destruct (mapM_score_cases q docs) as [[_ (scored & -> & Hsc)] | [_ ->]];
    simpl; [|done].
  intros [= <-] Hr. unfold slice0 in Hr.
  assert (Hin : r ∈ scored).
  { rewrite <- (sortBy_perm bySimilarity scored).
    by apply (subseteq_take limit). }
  clear Hr. induction Hsc as [|d s docs scored [Hd _] _ IH]; [by apply elem_of_nil in Hin|].
  apply elem_of_cons in Hin as [->|Hin]; [rewrite Hd; by left | right; by apply IH].
Qed.

(** C10. A record whose metadata has no [date] is kept by the date filters
    whatever [start_date] and [end_date] are: [filterByDateRange] keeps it
    (and leaves a list of undated records as it is), the inline checks of
    the Discord filtering loop treat it exactly as without a date range, and
    a semantic search over a collection of undated records returns the same
    results with and without a date range. *)
Theorem undated_records_pass_date_filters (r : Scored) :
  undated r →
  (∀ results startDate endDate,
     r ∈ results → r ∈ filterByDateRange results startDate endDate)
  ∧ (∀ results startDate endDate,
       Forall undated results → filterByDateRange results startDate endDate = results)
  ∧ (∀ params,
       Discord.passesFilters params (metadata (doc r))
       = Discord.passesFilters (withoutDates params) (metadata (doc r)))
  ∧ (∀ env params docs,
       Discord.vectors env = Ok docs →
       Forall (λ d, metadata d !! "date" = None) docs →
       Discord.results <$> Discord.discordSemanticSearch env params
       = Discord.results <$> Discord.discordSemanticSearch env (withoutDates params)).
Proof.
  intros Hr. split; [|split; [|split]].
  - intros results startDate endDate Hin. unfold filterByDateRange.
    apply list_elem_of_In, filter_In. split; [by apply list_elem_of_In|].
    by apply inDateRange_undated.
  - intros results startDate endDate Hall. unfold filterByDateRange.
    induction Hall as [|x results Hx _ IH]; simpl; [done|].
    by rewrite (inDateRange_undated _ _ x Hx), IH.
  - intros params. by apply passesFilters_undated.
  - intros env params docs Hdocs Hall. unfold Discord.discordSemanticSearch. simpl.
    destruct (nonEmpty (Discord.Params.query params)); simpl; [|done].
    rewrite Hdocs. simpl.
    destruct (Discord.generateEmbedding env _) as [q| |]; simpl; [|done..].
    destruct (vectorSearch q docs _) as [res| |] eqn:Hvs; simpl; [|done..].
    f_equal. apply filterLoop_ext. apply Forall_forall. intros x Hx.
    apply passesFilters_undated.
    rewrite Forall_forall in Hall. apply Hall.
    by eapply vectorSearch_subset.
Qed.

Lemma undated_records_pass_date_filters_witness :
  mkScored (mkRecord "m1" [1]%R {["text" := "hello"]}) 1
    ∈ filterByDateRange [mkScored (mkRecord "m1" [1]%R {["text" := "hello"]}) 1]
        (Some "2024-01-01") (Some "2024-12-31").
Proof.
  apply (undated_records_pass_date_filters
           (mkScored (mkRecord "m1" [1]%R {["text" := "hello"]}) 1)).
  - reflexivity.
  - by left.
Defined.

(** ** Strings *)

Section StringFacts.

Lemma append_cons c s t : String c s +:+ t = String c (s +:+ t).
Proof. reflexivity. Qed.

Lemma append_nil_l s : EmptyString +:+ s = s.
Proof. reflexivity. Qed.

Lemma append_nil_r s : s +:+ EmptyString = s.
Proof. induction s as [|c s IH]; [done|]. by rewrite append_cons, IH. Qed.

Lemma append_assoc s t u : (s +:+ t) +:+ u = s +:+ t +:+ u.
Proof. induction s as [|c s IH]; [done|]. by rewrite !append_cons, IH. Qed.

Lemma length_append s t : String.length (s +:+ t) = String.length s + String.length t.
Proof. induction s as [|c s IH]; [done|]. rewrite append_cons. simpl. by rewrite IH. Qed.

Lemma nonEmpty_true s : nonEmpty s = true ↔ s ≠ EmptyString.
Proof. destruct s; cbn; split; done. Qed.

Lemma nonEmpty_false s : nonEmpty s = false ↔ s = EmptyString.
Proof. destruct s; cbn; split; done. Qed.

Lemma prefix_dropChars p s :
  String.prefix p s = true → p +:+ dropChars (String.length p) s = s.
Proof.
  revert s. induction p as [|c p IH]; intros s Hp; [by destruct s|].
  destruct s as [|c' s]; [done|]. simpl in Hp. rewrite append_cons. simpl.
  destruct (ascii_dec c c') as [->|]; [|done]. by rewrite IH.
Qed.

Lemma join_cons separator x y xs :
  join separator (x :: y :: xs) = x +:+ separator +:+ join separator (y :: xs).
Proof. done. Qed.

Lemma splitFrom_cons separator skip cur c s :
  JS.splitFrom separator skip cur (String c s) =
    match skip with
    | S k => JS.splitFrom separator k cur s
    | 0 =>
        if String.prefix separator (String c s) then
          cur :: JS.splitFrom separator (String.length separator - 1) EmptyString s
        else JS.splitFrom separator 0 (cur +:+ String c EmptyString) s
    end.
Proof. reflexivity. Qed.

Lemma splitFrom_nonempty separator skip cur s :
  ∃ x xs, JS.splitFrom separator skip cur s = x :: xs.
Proof.
  revert skip cur. induction s as [|c s IH]; intros skip cur; [by simpl; eauto|].
  rewrite splitFrom_cons. destruct skip; [|apply IH].
  destruct (String.prefix separator (String c s)); [by eauto | apply IH].
Qed.

Lemma join_splitFrom separator skip cur s :
  separator ≠ EmptyString →
  join separator (JS.splitFrom separator skip cur s) = cur +:+ dropChars skip s.
Proof.
  intros Hsep. revert skip cur. induction s as [|c s IH]; intros skip cur.
  - destruct skip; simpl; by rewrite append_nil_r.
  - rewrite splitFrom_cons. destruct skip as [|skip]; [|apply IH].
    destruct (String.prefix separator (String c s)) eqn:Hp.
    + destruct (splitFrom_nonempty separator (String.length separator - 1) EmptyString s)
        as (x & xs & Hx).
      rewrite Hx, join_cons, <- Hx, IH, append_nil_l. f_equal.
      apply prefix_dropChars in Hp.
      destruct separator as [|c' separator]; [done|].
      rewrite append_cons in Hp. simpl in Hp |- *. by rewrite Nat.sub_0_r.
    + by rewrite IH, append_assoc.
Qed.

Lemma join_chars s : join EmptyString (chars s) = s.
Proof.
  induction s as [|c s IH]; [done|]. simpl.
  destruct (chars s) as [|x xs] eqn:Hc.
  - destruct s; [done | discriminate].
  - by rewrite IH.
Qed.

(** Splitting and joining again gives the text back. *)
Lemma join_split separator s : join separator (JS.split separator s) = s.
Proof.
  unfold JS.split. destruct separator as [|c separator]; [apply join_chars|].
  by rewrite join_splitFrom.
Qed.

Lemma trimStart_whiteSpace ws s :
  Forall (λ c, isWhiteSpace c = true) (list_ascii_of_string ws) →
  trimStart (ws +:+ s) = trimStart s.
Proof.
  induction ws as [|c ws IH]; [done|].
  intros [Hc Hws]%Forall_cons. rewrite append_cons. simpl. rewrite Hc. by apply IH.
Qed.

End StringFacts.

(** ** Chunking *)

Section ChunkFacts.

Import Indexer.

Lemma weight_join separator sections :
  sections ≠ [] →
  String.length (join separator sections) + String.length separator
  = weight separator sections.
Proof.
  induction sections as [|x [|y xs] IH]; [done | simpl; lia |].
  intros _. rewrite join_cons, !length_append.
  change (weight separator (x :: y :: xs))
    with (String.length separator + String.length x + weight separator (y :: xs)).
  rewrite <- IH by done. lia.
Qed.

Lemma fold_addSection_small size separator sections chunks cur :
  String.length cur + weight separator sections ≤ size + String.length separator →
  fold_left (addSection size separator) sections (chunks, cur)
  = (chunks, accJoin separator cur sections).
Proof.
  revert cur. induction sections as [|section rest IH]; intros cur Hw; [done|].
  simpl in Hw |- *.
  replace (size <? String.length section) with false
    by (symmetry; apply Nat.ltb_ge; lia).
  replace (size <? String.length cur + String.length section) with false
    by (symmetry; apply Nat.ltb_ge; lia).
  apply IH. rewrite !length_append.
  destruct (nonEmpty cur); simpl; lia.
Qed.

Lemma accJoin_nonempty separator cur sections :
  cur ≠ EmptyString → accJoin separator cur sections = join separator (cur :: sections).
Proof.
  revert cur. induction sections as [|section rest IH]; intros cur Hcur; [done|].
  simpl accJoin. rewrite (proj2 (nonEmpty_true cur) Hcur).
  rewrite IH by (destruct cur; done).
  destruct rest as [|y rest]; [done|].
  by rewrite !join_cons, !append_assoc.
Qed.

Lemma accJoin_empty separator sections :
  ∃ k, join separator sections
       = repeatString k separator +:+ accJoin separator EmptyString sections.
Proof.
  induction sections as [|section rest [k IH]]; [by exists 0|].
  destruct (decide (section = EmptyString)) as [->|Hne].
  - simpl accJoin. destruct rest as [|y rest]; [by exists 0|].
    exists (S k). rewrite join_cons, IH. simpl. by rewrite append_assoc.
  - exists 0. simpl accJoin. rewrite append_nil_l. by rewrite accJoin_nonempty.
Qed.

Lemma trimStart_repeat_whiteSpace k separator s :
  Forall (λ c, isWhiteSpace c = true) (list_ascii_of_string separator) →
  trimStart (repeatString k separator +:+ s) = trimStart s.
Proof.
  intros Hws. induction k as [|k IH]; [done|].
  simpl. by rewrite append_assoc, trimStart_whiteSpace.
Qed.

(** The chunks of a text that fits the configured size, for a separator
    made of white space (as the default one is). *)
Lemma chunkText_fits text options :
  Forall (λ c, isWhiteSpace c = true)
    (list_ascii_of_string (default (String LF (String LF EmptyString)) (separator options))) →
  String.length text ≤ default 1000 (chunkSize options) →
  chunkText text options = if nonEmpty (trim text) then [trim text] else [].
Proof.
  intros Hws Hlen. unfold chunkText.
  set (size := default 1000 (chunkSize options)) in *.
  set (sep := default (String LF (String LF EmptyString)) (separator options)) in *.
  rewrite fold_addSection_small.
  2:{ destruct (JS.split sep text) as [|x xs] eqn:Hs; [simpl; lia|].
      rewrite <- weight_join by done. rewrite <- Hs, join_split. simpl. lia. }
  destruct (accJoin_empty sep (JS.split sep text)) as [k Hk].
  rewrite join_split in Hk.
  assert (Htrim : trim text = trim (accJoin sep EmptyString (JS.split sep text))).
  { unfold trim. rewrite Hk at 1. by rewrite trimStart_repeat_whiteSpace. }
  rewrite Htrim. simpl snd.
  destruct (accJoin sep EmptyString (JS.split sep text)) as [|c cur] eqn:Hcur; [done|].
  simpl. by destruct (trim (String c cur)).
Qed.

Lemma chunkText_empty options : chunkText EmptyString options = [].
Proof.
  unfold chunkText.
  by destruct (default (String LF (String LF EmptyString)) (separator options)).
Qed.

End ChunkFacts.

(** An input of white space only fits the size and yields no chunk at all:
    its trimmed form is empty and the final [filter] drops it. *)
Lemma chunkText_white_space_only :
  ¬ (∀ text options, oneTrimmedChunk text options).
Proof.
  intros H.
  specialize (H "   " (Indexer.mkOptions (Some 1000) None None)).
  unfold oneTrimmedChunk in H. vm_compute in H.
  assert (Hle : (3 <= 1000)%nat) by lia.
  specialize (H ltac:(discriminate) Hle). discriminate H.
Qed.

(** C8 (amended). [chunkText] of the empty string is the empty sequence.
    For a separator made of white space (the default one is), an input no
    longer than the configured size yields exactly one chunk, the trimmed
    input, when the trimmed input is not empty, and no chunk when it is.
    [chunkText "A. B. C."] with size 1000 is the single chunk ["A. B. C."]. *)
Theorem chunkText_short_input :
  (∀ options, Indexer.chunkText EmptyString options = [])
  ∧ (∀ text options,
       Forall (λ c, isWhiteSpace c = true)
         (list_ascii_of_string
            (default (String LF (String LF EmptyString)) (Indexer.separator options))) →
       String.length text ≤ default 1000 (Indexer.chunkSize options) →
       Indexer.chunkText text options
       = if nonEmpty (trim text) then [trim text] else [])
  ∧ Indexer.chunkText "A. B. C." (Indexer.mkOptions (Some 1000) None None)
    = ["A. B. C."].
Proof.
  split; [apply chunkText_empty|]. split; [apply chunkText_fits|].
  vm_compute. reflexivity.
Qed.

Lemma chunkText_short_input_witness :
  Indexer.chunkText "  hello world " (Indexer.mkOptions (Some 20) (Some 5) None)
  = ["hello world"].
Proof.
  apply (proj1 (proj2 chunkText_short_input) "  hello world "
           (Indexer.mkOptions (Some 20) (Some 5) None)).
  - repeat constructor.
  - vm_compute. lia.
Defined.

(** C9. The [chunkOverlap] option is read and never used: two option sets
    that agree on [chunkSize] and [separator] give the same chunks for every
    text, whatever their overlaps are. *)
Theorem chunkText_ignores_overlap (text : string)
    (options1 options2 : Indexer.ChunkOptions) :
  Indexer.chunkSize options1 = Indexer.chunkSize options2 →
  Indexer.separator options1 = Indexer.separator options2 →
  Indexer.chunkText text options1 = Indexer.chunkText text options2.
Proof.
  destruct options1 as [size1 overlap1 sep1], options2 as [size2 overlap2 sep2].
  simpl. intros -> ->. unfold Indexer.chunkText. simpl. reflexivity.
Qed.

Lemma chunkText_ignores_overlap_witness :
  Indexer.chunkText "One. Two. Three. Four." (Indexer.mkOptions (Some 10) (Some 0) None)
  = Indexer.chunkText "One. Two. Three. Four." (Indexer.mkOptions (Some 10) (Some 8) None).
Proof.
  apply (chunkText_ignores_overlap "One. Two. Three. Four."
           (Indexer.mkOptions (Some 10) (Some 0) None)
           (Indexer.mkOptions (Some 10) (Some 8) None)); reflexivity.
Defined.

(** ** Saving a snapshot *)

Lemma replace_unfold pattern replacement s :
  replace pattern replacement s
  = if String.prefix pattern s then
      replacement +:+ dropChars (String.length pattern) s
    else
      match s with
      | EmptyString => EmptyString
      | String c s' => String c (replace pattern replacement s')
      end.
Proof. by destruct s. Qed.

Lemma includes_unfold s search :
  includes s search
  = if String.prefix search s then true
    else
      match s with
      | EmptyString => false
      | String _ s' => includes s' search
      end.
Proof. by destruct s. Qed.

Lemma metadataPathOf_same outputPath :
  Indexer.metadataPathOf outputPath = outputPath
  ↔ includes outputPath "vectors.json" = false.
Proof.
  unfold Indexer.metadataPathOf.
  induction outputPath as [|c s IH].
  - done.
  - destruct (String.prefix "vectors.json" (String c s)) eqn:Hp.
    + rewrite (replace_unfold _ _ (String c s)), (includes_unfold (String c s)), Hp.
      split; [|done]. intros Heq.
      apply String.prefix_correct in Hp. simpl in Hp. injection Hp as -> _.
      rewrite append_cons in Heq. by injection Heq.
    + rewrite (replace_unfold _ _ (String c s)), (includes_unfold (String c s)), Hp.
      rewrite <- IH. split; [by intros [= ?] | by intros ->].
Qed.

Section SaveFacts.

Import Indexer.

Lemma saveVectorDb_success env (fs : FileSystem) vectors outputPath :
  (saveVectorDb env fs vectors outputPath).2 = Ok () →
  (saveVectorDb env fs vectors outputPath).1
  = <[metadataPathOf outputPath := Complete (MetadataJson (descriptorOf env vectors))]>
      (<[outputPath := Complete (VectorsJson vectors)]> fs).
Proof.
  unfold saveVectorDb, writeFile.
  destruct (if directoryExists env then Ok () else mkdir env) as [[]| |]; [|done|done].
  destruct (writeVectors env); [|done|done].
  destruct (writeMetadata env); done.
Qed.

(** Neither holds.  When the descriptor write fails after the collection
    write succeeded, the call fails and the collection file has been
    replaced all the same.  When the collection write fails midway, the
    target path holds a truncated file although it held a complete one
    before. *)
Lemma saveVectorDb_not_atomic :
  ¬ (∀ env fs vectors outputPath, failureKeepsSnapshot env fs vectors outputPath)
  ∧ ¬ (∀ env fs vectors outputPath, noPartialFile env fs vectors outputPath).
Proof.
  split; intros H.
  - specialize (H (mkEnvironment true (Ok ()) Written FailedBeforeOpen "t1")
                  oldSnapshot newVectors "db/vectors.json").
    unfold failureKeepsSnapshot in H. simpl in H. specialize (H ltac:(discriminate)).
    apply (f_equal (λ fs : FileSystem, fs !! "db/vectors.json")) in H.
    rewrite lookup_insert_eq in H. unfold oldSnapshot in H.
    rewrite lookup_insert_eq in H. discriminate H.
  - specialize (H (mkEnvironment true (Ok ()) (FailedAfter 10) Written "t1")
                  oldSnapshot newVectors "db/vectors.json"
                  (VectorsJson newVectors) 10).
    simpl in H. rewrite lookup_insert_eq in H. specialize (H eq_refl).
    unfold oldSnapshot in H. rewrite lookup_insert_eq in H. discriminate H.
Qed.

(** C7 (amended). [saveVectorDb] writes the collection file and then its
    descriptor in place, with no temporary file and no rename.  The path
    of the descriptor is the path of the collection with its first
    [vectors.json] replaced by [metadata.json].
    - When the directory step and both writes succeed, the call returns
      and the files are the old ones with the collection written at its
      path and then the descriptor (record count, fixed dimension 384,
      timestamp, provider identifier) written at the descriptor path.
    - The call returns only in that case.  Then the descriptor path holds
      the complete descriptor; the collection path holds the complete
      collection when it contains [vectors.json], and otherwise the two
      paths are one and the descriptor has replaced the collection.
    - The content of no file other than those two is changed.
    - When the directory step fails, or the collection write fails
      before the file is opened, no file is changed.
    - When the collection write fails midway, the truncated collection
      is what the target path holds, and the descriptor is not written.
    - When the descriptor write fails before the file is opened, the
      files are as the collection write left them; when it fails midway,
      the descriptor path then holds the truncated descriptor.
    - An error of the directory step is thrown on to the caller, and
      every failing write throws. *)
Theorem saveVectorDb_writes_in_place (env : Environment) (fs : FileSystem)
    (vectors : list VectorRecord) (outputPath : string) :
  let metadataPath := metadataPathOf outputPath in
  let saved := saveVectorDb env fs vectors outputPath in
  let collection := <[outputPath := Complete (VectorsJson vectors)]> fs in
  let descriptor := MetadataJson (descriptorOf env vectors) in
  (directoryReady env → writeVectors env = Written → writeMetadata env = Written →
     saved = (<[metadataPath := Complete descriptor]> collection, Ok ()))
  ∧ (saved.2 = Ok () →
     directoryReady env ∧ writeVectors env = Written ∧ writeMetadata env = Written)
  ∧ (∀ p, p ≠ outputPath → p ≠ metadataPath → saved.1 !! p = fs !! p)
  ∧ (¬ directoryReady env ∨ writeVectors env = FailedBeforeOpen → saved.1 = fs)
  ∧ (∀ n, directoryReady env → writeVectors env = FailedAfter n →
       saved.1 = <[outputPath := Truncated (VectorsJson vectors) n]> fs)
  ∧ (directoryReady env → writeVectors env = Written →
     writeMetadata env = FailedBeforeOpen →
       saved.1 = collection ∧ saved.2 ≠ Ok ())
  ∧ (∀ n, directoryReady env → writeVectors env = Written →
     writeMetadata env = FailedAfter n →
       saved.1 = <[metadataPath := Truncated descriptor n]> collection
       ∧ saved.2 ≠ Ok ())
  ∧ (saved.2 = Ok () →
       saved.1 !! metadataPath = Some (Complete descriptor)
       ∧ (includes outputPath "vectors.json" = true →
            metadataPath ≠ outputPath
            ∧ saved.1 !! outputPath = Some (Complete (VectorsJson vectors)))
       ∧ (includes outputPath "vectors.json" = false →
            metadataPath = outputPath
            ∧ saved.1 !! outputPath = Some (Complete descriptor)))
  ∧ (∀ e, directoryExists env = false → mkdir env = Throw e → saved = (fs, Throw e))
  ∧ (directoryReady env →
     writeVectors env ≠ Written ∨ writeMetadata env ≠ Written →
       ∃ e, saved.2 = Throw e).
Proof.
  intros metadataPath saved collection descriptor.
  assert (Hreturned : saved.2 = Ok () →
            saved.1 !! metadataPath = Some (Complete descriptor)
            ∧ (includes outputPath "vectors.json" = true →
                 metadataPath ≠ outputPath
                 ∧ saved.1 !! outputPath = Some (Complete (VectorsJson vectors)))
            ∧ (includes outputPath "vectors.json" = false →
                 metadataPath = outputPath
                 ∧ saved.1 !! outputPath = Some (Complete descriptor))).
  { intros Hok. unfold saved. rewrite (saveVectorDb_success _ _ _ _ Hok).
    fold metadataPath descriptor.
    split; [by rewrite lookup_insert_eq|]. split.
    - intros Hpath.
      assert (Hne : metadataPath ≠ outputPath).
      { intros Heq. apply metadataPathOf_same in Heq. congruence. }
      split; [done|]. rewrite lookup_insert_ne by done. by rewrite lookup_insert_eq.
    - intros Hpath. apply metadataPathOf_same in Hpath. fold metadataPath in Hpath.
      split; [done|]. rewrite Hpath. by rewrite lookup_insert_eq. }
  revert Hreturned.
  subst saved collection metadataPath descriptor.
  unfold saveVectorDb, directoryReady, descriptorOf.
  destruct env as [exists_ mk wv wm t]. simpl.
  destruct exists_, mk as [[]| |], wv, wm; simpl; intros Hreturned;
    repeat split; intros; simplify_eq/=;
    solve [ done | by left | by right | by eexists
          | by apply Hreturned
          | by rewrite ?lookup_insert_ne by done
          | intuition congruence ].
Qed.

Lemma saveVectorDb_writes_in_place_witness :
  saveVectorDb (mkEnvironment false (Ok ()) Written Written "t1")
    oldSnapshot newVectors "db/vectors.json"
  = (<["db/metadata.json" :=
        Complete (MetadataJson (mkDescriptor "t1" 1 "Xenova/all-MiniLM-L6-v2" 384))]>
       (<["db/vectors.json" := Complete (VectorsJson newVectors)]> oldSnapshot),
     Ok ()).
Proof.
  apply (saveVectorDb_writes_in_place (mkEnvironment false (Ok ()) Written Written "t1")
           oldSnapshot newVectors "db/vectors.json").
  - right. reflexivity.
  - reflexivity.
  - reflexivity.
Defined.

End SaveFacts.

(** ** Aggregation over several sources *)

Section UnifiedFacts.

Import Unified.

Context {hit : Type} (similarity : hit → R).

Implicit Type ps : list (string * result (SourceResult hit)).

Lemma settleAll_fold ps (st : Collected hit) :
  Forall (λ p, settled p.2) ps →
  settleAll ps st = Ok (foldl noted st ps, map taggedOf ps).
Proof.
  intros Hall. revert st. induction Hall as [|[name outcome] ps Hp _ IH]; intros st; [done|].
  simpl. destruct outcome as [response|error|]; [| |done]; simpl.
  - rewrite IH. done.
  - rewrite IH. done.
Qed.

Lemma noted_absent ps (st : Collected hit) name :
  name ∉ ps.*1 →
  sourceResults (foldl noted st ps) !! name = sourceResults st !! name
  ∧ errors (foldl noted st ps) !! name = errors st !! name.
Proof.
  revert st. induction ps as [|[n o] ps IH]; intros st Hn; [done|].
  apply not_elem_of_cons in Hn as [Hne Hn]. simpl in Hne.
  simpl. destruct (IH (noted st (n, o)) Hn) as [-> ->].
  unfold noted. destruct o; simpl; by rewrite ?lookup_insert_ne.
Qed.

Lemma noted_ok ps (st : Collected hit) name response :
  NoDup ps.*1 → (name, Ok response) ∈ ps →
  sourceResults (foldl noted st ps) !! name = Some response
  ∧ errors (foldl noted st ps) !! name = errors st !! name.
Proof.
  revert st. induction ps as [|[n o] ps IH]; intros st Hnd Hin;
    [by apply elem_of_nil in Hin|].
  apply NoDup_cons in Hnd as [Hn Hnd].
  apply elem_of_cons in Hin as [[= <- <-]|Hin].
  - simpl. destruct (noted_absent ps (noted st (name, Ok response)) name Hn) as [-> ->].
    unfold noted. simpl. by rewrite lookup_insert_eq.
  - simpl. destruct (IH (noted st (n, o)) Hnd Hin) as [-> ->]. split; [done|].
    assert (n ≠ name).
    { intros ->. apply Hn. apply list_elem_of_fmap. by exists (name, Ok response). }
    unfold noted. destruct o; simpl; by rewrite ?lookup_insert_ne.
Qed.

Lemma noted_throw ps (st : Collected hit) name error :
  NoDup ps.*1 → (name, Throw error) ∈ ps →
  sourceResults (foldl noted st ps) !! name = sourceResults st !! name
  ∧ errors (foldl noted st ps) !! name = Some (message error).
Proof.
  revert st. induction ps as [|[n o] ps IH]; intros st Hnd Hin;
    [by apply elem_of_nil in Hin|].
  apply NoDup_cons in Hnd as [Hn Hnd].
  apply elem_of_cons in Hin as [[= <- <-]|Hin].
  - simpl. destruct (noted_absent ps (noted st (name, Throw error)) name Hn) as [-> ->].
    unfold noted. simpl. by rewrite lookup_insert_eq.
  - simpl. destruct (IH (noted st (n, o)) Hnd Hin) as [-> ->]. split; [|done].
    assert (n ≠ name).
    { intros ->. apply Hn. apply list_elem_of_fmap. by exists (name, Throw error). }
    unfold noted. destruct o; simpl; by rewrite ?lookup_insert_ne.
Qed.

Lemma searchPromises_names (handlers : Handlers hit) query sources limit :
  NoDup (searchPromises handlers query sources limit).*1
  ∧ ∀ name, name ∈ (searchPromises handlers query sources limit).*1 →
            name ∈ ["discord"; "docs"; "knowledge"].
Proof.
  unfold searchPromises.
  destruct (bool_decide ("discord" ∈ sources)), (bool_decide ("docs" ∈ sources)),
    (bool_decide ("knowledge" ∈ sources)); simpl;
    (split; [by apply (bool_decide_unpack _)
            | intros name; rewrite ?elem_of_cons, ?elem_of_nil; tauto]).
Qed.

Lemma source_counts_lookup (f : string → nat) name :
  name ∈ ["discord"; "docs"; "knowledge"] →
  ({[ "discord" := f "discord"; "docs" := f "docs"; "knowledge" := f "knowledge" ]}
     : gmap string nat) !! name = Some (f name).
Proof.
  rewrite !elem_of_cons, elem_of_nil. intros [->|[->|[->|[]]]].
  - apply lookup_insert_eq.
  - rewrite lookup_insert_ne by done. apply lookup_insert_eq.
  - rewrite !lookup_insert_ne by done. apply lookup_singleton_eq.
Qed.

Lemma searchPromises_empty_query (handlers : Handlers hit) sources limit p :
  handlersRequireQuery handlers →
  p ∈ searchPromises handlers EmptyString sources limit →
  p.2 = Throw (Error "query is required").
Proof.
  intros Hreq. destruct (Hreq limit) as (Hd & Hc & Hk). unfold searchPromises.
  rewrite !elem_of_app. intros [Hp|[Hp|Hp]]; case_bool_decide;
    try (by apply elem_of_nil in Hp);
    apply list_elem_of_singleton in Hp as ->; done.
Qed.

Lemma taggedOf_source ps t :
  t ∈ concat (map taggedOf ps) → ∃ response, (source t, Ok response) ∈ ps.
Proof.
  induction ps as [|[n o] ps IH]; simpl; [by intros ?%elem_of_nil|].
  rewrite elem_of_app. intros [Ht|Ht].
  - unfold taggedOf in Ht. simpl in Ht. destruct o as [response| |];
      try (by apply elem_of_nil in Ht).
    apply list_elem_of_fmap in Ht as (r & -> & _). exists response. by left.
  - destruct (IH Ht) as [response ?]. exists response. by right.
Qed.

Lemma taggedOf_member ps name response r :
  (name, Ok response) ∈ ps → r ∈ results response →
  mkTagged r name ∈ concat (map taggedOf ps).
Proof.
  intros Hin Hr. induction ps as [|p ps IH]; [by apply elem_of_nil in Hin|].
  simpl. apply elem_of_app. apply elem_of_cons in Hin as [<-|Hin]; [left | right; auto].
  unfold taggedOf. simpl. by apply (list_elem_of_fmap_2 (λ r, mkTagged r name)).
Qed.

(** C6. A unified search in which one searched source raises and another
    succeeds (the adapters reject an empty query, so the query is not
    empty) returns a response instead of raising: [errors] is present and
    maps the failing source to the message of its error, and holds no entry
    for the healthy one; [source_counts] is 0 for the failing source and the
    reported total for the healthy one; the merged list is the top [limit],
    by similarity, of the results of the sources that succeeded, each tagged
    with its source, so it ranks the healthy source's results (all of them
    when the merged candidates do not exceed [limit]) and holds nothing
    from the failing source. *)
Theorem unifiedSemanticSearch_partial_failure (handlers : Handlers hit) (params : Params)
    (failing healthy : string) (error : exn) (found : SourceResult hit) :
  let query := Unified.query params in
  let sources := default ["discord"; "docs"; "knowledge"] (Unified.sources params) in
  let limit := default 20 (Unified.limit params) in
  let searched := searchPromises handlers query sources limit in
  let candidates := concat (map taggedOf searched) in
  handlersRequireQuery handlers →
  Forall (λ p, settled p.2) searched →
  (failing, Throw error) ∈ searched →
  (healthy, Ok found) ∈ searched →
  ∃ response errs,
    unifiedSemanticSearch similarity handlers params = Ok response
    ∧ response_errors response = Some errs
    ∧ errs !! failing = Some (message error)
    ∧ errs !! healthy = None
    ∧ source_counts response !! failing = Some 0
    ∧ source_counts response !! healthy = Some (total_results found)
    ∧ response_results response
      = slice0 limit (sortBy (bySimilarity similarity) candidates)
    ∧ StronglySorted
        (λ a b, (similarity (item b) <= similarity (item a))%R)
        (response_results response)
    ∧ (∀ r, r ∈ results found → mkTagged r healthy ∈ candidates)
    ∧ (length candidates ≤ limit →
       ∀ r, r ∈ results found → mkTagged r healthy ∈ response_results response)
    ∧ (∀ t, t ∈ response_results response → source t ≠ failing).
Proof.
  intros query sources limit searched candidates Hreq Hsettled Hfail Hok.
  destruct (searchPromises_names handlers query sources limit) as [Hnd Hknown].
  fold searched in Hnd, Hknown.
  assert (Hquery : nonEmpty query = true).
  { destruct query eqn:Hq; [|done].
    by apply (searchPromises_empty_query handlers sources limit _ Hreq) in Hok. }
  set (st := foldl noted (mkCollected ∅ ∅) searched).
  destruct (noted_throw searched (mkCollected ∅ ∅) failing error Hnd Hfail)
    as [Hfail_res Hfail_err].
  destruct (noted_ok searched (mkCollected ∅ ∅) healthy found Hnd Hok)
    as [Hok_res Hok_err].
  fold st in Hfail_res, Hfail_err, Hok_res, Hok_err. simpl in *.
  assert (Hsorted : StronglySorted
            (λ a b, (similarity (item b) <= similarity (item a))%R)
            (sortBy (bySimilarity similarity) candidates)).
  { apply (sortBy_desc_sorted (λ t, similarity (item t))). }
  eexists _, (errors st).
  unfold unifiedSemanticSearch. fold query sources limit searched.
  rewrite Hquery. simpl. rewrite (settleAll_fold searched _ Hsettled). simpl.
  fold st candidates.
  split; [reflexivity|]. simpl.
  split; [|split; [done|]; split; [by rewrite Hok_err|]; split; [|split; [|split; [done|]]]].
  - rewrite decide_False; [done|]. intros Hempty.
    rewrite Hempty, lookup_empty in Hfail_err. done.
  - rewrite (source_counts_lookup (countOf st)).
    + unfold countOf. by rewrite Hfail_res, lookup_empty.
    + apply Hknown. apply list_elem_of_fmap. by exists (failing, Throw error).
  - rewrite (source_counts_lookup (countOf st)).
    + unfold countOf. by rewrite Hok_res.
    + apply Hknown. apply list_elem_of_fmap. by exists (healthy, Ok found).
  - split; [|split; [|split]].
    + unfold slice0.
      rewrite <- (take_drop limit (sortBy (bySimilarity similarity) candidates)) in Hsorted.
      by apply StronglySorted_app_1_l in Hsorted.
    + intros r Hr. by apply (taggedOf_member searched healthy found).
    + intros Hlen r Hr. unfold slice0.
      rewrite take_ge by (by rewrite sortBy_length).
      rewrite (sortBy_perm (bySimilarity similarity) candidates).
      by apply (taggedOf_member searched healthy found).
    + intros t Ht Hsrc. unfold slice0 in Ht.
      apply (subseteq_take limit) in Ht.
      rewrite (sortBy_perm (bySimilarity similarity) candidates) in Ht.
      apply taggedOf_source in Ht as [response Ht]. rewrite Hsrc in Ht.
      destruct (noted_ok searched (mkCollected ∅ ∅) failing response Hnd Ht)
        as [_ Herr].
      fold st in Herr. simpl in Herr. by rewrite Hfail_err, lookup_empty in Herr.
Qed.

End UnifiedFacts.

(** ** The Discord adapter *)

Section DiscordFacts.

Import Discord.

Lemma mapM_Ok_Forall2 {A B : Type} (f : A → result B) xs ys :
  mapM f xs = Ok ys → Forall2 (λ x y, f x = Ok y) xs ys.
Proof.
  revert ys. induction xs as [|x xs IH]; intros ys; simpl.
  - intros [= <-]. constructor.
  - destruct (f x) as [y| |] eqn:Hx; simpl; [|done..].
    destruct (mapM f xs) as [ys'| |]; simpl; [|done..].
    intros [= <-]. constructor; [done | by apply IH].
Qed.

Lemma mapM_Forall2_Ok {A B : Type} (f : A → result B) xs ys :
  Forall2 (λ x y, f x = Ok y) xs ys → mapM f xs = Ok ys.
Proof. induction 1 as [|x y xs ys Hx _ IH]; simpl; [done|]. by rewrite Hx, IH. Qed.

Lemma filterLoop_spec params limit acc rs :
  length acc < limit →
  filterLoop params limit acc rs
  = take limit
      (acc ++ map toHit (List.filter (λ r, passesFilters params (metadata (doc r))) rs)).
Proof.
  revert acc. induction rs as [|r rs IH]; intros acc Hacc; simpl.
  - rewrite app_nil_r, take_ge; [done | lia].
  - destruct (passesFilters params (metadata (doc r))); [|by apply IH].
    simpl.
    set (rest := map toHit (List.filter _ rs)) in *.
    replace (acc ++ toHit r :: rest) with ((acc ++ [toHit r]) ++ rest)
      by (by rewrite <- app_assoc).
    destruct (limit <=? length (acc ++ [toHit r])) eqn:Hfull.
    + apply Nat.leb_le in Hfull. rewrite length_app in Hfull. simpl in Hfull.
      rewrite take_app_length'; [done|]. rewrite length_app. simpl. lia.
    + apply Nat.leb_gt in Hfull. by apply IH.
Qed.

Lemma filterLoop_ranking params limit ranking :
  filterLoop params limit [] (take (limit * 2) ranking)
  = take limit (hitsOf params (limit * 2) ranking).
Proof.
  destruct limit as [|limit]; [done|].
  rewrite filterLoop_spec by (simpl; lia). done.
Qed.

(** What a semantic search returns, and when. *)
Lemma discordSemanticSearch_Ok env params response :
  discordSemanticSearch env params = Ok response ↔
  ∃ docs q scored,
    nonEmpty (Params.query params) = true
    ∧ vectors env = Ok docs
    ∧ generateEmbedding env (Params.query params) = Ok q
    ∧ mapM (score q) docs = Ok scored
    ∧ response =
        let limit := default 20 (Params.limit params) in
        let found := take limit (hitsOf params (limit * 2) (sortBy bySimilarity scored)) in
        {| query := Params.query params;
           total_results := length found;
           results := found;
           search_type := "semantic";
           weights := None;
           filters := echoFilters params |}.
Proof.
  unfold discordSemanticSearch.
  destruct (nonEmpty (Params.query params)); simpl.
  2:{ split; [done|]. by intros (? & ? & ? & ? & _). }
  destruct (vectors env) as [docs| |]; simpl.
  2,3: split; [done|]; by intros (? & ? & ? & _ & ? & _).
  destruct (generateEmbedding env (Params.query params)) as [q| |]; simpl.
  2,3: split; [done|]; by intros (? & ? & ? & _ & _ & ? & _).
  unfold vectorSearch. destruct (mapM (score q) docs) as [scored| |] eqn:Hm; simpl.
  2,3: split; [done|]; intros (? & ? & ? & _ & [= <-] & [= <-] & ? & _); congruence.
  unfold slice0. rewrite filterLoop_ranking. split.
  - intros [= <-]. by exists docs, q, scored.
  - intros (? & ? & ? & _ & [= <-] & [= <-] & Hm' & ->).
    rewrite Hm in Hm'. by injection Hm' as <-.
Qed.

Lemma rescore_Ok keywords w h hh :
  rescore keywords w h = Ok hh →
  hit hh = h
  ∧ hybrid_score hh = (Hit.similarity h * w + keyword_score hh * (1 - w))%R
  ∧ ∃ text total,
      Hit.text h = Some text
      ∧ countKeywordMatches (toLowerCase text) 0 keywords = Ok total
      ∧ keyword_score hh = Rmin (INR total / INR (length keywords) / 5) 1.
Proof.
  unfold rescore. destruct (Hit.text h) as [text|]; [|done].
  destruct (countKeywordMatches (toLowerCase text) 0 keywords) as [total| |] eqn:Hc;
    simpl; [|done..].
  intros [= <-]. simpl. split; [done|]. split; [done|]. by exists text, total.
Qed.

(** What a hybrid search returns, and when. *)
Lemma discordHybridSearch_Ok env params response :
  discordHybridSearch env params = Ok response ↔
  let limit := default 20 (Params.limit params) in
  let semantic_weight := default 0.7%R (Params.semantic_weight params) in
  let keywords := RegExp.split RegExp.whiteSpaceRun (toLowerCase (Params.query params)) in
  ∃ semanticResults hybridResults,
    nonEmpty (Params.query params) = true
    ∧ discordSemanticSearch env (withLimit params (limit * 2)) = Ok semanticResults
    ∧ mapM (rescore keywords semantic_weight) (results semanticResults) = Ok hybridResults
    ∧ response =
        {| query := Params.query params;
           total_results := length (sortBy byHybridScore hybridResults) `min` limit;
           results := take limit (sortBy byHybridScore hybridResults);
           search_type := "hybrid";
           weights := Some (semantic_weight, (1 - semantic_weight)%R);
           filters := echoFilters params |}.
Proof.
  unfold discordHybridSearch.
  destruct (nonEmpty (Params.query params)); simpl.
  2:{ split; [done|]. by intros (? & ? & ? & _). }
  destruct (discordSemanticSearch env _) as [sr| |]; simpl.
  2,3: split; [done|]; by intros (? & ? & _ & ? & _).
  destruct (mapM _ (results sr)) as [hs| |] eqn:Hm; simpl.
  2,3: split; [done|]; intros (? & ? & _ & [= <-] & ? & _); congruence.
  split.
  - intros [= <-]. by exists sr, hs.
  - intros (? & ? & _ & [= <-] & Hm' & ->). rewrite Hm in Hm'. by injection Hm' as <-.
Qed.

Lemma StronglySorted_filter {A : Type} (rel : relation A) (f : A → bool) l :
  StronglySorted rel l → StronglySorted rel (List.filter f l).
Proof.
  induction 1 as [|x l Hl IH Hx]; simpl; [constructor|].
  destruct (f x); [|done]. constructor; [done|].
  rewrite Forall_forall in Hx |- *. intros y Hy. apply Hx.
  apply list_elem_of_In in Hy. apply filter_In in Hy as [Hy _].
  by apply list_elem_of_In.
Qed.

Lemma StronglySorted_take {A : Type} (rel : relation A) n l :
  StronglySorted rel l → StronglySorted rel (take n l).
Proof.
  intros Hl. rewrite <- (take_drop n l) in Hl. by apply StronglySorted_app_1_l in Hl.
Qed.

Lemma hitsOf_sorted params k scored :
  StronglySorted (λ a b, (Hit.similarity b <= Hit.similarity a)%R)
    (hitsOf params k (sortBy bySimilarity scored)).
Proof.
  unfold hitsOf.
  apply (StronglySorted_fmap toHit (λ a b, (similarity b <= similarity a)%R)); [done|].
  apply StronglySorted_filter, StronglySorted_take.
  apply (sortBy_desc_sorted similarity).
Qed.

Lemma prefix_filter {A : Type} (f : A → bool) l1 l2 :
  l1 `prefix_of` l2 → List.filter f l1 `prefix_of` List.filter f l2.
Proof. intros [k ->]. rewrite List.filter_app. by eexists. Qed.

Lemma prefix_map {A B : Type} (f : A → B) l1 l2 :
  l1 `prefix_of` l2 → map f l1 `prefix_of` map f l2.
Proof. intros [k ->]. rewrite map_app. by eexists. Qed.

Lemma prefix_take_both {A : Type} n (l1 l2 : list A) :
  l1 `prefix_of` l2 → take n l1 `prefix_of` take n l2.
Proof. intros [k ->]. rewrite take_app. by eexists. Qed.

Lemma hitsOf_prefix params k1 k2 ranking :
  k1 ≤ k2 → hitsOf params k1 ranking `prefix_of` hitsOf params k2 ranking.
Proof.
  intros Hk. unfold hitsOf. apply prefix_map, prefix_filter.
  replace (take k1 ranking) with (take k1 (take k2 ranking))
    by (rewrite take_take; f_equal; lia).
  apply prefix_take.
Qed.

Lemma hitsOf_noFilters params k ranking :
  noFilters params → hitsOf params k ranking = map toHit (take k ranking).
Proof.
  intros (Hs & Hc & Ha & Hsd & Hed). unfold hitsOf. f_equal.
  induction (take k ranking) as [|r rs IH]; simpl; [done|].
  unfold passesFilters at 1. rewrite Hs, Hc, Ha, Hsd, Hed. simpl. by rewrite IH.
Qed.

(** With weight 1 every blended score is the similarity, and re-sorting by
    it changes nothing. *)
Lemma rescore_weight_one keywords hits hs :
  mapM (rescore keywords 1%R) hits = Ok hs →
  StronglySorted (λ a b, (Hit.similarity b <= Hit.similarity a)%R) hits →
  map hit hs = hits
  ∧ Forall (λ h, hybrid_score h = Hit.similarity (hit h)) hs
  ∧ sortBy byHybridScore hs = hs.
Proof.
  intros Hm%mapM_Ok_Forall2 Hsorted.
  assert (Hhit : map hit hs = hits).
  { clear Hsorted. induction Hm as [|h hh hits hs Hh%rescore_Ok _ IH]; simpl; [done|].
    destruct Hh as [-> _]. f_equal. apply IH. }
  assert (Hscore : Forall (λ h, hybrid_score h = Hit.similarity (hit h)) hs).
  { clear Hhit Hsorted. induction Hm as [|h hh hits hs Hh%rescore_Ok _ IH]; [done|].
    constructor; [|done]. destruct Hh as (-> & -> & _). lra. }
  split; [done|]. split; [done|].
  apply (sortBy_desc_sorted_id hybrid_score).
  apply StronglySorted_Sorted. rewrite <- Hhit in Hsorted. clear Hhit Hm.
  induction hs as [|h hs IH]; [constructor|]. simpl in Hsorted.
  apply StronglySorted_inv in Hsorted as [Hs Hh].
  apply Forall_cons in Hscore as [Hh1 Hscore].
  constructor; [by apply IH|].
  apply Forall_forall. intros x Hx. unfold descending.
  rewrite Forall_forall in Hscore. rewrite Hh1, (Hscore x Hx).
  rewrite Forall_forall in Hh. apply Hh. by apply (list_elem_of_fmap_2 hit).
Qed.

(** A hybrid search returns whenever the semantic search it starts with
    returns, every candidate has a text, and every keyword is a pattern of
    the fragment. *)
Lemma countKeywordMatches_total text score keywords :
  Forall compiles keywords → ∃ total, countKeywordMatches text score keywords = Ok total.
Proof.
  intros Hall. revert score. induction Hall as [|kw kws [p Hp] _ IH]; intros score; simpl.
  - by eexists.
  - unfold RegExp.countMatches. rewrite Hp. simpl. apply IH.
Qed.

Lemma mapM_rescore_total keywords w hits :
  Forall compiles keywords → Forall hasText hits →
  ∃ hs, mapM (rescore keywords w) hits = Ok hs ∧ length hs = length hits.
Proof.
  intros Hkw. induction 1 as [|h hits [text Hh] _ (hs & IH & Hlen)]; simpl.
  - by exists [].
  - unfold rescore at 1. rewrite Hh.
    destruct (countKeywordMatches_total (toLowerCase text) 0 keywords Hkw) as [total ->].
    simpl. rewrite IH. simpl. eexists. split; [done|]. simpl. by rewrite Hlen.
Qed.

Lemma discordHybridSearch_total env params semanticResults :
  let limit := default 20 (Params.limit params) in
  discordSemanticSearch env (withLimit params (limit * 2)) = Ok semanticResults →
  Forall compiles (RegExp.split RegExp.whiteSpaceRun (toLowerCase (Params.query params))) →
  Forall hasText (results semanticResults) →
  ∃ hybrid,
    discordHybridSearch env params = Ok hybrid
    ∧ length (results hybrid) = limit `min` length (results semanticResults).
Proof.
  intros limit Hsr Hkw Htext.
  destruct (mapM_rescore_total _ (default 0.7%R (Params.semantic_weight params)) _ Hkw Htext)
    as (hs & Hhs & Hlen).
  eexists. split.
  - apply discordHybridSearch_Ok. exists semanticResults, hs.
    split; [|split; [exact Hsr|split; [exact Hhs|reflexivity]]].
    apply discordSemanticSearch_Ok in Hsr as (? & ? & ? & Hq & _). exact Hq.
  - simpl. fold limit. by rewrite length_take, sortBy_length, Hlen.
Qed.

(** C5 (amended). With [semantic_weight = 1.0] a hybrid search that
    returns ranks by similarity alone: every blended score equals the
    similarity and the results are in non-increasing order of similarity,
    as those of the semantic search are.  The semantic search with the same
    query, filters and limit returns too, and its results are a prefix of
    the hybrid ones (the hybrid search filters twice as many candidates, so
    it may return more); the two sequences are the same when the semantic
    search fills its limit and when no filter is set. *)
Theorem hybrid_weight_one_extends_semantic (env : Env) (params : Params.t)
    (hybrid : Response HybridHit) :
  Params.semantic_weight params = Some 1%R →
  discordHybridSearch env params = Ok hybrid →
  ∃ semantic,
    discordSemanticSearch env params = Ok semantic
    ∧ Forall (λ h, hybrid_score h = Hit.similarity (hit h)) (results hybrid)
    ∧ StronglySorted (λ a b, (Hit.similarity b <= Hit.similarity a)%R)
        (map hit (results hybrid))
    ∧ results semantic `prefix_of` map hit (results hybrid)
    ∧ (length (results semantic) = default 20 (Params.limit params) →
       map hit (results hybrid) = results semantic)
    ∧ (noFilters params → map hit (results hybrid) = results semantic).
Proof.
  intros Hw Hhybrid.
  apply discordHybridSearch_Ok in Hhybrid as (sr & hs & Hq & Hsr & Hhs & ->).
  rewrite Hw in Hhs. simpl in Hhs.
  apply discordSemanticSearch_Ok in Hsr as (docs & q & scored & _ & Hdocs & Hemb & Hsc & ->).
  simpl in Hhs |- *.
  set (limit := default 20 (Params.limit params)) in *.
  set (ranking := sortBy bySimilarity scored) in *.
  change (hitsOf (withLimit params (limit * 2)) (limit * 2 * 2) ranking)
    with (hitsOf params (limit * 2 * 2) ranking) in Hhs.
  apply rescore_weight_one in Hhs as (Hhit & Hscore & ->);
    [|apply StronglySorted_take, hitsOf_sorted].
  eexists. split.
  { apply discordSemanticSearch_Ok. by exists docs, q, scored. }
  simpl. fold limit ranking.
  assert (Hmap : map hit (take limit hs)
                 = take limit (hitsOf params (limit * 2 * 2) ranking)).
  { change (map hit (take limit hs)) with (hit <$> take limit hs).
    rewrite fmap_take. change (hit <$> hs) with (map hit hs).
    rewrite Hhit, take_take. f_equal. lia. }
  rewrite Hmap.
  destruct (hitsOf_prefix params (limit * 2) (limit * 2 * 2) ranking ltac:(lia))
    as [more Hmore].
  split; [|split; [|split; [|split]]].
  - rewrite Forall_forall in Hscore |- *. intros h Hh. apply Hscore.
    by apply (subseteq_take limit).
  - apply StronglySorted_take, hitsOf_sorted.
  - apply prefix_take_both. by exists more.
  - intros Hfull. rewrite Hmore. rewrite take_app_le; [done|].
    rewrite length_take in Hfull. lia.
  - intros Hnone. rewrite !hitsOf_noFilters by done.
    change (map toHit ?l) with (toHit <$> l). rewrite <- !fmap_take, !take_take.
    do 2 f_equal. lia.
Qed.

End DiscordFacts.

(** ** A small collection *)

Lemma cosineSimilarity_sample : cosineSimilarity [1; 0]%R [1; 0]%R = Ok 1%R.
Proof.
  rewrite cosineSimilarity_equal_length by done.
  assert (Hm : magnitude [1; 0]%R = 1%R).
  { unfold magnitude. simpl. replace (1 * 1 + (0 * 0 + 0))%R with 1%R by lra.
    apply sqrt_1. }
  rewrite Hm. rewrite decide_False by (intros [?|?]; lra).
  f_equal. simpl. field.
Qed.

Lemma sampleDocs_scored : mapM (score [1; 0]%R) sampleDocs = Ok sampleScored.
Proof.
  apply (mapM_Forall2_Ok (score [1; 0]%R)).
  repeat constructor; unfold score; simpl; by rewrite cosineSimilarity_sample.
Qed.

Lemma sampleScored_ranking : sortBy bySimilarity sampleScored = sampleScored.
Proof.
  apply (sortBy_desc_sorted_id similarity).
  repeat constructor; unfold descending; simpl; lra.
Qed.

Lemma semantic_sampleEnv params :
  nonEmpty (Discord.Params.query params) = true →
  ∃ response,
    Discord.discordSemanticSearch sampleEnv params = Ok response
    ∧ Discord.results response
      = let limit := default 20 (Discord.Params.limit params) in
        take limit (hitsOf params (limit * 2) sampleScored).
Proof.
  intros Hq. eexists. split.
  - apply discordSemanticSearch_Ok. exists sampleDocs, [1; 0]%R, sampleScored.
    split; [exact Hq|]. split; [done|]. split; [done|].
    split; [apply sampleDocs_scored | reflexivity].
  - cbn [Discord.results]. by rewrite sampleScored_ranking.
Qed.

Lemma semantic_byBob :
  ∃ semantic,
    Discord.discordSemanticSearch sampleEnv (byBob 1 "release") = Ok semantic
    ∧ Discord.results semantic = [].
Proof.
  destruct (semantic_sampleEnv (byBob 1 "release") eq_refl) as (semantic & Hs & Hr).
  exists semantic. split; [done|]. rewrite Hr. vm_compute. reflexivity.
Qed.

Lemma hybrid_byBob :
  ∃ hybrid,
    Discord.discordHybridSearch sampleEnv (byBob 1 "release") = Ok hybrid
    ∧ length (Discord.results hybrid) = 1.
Proof.
  destruct (semantic_sampleEnv (Discord.withLimit (byBob 1 "release") 2) eq_refl)
    as (candidates & Hc & Hr).
  destruct (discordHybridSearch_total sampleEnv (byBob 1 "release") candidates Hc)
    as (hybrid & Hh & Hlen).
  - repeat constructor. eexists. reflexivity.
  - rewrite Hr. vm_compute. repeat constructor. eexists. reflexivity.
  - exists hybrid. split; [done|]. rewrite Hlen, Hr. vm_compute. reflexivity.
Qed.

(** With an author filter and limit 1 the semantic search looks at the two
    best records, finds none by that author and returns nothing; the hybrid
    search looks at the four best, finds the third record and returns it. *)
Lemma hybrid_weight_one_returns_more :
  ¬ (∀ env params, sameResults env params).
Proof.
  intros H.
  destruct semantic_byBob as (semantic & Hs & Hsr).
  destruct hybrid_byBob as (hybrid & Hh & Hlen).
  specialize (H sampleEnv (byBob 1 "release") hybrid semantic eq_refl Hh Hs).
  rewrite Hsr in H. apply (f_equal length) in H.
  rewrite length_map, Hlen in H. discriminate H.
Qed.

Lemma hybrid_weight_one_extends_semantic_witness :
  ∃ hybrid semantic,
    Discord.discordHybridSearch sampleEnv (byBob 1 "release") = Ok hybrid
    ∧ Discord.discordSemanticSearch sampleEnv (byBob 1 "release") = Ok semantic
    ∧ Discord.results semantic `prefix_of` map Discord.hit (Discord.results hybrid).
Proof.
  destruct hybrid_byBob as (hybrid & Hh & _).
  destruct (hybrid_weight_one_extends_semantic sampleEnv (byBob 1 "release") hybrid
              eq_refl Hh) as (semantic & Hs & _ & _ & Hp & _).
  by exists hybrid, semantic.
Defined.

(** ** The handlers of the three adapters *)

Lemma searchTools_require_query sources :
  handlersRequireQuery (Unified.searchTools sources).
Proof. intros limit. repeat split; reflexivity. Qed.

Lemma vectorSearch_total q docs n :
  Forall (λ d, length q = length (embedding d)) docs →
  ∃ found, vectorSearch q docs n = Ok found.
Proof.
  intros Hall. unfold vectorSearch.
  destruct (mapM_score_cases q docs) as [(_ & res & -> & _) | [Hex _]].
  - by eexists.
  - apply Exists_exists in Hex as (d & Hd & Hne).
    rewrite Forall_forall in Hall. by destruct (Hne (Hall d Hd)).
Qed.

Lemma docs_filterLoop_unfiltered query limit n acc rs :
  ∃ out, Docs.filterLoop (Docs.Params.mk query None None None limit) n acc rs = Ok out.
Proof.
  revert acc. induction rs as [|r rs IH]; intros acc; simpl; [by eexists|].
  destruct (n <=? length (acc ++ [Docs.toHit r])); [by eexists | apply IH].
Qed.

Lemma knowledge_filterLoop_unfiltered query limit n acc rs :
  ∃ out,
    Knowledge.filterLoop (Knowledge.Params.mk query None None limit) n acc rs = Ok out.
Proof.
  revert acc. induction rs as [|r rs IH]; intros acc; simpl; [by eexists|].
  destruct (n <=? length (acc ++ [Knowledge.toHit r])); [by eexists | apply IH].
Qed.

(** With its snapshot loaded and the query embedded in the dimension of
    the collection, the docs handler answers. *)
Lemma docs_handler_answers env query limit pages q :
  nonEmpty query = true →
  Docs.vectors env = Ok pages →
  Docs.generateEmbedding env query = Ok q →
  Forall (λ d, length q = length (embedding d)) pages →
  ∃ found, Unified.docs_handler env query limit = Ok found.
Proof.
  intros Hq Hv He Hall.
  unfold Unified.docs_handler, Docs.docsSemanticSearch. simpl.
  rewrite Hq, Hv. simpl. rewrite He. simpl.
  destruct (vectorSearch_total q pages (limit * 2) Hall) as [found ->]. simpl.
  destruct (docs_filterLoop_unfiltered query (Some limit) limit [] found) as [out ->].
  by eexists.
Qed.

Lemma knowledge_handler_answers env query limit pages q :
  nonEmpty query = true →
  Knowledge.vectors env = Ok pages →
  Knowledge.generateEmbedding env query = Ok q →
  Forall (λ d, length q = length (embedding d)) pages →
  ∃ found, Unified.knowledge_handler env query limit = Ok found.
Proof.
  intros Hq Hv He Hall.
  unfold Unified.knowledge_handler, Knowledge.knowledgeSemanticSearch. simpl.
  rewrite Hq, Hv. simpl. rewrite He. simpl.
  destruct (vectorSearch_total q pages (limit * 2) Hall) as [found ->]. simpl.
  destruct (knowledge_filterLoop_unfiltered query (Some limit) limit [] found)
    as [out ->].
  by eexists.
Qed.

(** ** A unified search with a missing snapshot *)

Lemma sampleHandlers_healthy query limit :
  nonEmpty query = true →
  ∃ found, Unified.docs_handler sampleDocsEnv query limit = Ok found.
Proof.
  intros Hq.
  apply (docs_handler_answers _ query limit samplePages [1; 0]%R); try done.
  by repeat constructor.
Qed.

Lemma unifiedSemanticSearch_partial_failure_witness :
  ∃ response errs,
    Unified.unifiedSemanticSearch Unified.similarityOf sampleHandlers
      (Unified.mkParams "release" (Some ["discord"; "docs"]) (Some 5)) = Ok response
    ∧ Unified.response_errors response = Some errs
    ∧ errs !! "discord"
      = Some "Discord vector database not initialized. Run: npm run index-discord"
    ∧ errs !! "docs" = None
    ∧ Unified.source_counts response !! "discord" = Some 0.
Proof.
  destruct (sampleHandlers_healthy "release" 5 eq_refl) as [found Hfound].
  destruct (unifiedSemanticSearch_partial_failure Unified.similarityOf sampleHandlers
              (Unified.mkParams "release" (Some ["discord"; "docs"]) (Some 5))
              "discord" "docs"
              (Error "Discord vector database not initialized. Run: npm run index-discord")
              found)
    as (response & errs & Hr & He & Hfail & Hok & Hcount & _).
  - apply searchTools_require_query.
  - unfold Unified.searchPromises. simpl.
    constructor; [done|]. constructor; [|constructor].
    unfold settled. simpl. by rewrite Hfound.
  - unfold Unified.searchPromises. simpl. by left.
  - unfold Unified.searchPromises. simpl. rewrite Hfound. right. by left.
  - by exists response, errs.
Defined.

(** ** Keyword scores *)

Lemma parse_plain keyword done last :
  plain keyword →
  RegExp.parse done last keyword
  = RegExp.Compiled (RegExp.flush last done ++ literal keyword).
Proof.
  revert done last. induction keyword as [|c keyword IH]; intros done last Hplain.
  - simpl. by rewrite app_nil_r.
  - apply Forall_cons in Hplain as [Hc Hplain]. unfold plainChar in Hc.
    apply negb_true_iff in Hc. rewrite existsb_app in Hc.
    apply orb_false_iff in Hc as [Hother Hquant].
    simpl in Hquant.
    apply orb_false_iff in Hquant as [Hstar Hquant].
    apply orb_false_iff in Hquant as [Hplus Hquant].
    apply orb_false_iff in Hquant as [Hopt Hquant].
    apply orb_false_iff in Hquant as [Hdot _].
    change (list_ascii_of_string (String c keyword))
      with (c :: list_ascii_of_string keyword) in *.
    cbn [RegExp.parse existsb]. rewrite Hother, Hstar, Hplus, Hopt, Hdot. simpl orb.
    cbv iota. rewrite IH by done.
    unfold literal. cbn [list_ascii_of_string map RegExp.flush].
    by rewrite <- app_assoc.
Qed.

Lemma compile_plain keyword :
  plain keyword → RegExp.compile keyword = RegExp.Compiled (literal keyword).
Proof. intros Hplain. unfold RegExp.compile. by rewrite parse_plain. Qed.

Lemma matchAt_literal keyword s :
  RegExp.matchAt (literal keyword) s
  = if String.prefix keyword s then Some (String.length keyword) else None.
Proof.
  revert s. induction keyword as [|c keyword IH]; intros s; [by destruct s|].
  destruct s as [|c' s]; [done|]. simpl.
  rewrite Ascii.eqb_sym. destruct (ascii_dec c c') as [->|Hne].
  - rewrite Ascii.eqb_refl. unfold literal in IH. rewrite IH.
    by destruct (String.prefix keyword s).
  - by apply Ascii.eqb_neq in Hne as ->.
Qed.

Lemma matchAll_literal keyword skip text :
  length (RegExp.matchAllFrom (literal keyword) skip text)
  = occurrencesFrom keyword skip text.
Proof.
  revert skip. induction text as [|c text IH]; intros skip.
  - destruct skip; [|done]. cbn [RegExp.matchAllFrom occurrencesFrom].
    rewrite matchAt_literal. by destruct (String.prefix keyword EmptyString).
  - destruct skip as [|skip]; cbn [RegExp.matchAllFrom occurrencesFrom]; [|apply IH].
    rewrite matchAt_literal. destruct (String.prefix keyword (String c text)).
    + simpl. by rewrite IH, Nat.sub_1_r.
    + apply IH.
Qed.

(** On a plain keyword the pattern match count is the occurrence count. *)
Lemma countMatches_plain keyword text :
  plain keyword → RegExp.countMatches keyword text = Ok (occurrences keyword text).
Proof.
  intros Hplain. unfold RegExp.countMatches, RegExp.matchAll, occurrences.
  by rewrite compile_plain, matchAll_literal.
Qed.

Lemma countKeywordMatches_plain text score keywords :
  Forall plain keywords →
  Discord.countKeywordMatches text score keywords
  = Ok (score + sum_list (map (λ keyword, occurrences keyword text) keywords)).
Proof.
  intros Hall. revert score. induction Hall as [|kw kws Hkw _ IH]; intros score; simpl.
  - by rewrite Nat.add_0_r.
  - rewrite countMatches_plain by done. simpl. rewrite IH. f_equal. lia.
Qed.

(** For keywords without pattern syntax the code computes the keyword score
    and the blended score of the specification. *)
Lemma rescore_plain keywords w h text :
  Forall plain keywords → Discord.Hit.text h = Some text →
  Discord.rescore keywords w h
  = Ok {| Discord.hit := h;
          Discord.keyword_score := specKeywordScore keywords text;
          Discord.hybrid_score :=
            (Discord.Hit.similarity h * w + specKeywordScore keywords text * (1 - w))%R |}.
Proof.
  intros Hplain Htext. unfold Discord.rescore. rewrite Htext.
  by rewrite countKeywordMatches_plain.
Qed.

(** When no keyword of the query has pattern syntax, a hybrid search that
    returns has rescored the candidates of the semantic search at twice the
    limit as the specification says, sorted them by blended score in
    descending order, and cut the list at the limit. *)
Lemma discordHybridSearch_plain env params hybrid :
  let limit := default 20 (Discord.Params.limit params) in
  let w := default 0.7%R (Discord.Params.semantic_weight params) in
  let keywords :=
    RegExp.split RegExp.whiteSpaceRun (toLowerCase (Discord.Params.query params)) in
  Forall plain keywords →
  Discord.discordHybridSearch env params = Ok hybrid →
  ∃ candidates rescored,
    Discord.discordSemanticSearch env (Discord.withLimit params (limit * 2)) = Ok candidates
    ∧ Forall2 (rescoredAs keywords w) (Discord.results candidates) rescored
    ∧ Discord.results hybrid = take limit (sortBy Discord.byHybridScore rescored)
    ∧ sortBy Discord.byHybridScore rescored ≡ₚ rescored
    ∧ StronglySorted (λ a b, (Discord.hybrid_score b <= Discord.hybrid_score a)%R)
        (Discord.results hybrid).
Proof.
  intros limit w keywords Hplain Hh.
  apply discordHybridSearch_Ok in Hh as (candidates & rescored & _ & Hc & Hm & ->).
  fold limit w keywords in Hc, Hm |- *.
  exists candidates, rescored. split; [done|]. split; [|split; [done|split]].
  - apply mapM_Ok_Forall2 in Hm.
    eapply Forall2_impl; [exact Hm|]. intros c h Hr. simpl in Hr.
    pose proof (rescore_Ok _ _ _ _ Hr) as (Hhit & Hscore & text & total & Htext & Hcount & Hk).
    split; [done|]. exists text. split; [done|]. split; [|by rewrite Hscore].
    rewrite countKeywordMatches_plain in Hcount by done.
    injection Hcount as <-. by rewrite Hk.
  - apply sortBy_perm.
  - simpl. apply StronglySorted_take.
    apply (sortBy_desc_sorted Discord.hybrid_score).
Qed.

Lemma Rmin_fifth : Rmin (INR 1 / INR 1 / 5) 1 = (1 / 5)%R.
Proof. simpl. unfold Rmin. destruct (Rle_dec _ _); lra. Qed.

Lemma Rmin_zero : Rmin (INR 0 / INR 1 / 5) 1 = 0%R.
Proof. simpl. unfold Rmin. destruct (Rle_dec _ _); lra. Qed.

(** C4. The keyword of the query is handed to [new RegExp] as it is, so a
    keyword with pattern syntax is not counted by occurrence.  The query
    "Why?" gives the keyword "why?", which does not occur in "what is this
    thing": the keyword score of the specification is 0.  The code reads it
    as the pattern [/why?/g], which matches "wh", and gives the candidate
    the keyword score 1/5 for every weight.  The query "c++" is not a valid
    pattern: the semantic search returns a result, the hybrid search raises
    a syntax error. *)
Theorem hybrid_keyword_read_as_pattern :
  RegExp.split RegExp.whiteSpaceRun (toLowerCase "Why?") = ["why?"]
  ∧ specKeywordScore ["why?"] "What is this thing" = 0%R
  ∧ (∀ w, ∃ h, Discord.rescore ["why?"] w (Discord.toHit question) = Ok h
             ∧ Discord.keyword_score h = (1 / 5)%R)
  ∧ (∃ semantic,
       Discord.discordSemanticSearch sampleEnv (about "c++") = Ok semantic
       ∧ length (Discord.results semantic) = 1)
  ∧ Discord.discordHybridSearch sampleEnv (about "c++")
    = Throw (SyntaxError "Invalid regular expression: Nothing to repeat").
Proof.
  split; [by vm_compute|]. split; [|split; [|split]].
  - unfold specKeywordScore.
    assert (sum_list (map (λ keyword, occurrences keyword (toLowerCase "What is this thing"))
                        ["why?"]) = 0) as -> by (by vm_compute).
    apply Rmin_zero.
  - intros w. unfold Discord.rescore.
    change (Discord.Hit.text (Discord.toHit question)) with (Some "What is this thing").
    cbv beta iota zeta.
    assert (Discord.countKeywordMatches (toLowerCase "What is this thing") 0 ["why?"]
            = Ok 1) as -> by (by vm_compute).
    eexists. split; [reflexivity|]. apply Rmin_fifth.
  - destruct (semantic_sampleEnv (about "c++") eq_refl) as (semantic & Hs & Hr).
    exists semantic. split; [done|]. rewrite Hr. by vm_compute.
  - destruct (semantic_sampleEnv (Discord.withLimit (about "c++") 2) eq_refl)
      as (candidates & Hc & Hr).
    unfold Discord.discordHybridSearch.
    change (default 20 (Discord.Params.limit (about "c++")) * 2) with 2.
    change (negb (nonEmpty (Discord.Params.query (about "c++")))) with false.
    cbv iota. rewrite Hc. cbn [mbind result_bind JS.bind].
    assert (Hfirst : ∃ rest, Discord.results candidates = Discord.toHit question :: rest)
      by (rewrite Hr; by eexists).
    destruct Hfirst as [rest ->]. cbn [mapM JS.bind].
    assert (Discord.rescore
              (RegExp.split RegExp.whiteSpaceRun
                 (toLowerCase (Discord.Params.query (about "c++"))))
              (default 0.7%R (Discord.Params.semantic_weight (about "c++")))
              (Discord.toHit question)
            = Throw (SyntaxError "Invalid regular expression: Nothing to repeat")) as ->.
    { unfold Discord.rescore.
      change (Discord.Hit.text (Discord.toHit question)) with (Some "What is this thing").
      cbv beta iota zeta.
      assert (Discord.countKeywordMatches (toLowerCase "What is this thing") 0
                (RegExp.split RegExp.whiteSpaceRun
                   (toLowerCase (Discord.Params.query (about "c++"))))
              = Throw (SyntaxError "Invalid regular expression: Nothing to repeat"))
        as -> by (by vm_compute).
      done. }
    done.
Qed.

(** * Further properties of the retrieval code *)

(** ** Metadata filters *)

Lemma matchesFilters_spec (metadata : gmap string string) entries :
  matchesFilters metadata entries = true
  ↔ ∀ key value, (key, Some value) ∈ entries → metadata !! key = Some value.
Proof.
  induction entries as [|[key [value|]] entries IH]; simpl.
  - split; [|done]. intros _ key value Hin. by apply elem_of_nil in Hin.
  - case_bool_decide as Hne.
    + split; [done|]. intros H. destruct Hne. apply H. by left.
    + rewrite IH. split.
      * intros H k v Hin. apply elem_of_cons in Hin as [[= -> ->]|Hin]; auto.
      * intros H k v Hin. apply H. by right.
  - rewrite IH. split.
    + intros H k v Hin. apply elem_of_cons in Hin as [[=]|Hin]. auto.
    + intros H k v Hin. apply H. by right.
Qed.

(** X1. [filterResults] keeps, in their order, exactly the results whose
    metadata holds the given value under every key whose filter value is
    not [null]: a result that lacks a filtered key is dropped, entries
    with a [null] value are ignored, and filtering twice is filtering by
    both sets of entries. *)
Theorem filterResults_keeps_exact_matches (results : list Scored)
    (filters more : list (string * option string)) :
  (∀ r, r ∈ filterResults results filters
        ↔ r ∈ results
          ∧ ∀ key value, (key, Some value) ∈ filters →
                         metadata (doc r) !! key = Some value)
  ∧ sublist (filterResults results filters) results
  ∧ (Forall (λ entry, entry.2 = None) filters → filterResults results filters = results)
  ∧ filterResults (filterResults results filters) more
    = filterResults results (filters ++ more).
Proof.
  unfold filterResults. split; [|split; [|split]].
  - intros r. rewrite <- matchesFilters_spec. split.
    + intros Hin. apply list_elem_of_In, filter_In in Hin as [Hin Hm].
      by apply list_elem_of_In in Hin.
    + intros [Hin Hm]. apply list_elem_of_In, filter_In. split; [|done].
      by apply list_elem_of_In.
  - induction results as [|r results IH]; simpl; [constructor|].
    destruct (matchesFilters _ _); by constructor.
  - intros Hnull. induction results as [|r results IH]; simpl; [done|].
    assert (Hm : matchesFilters (metadata (doc r)) filters = true).
    { apply matchesFilters_spec. intros key value Hin.
      rewrite Forall_forall in Hnull. by specialize (Hnull _ Hin). }
    by rewrite Hm, IH.
  - induction results as [|r results IH]; simpl; [done|].
    assert (Happ : matchesFilters (metadata (doc r)) (filters ++ more)
                   = matchesFilters (metadata (doc r)) filters
                     && matchesFilters (metadata (doc r)) more).
    { apply eq_true_iff_eq. rewrite andb_true_iff, !matchesFilters_spec. split.
      - intros H. split; intros k v Hin; apply H, elem_of_app; auto.
      - intros [H1 H2] k v Hin. apply elem_of_app in Hin as [?|?]; auto. }
    rewrite Happ. destruct (matchesFilters _ filters); simpl; [|done].
    destruct (matchesFilters _ more); by rewrite IH.
Qed.

(** ** Date filters *)

Lemma ltb_empty_l s : nonEmpty s = true → String.ltb EmptyString s = true.
Proof. by destruct s. Qed.

Lemma truthy_Some s : truthy (Some s) = nonEmpty s.
Proof. done. Qed.

(** X2. The date checks written inline in the Discord search and the
    helper [filterByDateRange] decide alike for every record whose [date]
    is absent or not empty.  They differ on a record whose [date] is the
    empty string: the helper keeps it, the inline check with a
    [start_date] drops it. *)
Theorem inline_date_checks_agree_with_filterByDateRange (params : Discord.Params.t)
    (r : Scored) :
  truthy (Discord.Params.server_id params) = false →
  truthy (Discord.Params.channel_id params) = false →
  truthy (Discord.Params.author params) = false →
  let date := metadata (doc r) !! "date" in
  let inline := Discord.passesFilters params (metadata (doc r)) in
  let helper :=
    inDateRange (Discord.Params.start_date params) (Discord.Params.end_date params) r in
  (date ≠ Some EmptyString → inline = helper)
  ∧ (date = Some EmptyString →
     truthy (Discord.Params.start_date params) = true →
     inline = false ∧ helper = true).
Proof.
  intros Hs Hc Ha date inline helper.
  unfold inline, helper, Discord.passesFilters, inDateRange.
  rewrite Hs, Hc, Ha. simpl. fold date. split.
  - intros Hdate. destruct date as [d|] eqn:Hd.
    + assert (Ht : truthy (Some d) = true).
      { rewrite truthy_Some. destruct d; [done | done]. }
      rewrite Ht. simpl. done.
    + simpl.
      assert (Hl : ∀ x, lessThan x None = false) by (by intros [?|]).
      rewrite Hl, !andb_false_r. done.
  - intros -> Hstart. simpl. rewrite Hstart. simpl.
    destruct (Discord.Params.start_date params) as [s|]; [|done].
    simpl. rewrite truthy_Some in Hstart. by rewrite (ltb_empty_l s Hstart).
Qed.

Lemma inline_date_checks_agree_with_filterByDateRange_witness :
  Discord.passesFilters
    (Discord.Params.mk "release" None None None (Some "2025-01-01") None None None)
    {[ "date" := "2025-03-02" ]}
  = inDateRange (Some "2025-01-01") None
      (mkScored (mkRecord "m1" [] {[ "date" := "2025-03-02" ]}) 0).
Proof.
  destruct (inline_date_checks_agree_with_filterByDateRange
              (Discord.Params.mk "release" None None None (Some "2025-01-01") None None None)
              (mkScored (mkRecord "m1" [] {[ "date" := "2025-03-02" ]}) 0)
              eq_refl eq_refl eq_refl) as [Hagree _].
  apply Hagree. simpl. by rewrite lookup_singleton.
Defined.

(** ** Formatted results *)

Lemma formatResult_lookup options (r : Scored) key :
  formatResult options r !! key
  = if default false (includeEmbedding options) && bool_decide (key = "embedding")
    then Some (Vector (embedding (doc r)))
    else
      match (if default true (includeMetadata options)
             then metadata (doc r) !! key else None) with
      | Some value => Some (Text value)
      | None =>
          if bool_decide (key = "score") || bool_decide (key = "similarity")
          then Some (Number (similarity r)) else None
      end.
Proof.
  unfold formatResult.
  assert (Hbase : ({[ "score" := Number (similarity r);
                      "similarity" := Number (similarity r) ]} : gmap string field) !! key
                  = if bool_decide (key = "score") || bool_decide (key = "similarity")
                    then Some (Number (similarity r)) else None).
  { destruct (decide (key = "score")) as [->|Hs].
    - by rewrite lookup_insert.
    - rewrite lookup_insert_ne by done. rewrite (bool_decide_eq_false_2 _ Hs). simpl.
      destruct (decide (key = "similarity")) as [->|Hm].
      + by rewrite lookup_singleton.
      + rewrite lookup_singleton_ne by done. by rewrite (bool_decide_eq_false_2 _ Hm). }
  assert (Hmeta : (if default true (includeMetadata options)
                   then (Text <$> metadata (doc r))
                        ∪ ({[ "score" := Number (similarity r);
                              "similarity" := Number (similarity r) ]} : gmap string field)
                   else {[ "score" := Number (similarity r);
                           "similarity" := Number (similarity r) ]}) !! key
                  = match (if default true (includeMetadata options)
                           then metadata (doc r) !! key else None) with
                    | Some value => Some (Text value)
                    | None =>
                        if bool_decide (key = "score") || bool_decide (key = "similarity")
                        then Some (Number (similarity r)) else None
                    end).
  { destruct (default true (includeMetadata options)); [|done].
    rewrite lookup_union, lookup_fmap, Hbase.
    destruct (metadata (doc r) !! key); simpl.
    - by destruct (_ || _).
    - by destruct (_ || _). }
  destruct (default false (includeEmbedding options)); simpl; [|exact Hmeta].
  destruct (decide (key = "embedding")) as [->|Hk].
  - by rewrite lookup_insert.
  - rewrite lookup_insert_ne by done. rewrite (bool_decide_eq_false_2 _ Hk).
    exact Hmeta.
Qed.

(** X3. [formatResults] returns one object for each result, in order.
    With metadata included (the default), every metadata field appears
    in the object under its own key, so a metadata field named [score] or
    [similarity] replaces the computed similarity; the computed value is
    shown only under the keys the metadata does not use.  An included
    embedding replaces a metadata field named [embedding]. *)
Theorem formatResults_metadata_overwrites_score (results : list Scored)
    (options : FormatOptions) :
  includeMetadata options ≠ Some false →
  Forall2
    (λ r formatted,
       (∀ key value,
          metadata (doc r) !! key = Some value →
          (includeEmbedding options = Some true → key ≠ "embedding") →
          formatted !! key = Some (Text value))
       ∧ (metadata (doc r) !! "similarity" = None →
          formatted !! "similarity" = Some (Number (similarity r)))
       ∧ (metadata (doc r) !! "score" = None →
          formatted !! "score" = Some (Number (similarity r)))
       ∧ (includeEmbedding options = Some true →
          formatted !! "embedding" = Some (Vector (embedding (doc r)))))
    results (formatResults results options).
Proof.
  intros Hmeta. unfold formatResults. apply Forall2_fmap_r, Forall_Forall2_diag.
  apply Forall_forall. intros r _.
  assert (Hm : default true (includeMetadata options) = true).
  { destruct (includeMetadata options) as [[|]|]; done. }
  repeat split.
  - intros key value Hkey Hemb. rewrite formatResult_lookup, Hm, Hkey.
    destruct (includeEmbedding options) as [[|]|]; simpl; [|done|done].
    by rewrite bool_decide_eq_false_2 by auto.
  - intros Hnone. rewrite formatResult_lookup, Hm, Hnone. simpl.
    by rewrite andb_false_r.
  - intros Hnone. rewrite formatResult_lookup, Hm, Hnone. simpl.
    by rewrite andb_false_r.
  - intros Hemb. rewrite formatResult_lookup, Hemb. done.
Qed.

Lemma formatResults_metadata_overwrites_score_witness :
  formatResults [mkScored (mkRecord "d1" [1; 0]%R {[ "score" := "high" ]}) 1]
    (mkFormatOptions None None)
  !! 0 ≫= (.!! "score") = Some (Text "high").
Proof.
  pose proof (formatResults_metadata_overwrites_score
                [mkScored (mkRecord "d1" [1; 0]%R {[ "score" := "high" ]}) 1]
                (mkFormatOptions None None) ltac:(discriminate)) as H.
  apply Forall2_cons_1 in H as [(Hkey & _) _]. simpl.
  apply Hkey; [|discriminate]. simpl. by rewrite lookup_singleton.
Defined.

(** ** Loading a snapshot *)

(** X4. [loadVectorDb] raises an error that names the path when no file
    is there, and passes on the error of reading or parsing.  Otherwise
    it returns the records of the file in order, each with its [id],
    [values] and [metadata] unchanged and with [embedding] populated: a
    record that has an [embedding] keeps it, and a record of an older
    snapshot, with [values] only, gets its [values] as [embedding]. *)
Theorem loadVectorDb_populates_embedding
    (read : string → option (result (list Stored.t))) (vectorDbPath : string) :
  (read vectorDbPath = None →
   loadVectorDb read vectorDbPath
   = Throw (Error ("Vector database not found: " +:+ vectorDbPath)))
  ∧ (∀ e, read vectorDbPath = Some (Throw e) →
          loadVectorDb read vectorDbPath = Throw e)
  ∧ (∀ vectors,
       read vectorDbPath = Some (Ok vectors) →
       ∃ loaded,
         loadVectorDb read vectorDbPath = Ok loaded
         ∧ Forall2
             (λ v l,
                Stored.id l = Stored.id v
                ∧ Stored.values l = Stored.values v
                ∧ Stored.metadata l = Stored.metadata v
                ∧ Stored.embedding l
                  = match Stored.embedding v with
                    | Some embedding => Some embedding
                    | None => Stored.values v
                    end)
             vectors loaded).
Proof.
  unfold loadVectorDb. split; [|split].
  - by intros ->.
  - by intros e ->.
  - intros vectors ->. eexists. split; [done|].
    apply Forall2_fmap_r, Forall_Forall2_diag, Forall_forall. intros v _.
    unfold normalize.
    destruct (Stored.values v) as [values|] eqn:Hv;
      destruct (Stored.embedding v) as [embedding|] eqn:He; simpl;
      rewrite ?Hv, ?He; done.
Qed.

Lemma loadVectorDb_populates_embedding_witness :
  loadVectorDb (λ _, Some (Ok [Stored.mk "m1" (Some [1; 0]%R) None ∅])) "vectors.json"
  = Ok [Stored.mk "m1" (Some [1; 0]%R) (Some [1; 0]%R) ∅].
Proof.
  destruct (loadVectorDb_populates_embedding
              (λ _, Some (Ok [Stored.mk "m1" (Some [1; 0]%R) None ∅])) "vectors.json")
    as (_ & _ & H).
  destruct (H _ eq_refl) as (loaded & -> & Hall). f_equal.
  apply Forall2_cons_inv_l in Hall as (l & rest & (Hid & Hv & Hm & He) & Hrest & ->).
  apply Forall2_nil_inv_l in Hrest as ->.
  destruct l as [id values emb meta]. simpl in *. by subst.
Defined.

(** ** Saving and loading *)

Section SnapshotFacts.

Import Indexer.

(** X5. A collection saved under a path that contains [vectors.json] is
    read back by [loadVectorDb] from that path as it was saved: the same
    records in the same order, each with its id, embedding and metadata,
    and no [values] field. *)
Theorem save_then_load_returns_collection (env : Environment) (fs : FileSystem)
    (vectors : list VectorRecord) (outputPath : string) :
  includes outputPath "vectors.json" = true →
  (saveVectorDb env fs vectors outputPath).2 = Ok () →
  loadVectorDb (readSnapshot (saveVectorDb env fs vectors outputPath).1) outputPath
  = Ok (map stored vectors).
Proof.
  intros Hpath Hok. rewrite (saveVectorDb_success _ _ _ _ Hok).
  assert (Hne : metadataPathOf outputPath ≠ outputPath).
  { intros Heq. apply metadataPathOf_same in Heq. congruence. }
  unfold loadVectorDb, readSnapshot.
  rewrite lookup_insert_ne by done. rewrite lookup_insert_eq. simpl.
  f_equal. clear. induction vectors as [|v vectors IH]; simpl; [done|].
  by rewrite IH.
Qed.

Lemma save_then_load_returns_collection_witness :
  loadVectorDb
    (readSnapshot
       (saveVectorDb (mkEnvironment true (Ok ()) Written Written "t1") oldSnapshot
          newVectors "db/vectors.json").1)
    "db/vectors.json"
  = Ok (map stored newVectors).
Proof.
  apply (save_then_load_returns_collection
           (mkEnvironment true (Ok ()) Written Written "t1") oldSnapshot newVectors
           "db/vectors.json"); reflexivity.
Defined.

(** X6. When the output path does not contain [vectors.json], the path
    of the descriptor is the output path itself: a save that succeeds
    leaves the descriptor where the collection was written, and
    [loadVectorDb] on that path fails, the descriptor being no array. *)
Theorem save_without_vectors_json_overwrites_collection (env : Environment)
    (fs : FileSystem) (vectors : list VectorRecord) (outputPath : string) :
  includes outputPath "vectors.json" = false →
  (saveVectorDb env fs vectors outputPath).2 = Ok () →
  (saveVectorDb env fs vectors outputPath).1
  = <[outputPath := Complete (MetadataJson (descriptorOf env vectors))]> fs
  ∧ loadVectorDb (readSnapshot (saveVectorDb env fs vectors outputPath).1) outputPath
    = Throw (TypeError "vectors.map is not a function").
Proof.
  intros Hpath Hok. rewrite (saveVectorDb_success _ _ _ _ Hok).
  apply metadataPathOf_same in Hpath. rewrite Hpath. rewrite insert_insert_eq.
  split; [done|].
  unfold loadVectorDb, readSnapshot. by rewrite lookup_insert_eq.
Qed.

Lemma save_without_vectors_json_overwrites_collection_witness :
  (saveVectorDb (mkEnvironment true (Ok ()) Written Written "t1") ∅
     newVectors "db/index.json").1
  !! "db/index.json"
  = Some (Complete (MetadataJson (mkDescriptor "t1" 1 "Xenova/all-MiniLM-L6-v2" 384))).
Proof.
  destruct (save_without_vectors_json_overwrites_collection
              (mkEnvironment true (Ok ()) Written Written "t1") ∅ newVectors
              "db/index.json" eq_refl eq_refl) as [-> _].
  by rewrite lookup_insert_eq.
Defined.

End SnapshotFacts.

(** ** Indexing in batches *)

Section IndexFacts.

Import Indexer.

Lemma mapM_app {A B : Type} (f : A → result B) xs ys :
  mapM f (xs ++ ys)
  = match mapM f xs with
    | Ok xs' =>
        match mapM f ys with
        | Ok ys' => Ok (xs' ++ ys')
        | Throw e => Throw e
        | Unmodelled => Unmodelled
        end
    | Throw e => Throw e
    | Unmodelled => Unmodelled
    end.
Proof.
  induction xs as [|x xs IH]; simpl.
  - by destruct (mapM f ys).
  - destruct (f x) as [y| |]; simpl; [|done..]. rewrite IH.
    destruct (mapM f xs) as [xs'| |]; simpl; [|done..].
    by destruct (mapM f ys).
Qed.

Lemma mapM_length {A B : Type} (f : A → result B) xs ys :
  mapM f xs = Ok ys → length ys = length xs.
Proof.
  intros H. apply mapM_Ok_Forall2 in H. symmetry. by eapply Forall2_length.
Qed.

Lemma ceilDiv_covers n b : 0 < b → n ≤ ceilDiv n b * b.
Proof.
  intros Hb. unfold ceilDiv.
  pose proof (Nat.div_mod_eq (n + b - 1) b) as Hdm.
  pose proof (Nat.mod_upper_bound (n + b - 1) b ltac:(lia)) as Hlt.
  nia.
Qed.

Lemma ceilDiv_tight n b : 0 < b → 0 < n → (ceilDiv n b - 1) * b < n.
Proof.
  intros Hb Hn. unfold ceilDiv.
  pose proof (Nat.div_mod_eq (n + b - 1) b) as Hdm.
  pose proof (Nat.mod_upper_bound (n + b - 1) b ltac:(lia)) as Hlt.
  assert (1 ≤ (n + b - 1) / b) by (apply Nat.div_le_lower_bound; lia).
  nia.
Qed.

Lemma slice_batch {A : Type} (xs : list A) k b :
  slice (k * b) ((k * b + b) `min` length xs) xs = take b (drop (k * b) xs).
Proof.
  unfold slice. destruct (decide (k * b + b ≤ length xs)) as [Hle|Hgt].
  - f_equal. lia.
  - rewrite Nat.min_r by lia.
    rewrite !take_ge; [done | rewrite length_drop; lia | rewrite length_drop; lia].
Qed.

Lemma vectorOf_indexedAs start j d e : vectorOf start j d e = indexedAs (start + j) d e.
Proof.
  unfold vectorOf, indexedAs, generatedId, truthy, nonEmpty.
  destruct (Document.id d) as [id|]; [|done]. simpl.
  by destruct (negb (id =? EmptyString)%string).
Qed.

Lemma generateEmbeddings_provided pipeline embedder model texts :
  provides pipeline embedder model →
  Embeddings.generateEmbeddings pipeline embedder texts = (Some model, mapM model texts).
Proof.
  unfold Embeddings.generateEmbeddings, Embeddings.initializeEmbedder.
  intros [->|[-> ->]]; done.
Qed.

Lemma batchLoop_result pipeline model documents b onP m :
  0 < b →
  ∀ k embedder reports vectors,
    provides pipeline embedder model →
    (batchLoop pipeline documents b onP (seq k m) embedder reports vectors).2
    = match mapM model (map Document.text (take (m * b) (drop (k * b) documents))) with
      | Ok es =>
          Ok (vectors
              ++ imap (λ j p, indexedAs (k * b + j) p.1 p.2)
                   (zip (take (m * b) (drop (k * b) documents)) es))
      | Throw e => Throw e
      | Unmodelled => Unmodelled
      end.
Proof.
  intros Hb. induction m as [|m IH]; intros k embedder reports vectors Hp.
  - simpl. by rewrite app_nil_r.
  - cbn [seq batchLoop].
    rewrite slice_batch, (generateEmbeddings_provided _ _ model) by done.
    set (D := drop (k * b) documents).
    assert (Hrest : drop (S k * b) documents = drop b D).
    { unfold D. rewrite drop_drop. f_equal. lia. }
    assert (Hsplit : take (S m * b) D = take b D ++ take (m * b) (drop b D)).
    { rewrite take_take_drop. f_equal. }
    rewrite Hsplit, map_app, mapM_app.
    destruct (mapM model (map Document.text (take b D))) as [es| |] eqn:Hes; [|done..].
    rewrite IH by (by left). rewrite Hrest.
    destruct (mapM model (map Document.text (take (m * b) (drop b D))))
      as [es'| |] eqn:Hes'; [|done..].
    f_equal. rewrite <- app_assoc. f_equal.
    assert (Hlen : length (take b D) = length es).
    { apply mapM_length in Hes. by rewrite length_map in Hes. }
    rewrite zip_with_app by done. rewrite imap_app. f_equal.
    + apply imap_ext. intros j p _. by rewrite vectorOf_indexedAs.
    + destruct (decide (b ≤ length D)) as [Hle|Hgt].
      * apply imap_ext. intros j p _. f_equal.
        rewrite length_zip_with_l_eq by done. rewrite length_take. lia.
      * rewrite (drop_ge D b) by lia. by rewrite take_nil.
Qed.

Lemma batchLoop_reports pipeline model documents b onP m :
  0 < b →
  ∀ k embedder reports vectors es,
    provides pipeline embedder model →
    mapM model (map Document.text (take (m * b) (drop (k * b) documents))) = Ok es →
    (batchLoop pipeline documents b onP (seq k m) embedder reports vectors).1.2
    = reports ++ (if onP then map (progressAt b (length documents)) (seq k m) else []).
Proof.
  intros Hb. induction m as [|m IH]; intros k embedder reports vectors es Hp Hall.
  - simpl. destruct onP; by rewrite app_nil_r.
  - cbn [seq batchLoop].
    rewrite slice_batch, (generateEmbeddings_provided _ _ model) by done.
    set (D := drop (k * b) documents) in *.
    assert (Hrest : drop (S k * b) documents = drop b D).
    { unfold D. rewrite drop_drop. f_equal. lia. }
    assert (Hsplit : take (S m * b) D = take b D ++ take (m * b) (drop b D)).
    { rewrite take_take_drop. f_equal. }
    rewrite Hsplit, map_app, mapM_app in Hall.
    destruct (mapM model (map Document.text (take b D))) as [es1| |]; [|done..].
    destruct (mapM model (map Document.text (take (m * b) (drop b D))))
      as [es2| |] eqn:Hes2; [|done..].
    rewrite <- Hrest in Hes2.
    rewrite (IH (S k) (Some model) _ _ es2) by (done || by left).
    destruct onP; [|done].
    rewrite <- app_assoc. f_equal. simpl. f_equal.
    unfold progressAt. cbn zeta. by replace ((k + 1) * b) with (k * b + b) by lia.
Qed.

(** X7. With a positive batch size, [indexDocuments] gives the same
    result whatever the batch size: when the model embeds every text, one
    record for each document, in order, holding the document's own [id]
    (or [doc_i] for the document at position [i] of the input when the
    [id] is missing or empty), the embedding of its text and its metadata
    (or an empty object); and when the model rejects a text, the error of
    the first such text and no record at all.  Texts are not chunked. *)
Theorem indexDocuments_one_record_per_document (pipeline : result Embeddings.Model)
    (embedder : option Embeddings.Model) (model : Embeddings.Model)
    (documents : list Document.t) (options : IndexOptions) :
  0 < default 10 (batchSize options) →
  provides pipeline embedder model →
  (indexDocuments pipeline embedder documents options).2
  = indexedAll documents <$> mapM model (map Document.text documents).
Proof.
  intros Hb Hp. unfold indexDocuments.
  destruct (default 10 (batchSize options)) as [|b'] eqn:Hsize; [lia|].
  rewrite (batchLoop_result pipeline model) by done.
  rewrite drop_0, take_ge by (apply ceilDiv_covers; lia).
  destruct (mapM model (map Document.text documents)); done.
Qed.

Lemma indexDocuments_one_record_per_document_witness :
  (indexDocuments (Ok (λ _, Ok [1; 0]%R)) None
     [Document.mk None "first" None; Document.mk (Some "b") "second" None]
     (mkIndexOptions (Some 1) false)).2
  = Ok [mkRecord "doc_0" [1; 0]%R ∅; mkRecord "b" [1; 0]%R ∅].
Proof.
  rewrite (indexDocuments_one_record_per_document _ _ (λ _, Ok [1; 0]%R)).
  - reflexivity.
  - simpl. lia.
  - right. done.
Defined.

(** X8. When [indexDocuments] returns with a positive batch size and a
    callback, the callback was called once for every batch, after batch
    [i] (from 0) with [current] the smaller of [(i + 1) * batchSize] and
    the number of documents, with that number as [total], and with the
    percentage that [Math.round((current / total) * 100)] gives in double
    precision; for a non-empty input the last call reports
    [current = total]. *)
Theorem indexDocuments_reports_every_batch (pipeline : result Embeddings.Model)
    (embedder : option Embeddings.Model) (model : Embeddings.Model)
    (documents : list Document.t) (options : IndexOptions)
    (vectors : list VectorRecord) :
  let b := default 10 (batchSize options) in
  let n := length documents in
  let reports := (indexDocuments pipeline embedder documents options).1.2 in
  0 < b →
  provides pipeline embedder model →
  onProgress options = true →
  (indexDocuments pipeline embedder documents options).2 = Ok vectors →
  reports = map (progressAt b n) (seq 0 (ceilDiv n b))
  ∧ length reports = ceilDiv n b
  ∧ (documents ≠ [] → last reports = Some (mkProgress n n (percent n n))).
Proof.
  intros b n reports Hb Hp Hon Hok.
  assert (Hreports : reports = map (progressAt b n) (seq 0 (ceilDiv n b))).
  { unfold reports, indexDocuments in *. fold b in Hok |- *.
    destruct b as [|b'] eqn:Hsize; [lia|].
    rewrite (batchLoop_result pipeline model) in Hok by done.
    destruct (mapM model (map Document.text
                (take (ceilDiv (length documents) (S b') * S b') (drop (0 * S b') documents))))
      as [es| |] eqn:Hes; [|done..].
    rewrite (batchLoop_reports pipeline model _ _ _ _ Hb _ _ _ _ es) by done.
    by rewrite Hon. }
  split; [done|]. split; [by rewrite Hreports, length_map, length_seq|].
  intros Hne. rewrite Hreports.
  assert (Hn : 0 < n) by (unfold n; destruct documents; [done | simpl; lia]).
  pose proof (ceilDiv_covers n b Hb) as Hcover.
  destruct (ceilDiv n b) as [|c] eqn:Hc; [simpl in Hcover; lia|].
  rewrite seq_S, map_app. cbn [map]. rewrite last_snoc. f_equal.
  unfold progressAt. cbn zeta.
  replace ((0 + c + 1) * b) with (S c * b) by lia.
  by rewrite Nat.min_r by done.
Qed.

Lemma indexDocuments_reports_every_batch_witness :
  (indexDocuments (Ok (λ _, Ok [])) None
     (replicate 40 (Document.mk (Some "page") "text" None))
     (mkIndexOptions (Some 23) true)).1.2
  = [mkProgress 23 40 (Some 57); mkProgress 40 40 (Some 100)].
Proof.
  destruct (indexDocuments_reports_every_batch (Ok (λ _, Ok [])) None
              (λ _, Ok [])
              (replicate 40 (Document.mk (Some "page") "text" None))
              (mkIndexOptions (Some 23) true)
              (replicate 40 (mkRecord "page" [] ∅))) as [-> _].
  - simpl. lia.
  - by right.
  - done.
  - vm_compute. reflexivity.
  - vm_compute. reflexivity.
Defined.

Lemma indexedAll_length documents es :
  length es = length documents → length (indexedAll documents es) = length documents.
Proof.
  intros Hlen. unfold indexedAll. rewrite length_imap, length_zip_with_l_eq; done.
Qed.

Lemma indexedAll_first d documents e es :
  truthy (Document.id d) = false →
  doc_id <$> indexedAll (d :: documents) (e :: es) !! 0 = Some "doc_0".
Proof.
  intros Hid. unfold indexedAll. simpl. f_equal. unfold truthy, nonEmpty in *.
  destruct (Document.id d) as [id|]; [|done].
  by destruct (negb (id =? EmptyString)%string).
Qed.

(** X9. When the model embeds every new text, [incrementalIndex] returns
    the existing records unchanged, followed by one record for each new
    document.  The identifiers generated for new documents without an
    [id] start again at [doc_0] whatever the existing index holds, and
    nothing is removed: if the existing index already has a record
    [doc_0], the result holds that identifier twice. *)
Theorem incrementalIndex_appends_without_deduplication
    (pipeline : result Embeddings.Model) (embedder : option Embeddings.Model)
    (model : Embeddings.Model) (existingVectors : list VectorRecord)
    (newDocuments : list Document.t) (es : list (list R)) :
  provides pipeline embedder model →
  mapM model (map Document.text newDocuments) = Ok es →
  ∃ combined,
    (incrementalIndex pipeline embedder existingVectors newDocuments).2 = Ok combined
    ∧ combined = existingVectors ++ indexedAll newDocuments es
    ∧ length combined = length existingVectors + length newDocuments
    ∧ ∀ d,
        newDocuments !! 0 = Some d →
        truthy (Document.id d) = false →
        doc_id <$> combined !! length existingVectors = Some "doc_0"
        ∧ ((∃ v, v ∈ existingVectors ∧ doc_id v = "doc_0") →
           ¬ NoDup (map doc_id combined)).
Proof.
  intros Hp Hes.
  pose proof (mapM_length _ _ _ Hes) as Hlen. rewrite length_map in Hlen.
  assert (Hresult : (indexDocuments pipeline embedder newDocuments
                       (mkIndexOptions None false)).2
                    = Ok (indexedAll newDocuments es)).
  { unfold indexDocuments. cbn [default batchSize].
    rewrite (batchLoop_result pipeline model) by (done || lia).
    rewrite drop_0, take_ge by (apply ceilDiv_covers; lia).
    by rewrite Hes. }
  exists (existingVectors ++ indexedAll newDocuments es).
  unfold incrementalIndex.
  destruct (indexDocuments pipeline embedder newDocuments (mkIndexOptions None false))
    as [[embedder' reports] r]. simpl in Hresult. subst r. simpl.
  split; [done|]. split; [done|]. split.
  { by rewrite length_app, indexedAll_length. }
  intros d Hd Hid.
  destruct newDocuments as [|d' newDocuments]; [done|]. injection Hd as ->.
  destruct es as [|e es]; [done|].
  assert (Hat : doc_id <$> (existingVectors ++ indexedAll (d :: newDocuments) (e :: es))
                             !! length existingVectors = Some "doc_0").
  { rewrite lookup_app_r by lia. rewrite Nat.sub_diag. by apply indexedAll_first. }
  split; [done|].
  intros (v & Hv & Hdoc) Hnodup.
  apply list_elem_of_lookup in Hv as [i Hi].
  pose proof (lookup_lt_Some _ _ _ Hi) as Hlt.
  assert (Hi' : map doc_id (existingVectors ++ indexedAll (d :: newDocuments) (e :: es))
                !! i = Some "doc_0").
  { rewrite list_lookup_fmap, lookup_app_l by done. by rewrite Hi, <- Hdoc. }
  rewrite <- list_lookup_fmap in Hat.
  pose proof (NoDup_lookup _ _ _ _ Hnodup Hi' Hat). lia.
Qed.

Lemma incrementalIndex_appends_without_deduplication_witness :
  (incrementalIndex (Ok (λ _, Ok [1; 0]%R)) None [mkRecord "doc_0" [0; 1]%R ∅]
     [Document.mk None "second" None]).2
  = Ok [mkRecord "doc_0" [0; 1]%R ∅; mkRecord "doc_0" [1; 0]%R ∅].
Proof.
  destruct (incrementalIndex_appends_without_deduplication
              (Ok (λ _, Ok [1; 0]%R)) None (λ _, Ok [1; 0]%R)
              [mkRecord "doc_0" [0; 1]%R ∅] [Document.mk None "second" None]
              [[1; 0]%R]) as (combined & -> & -> & _).
  - by right.
  - reflexivity.
  - reflexivity.
Defined.

End IndexFacts.

(** ** Loading once *)

(** X10. The embedding model is loaded at the first call and kept: once
    [initializeEmbedder] has returned a model, every later call of
    [generateEmbedding] or [generateEmbeddings] uses that model without
    loading again, whatever loading would give by then.  A load that
    fails is not kept, so the next call loads again. *)
Theorem embedder_loaded_once (pipeline : result Embeddings.Model)
    (embedder : option Embeddings.Model) :
  (∀ embedder' model,
     Embeddings.initializeEmbedder pipeline embedder = (embedder', Ok model) →
     ∀ pipeline' text texts,
       Embeddings.generateEmbedding pipeline' embedder' text = (embedder', model text)
       ∧ Embeddings.generateEmbeddings pipeline' embedder' texts
         = (embedder', mapM model texts))
  ∧ (∀ embedder' e,
       Embeddings.initializeEmbedder pipeline embedder = (embedder', Throw e) →
       ∀ pipeline',
         Embeddings.initializeEmbedder pipeline' embedder'
         = Embeddings.initializeEmbedder pipeline' None).
Proof.
  unfold Embeddings.generateEmbedding, Embeddings.generateEmbeddings,
    Embeddings.initializeEmbedder.
  split.
  - intros embedder' model Hinit pipeline' text texts.
    destruct embedder as [m|].
    + injection Hinit as <- <-. split; by destruct (m text), (mapM m texts).
    + destruct pipeline as [m| |]; [|done..].
      injection Hinit as <- <-. split; by destruct (m text), (mapM m texts).
  - intros embedder' e Hinit pipeline'.
    destruct embedder as [m|]; [done|].
    destruct pipeline as [m| |]; [done| |done]. by injection Hinit as <- _.
Qed.

Lemma embedder_loaded_once_witness :
  Embeddings.generateEmbedding (Throw (Error "offline")) (Some (λ _, Ok [1; 0]%R)) "query"
  = (Some (λ _, Ok [1; 0]%R), Ok [1; 0]%R).
Proof.
  destruct (embedder_loaded_once (Ok (λ _, Ok [1; 0]%R)) None) as [Hkept _].
  destruct (Hkept _ _ eq_refl (Throw (Error "offline")) "query" []) as [Hone _].
  exact Hone.
Defined.

Section CacheFacts.

Import Discord.

(** X19. [initializeDiscordVectors] loads the snapshot once: after a call
    that returned a collection, every later call returns that collection
    and leaves the cache as it is, whatever the configuration and the
    file system have become, so a snapshot written later is not seen.
    When the file is missing the error names the indexing command and the
    path, no collection is kept, and the path is remembered. *)
Theorem initializeDiscordVectors_loads_once (disk : Disk) (cache : Cache) :
  (∀ cache' vectors,
     initializeDiscordVectors disk cache = (cache', Ok vectors) →
     ∀ disk', initializeDiscordVectors disk' cache' = (cache', Ok vectors))
  ∧ (∀ vectorDbPath,
       cached_vectors cache = None →
       truthy (cached_path cache) = false →
       getVectorDbPath disk = Ok vectorDbPath →
       read disk vectorDbPath = None →
       initializeDiscordVectors disk cache
       = (mkCache None (Some vectorDbPath), Throw (notInitialized vectorDbPath))).
Proof.
  unfold initializeDiscordVectors. split.
  - intros cache' vectors Hinit disk'.
    destruct (cached_vectors cache) as [vs|] eqn:Hvs.
    + injection Hinit as <- <-. by rewrite Hvs.
    + destruct (if truthy (cached_path cache) then _ else _) as [path| |]; [|done..].
      destruct (read disk path); [|done].
      destruct (loadVectorDb (read disk) path) as [vs| |]; [|done..].
      by injection Hinit as <- <-.
  - intros path -> -> -> ->. done.
Qed.

Lemma initializeDiscordVectors_loads_once_witness :
  initializeDiscordVectors (mkDisk (Throw (Error "no configuration")) (λ _, None))
    (mkCache (Some [Stored.mk "m1" None (Some [1; 0]%R) ∅]) (Some "db/vectors.json"))
  = (mkCache (Some [Stored.mk "m1" None (Some [1; 0]%R) ∅]) (Some "db/vectors.json"),
     Ok [Stored.mk "m1" None (Some [1; 0]%R) ∅]).
Proof.
  destruct (initializeDiscordVectors_loads_once
              (mkDisk (Ok "db/vectors.json")
                 (λ _, Some (Ok [Stored.mk "m1" None (Some [1; 0]%R) ∅])))
              (mkCache None None)) as [Hkept _].
  apply (Hkept _ _ eq_refl).
Defined.

End CacheFacts.

(** ** Roles *)

Section RoleFacts.

Import HasuraAuth.

Lemma addRole_NoDup discordRoles role :
  NoDup discordRoles → NoDup (addRole discordRoles role).
Proof.
  intros Hnd. unfold addRole. destruct (roleMapping (role_name role)) as [v|]; [|done].
  case_bool_decide as Hin; [done|].
  apply NoDup_app. split; [done|]. split; [|apply NoDup_singleton].
  intros x Hx Hx'. apply list_elem_of_singleton in Hx'. by subst.
Qed.

Lemma addRole_elem discordRoles role v :
  v ∈ addRole discordRoles role
  ↔ v ∈ discordRoles ∨ roleMapping (role_name role) = Some v.
Proof.
  unfold addRole. destruct (roleMapping (role_name role)) as [w|].
  - case_bool_decide as Hin.
    + split; [by left|]. intros [?|[= <-]]; done.
    + rewrite elem_of_app, list_elem_of_singleton. split.
      * intros [? | ->]; auto.
      * intros [?|[= <-]]; auto.
  - split; [by left|]. by intros [?|?].
Qed.

Lemma fold_addRole_NoDup dbRoles discordRoles :
  NoDup discordRoles → NoDup (fold_left addRole dbRoles discordRoles).
Proof.
  revert discordRoles. induction dbRoles as [|role dbRoles IH]; intros acc Hnd; simpl.
  - done.
  - by apply IH, addRole_NoDup.
Qed.

Lemma fold_addRole_elem dbRoles discordRoles v :
  v ∈ fold_left addRole dbRoles discordRoles
  ↔ v ∈ discordRoles ∨ ∃ role, role ∈ dbRoles ∧ roleMapping (role_name role) = Some v.
Proof.
  revert discordRoles. induction dbRoles as [|role dbRoles IH]; intros acc; simpl.
  - split; [by left|]. intros [?|(? & Hin & _)]; [done|]. by apply elem_of_nil in Hin.
  - rewrite IH, addRole_elem. split.
    + intros [[?|?]|(r & ? & ?)]; [by left| |].
      * right. exists role. split; [by left | done].
      * right. exists r. split; [by right | done].
    + intros [?|(r & Hin & ?)]; [by left; left|].
      apply elem_of_cons in Hin as [->|?]; [by left; right|].
      right. by exists r.
Qed.

Lemma roleMapping_cases name v :
  roleMapping name = Some v →
  (name = Some "admin" ∧ v = RoleId CORE_LEAD)
  ∨ (name = Some "dev" ∧ v = RoleId DEV)
  ∨ ((name = Some "member" ∨ name = Some "guest") ∧ v = RoleId OPEN)
  ∨ (∃ n, name = Some n ∧ n ∈ inherited ∧ v = Inherited n).
Proof.
  unfold roleMapping. destruct name as [n|]; [|done].
  destruct (String.eqb_spec n "admin") as [->|_].
  { intros [= <-]. by left. }
  destruct (String.eqb_spec n "dev") as [->|_].
  { intros [= <-]. right. by left. }
  destruct (String.eqb_spec n "member") as [->|_].
  { intros [= <-]. right. right. left. split; [by left | done]. }
  destruct (String.eqb_spec n "guest") as [->|_].
  { intros [= <-]. right. right. left. split; [by right | done]. }
  case_bool_decide as Hin; [|done].
  intros [= <-]. right. right. right. by exists n.
Qed.

(** X18. [mapDatabaseRolesToDiscordRoles] never returns an empty list and
    never the same role twice.  The identifier of the core lead is
    granted exactly when some database role is named [admin]; the
    identifier of the dev lead is never granted; a user none of whose
    roles is recognised gets the open role alone.  When no role is named
    like a property that every object inherits, only the identifiers of
    core lead, dev and open can appear. *)
Theorem mapDatabaseRolesToDiscordRoles_grants (dbRoles : list Role) :
  let roles := mapDatabaseRolesToDiscordRoles dbRoles in
  roles ≠ []
  ∧ NoDup roles
  ∧ (RoleId CORE_LEAD ∈ roles ↔ ∃ role, role ∈ dbRoles ∧ role_name role = Some "admin")
  ∧ (RoleId DEV_LEAD ∉ roles)
  ∧ ((∀ role, role ∈ dbRoles → roleMapping (role_name role) = None) →
     roles = [RoleId OPEN])
  ∧ ((∀ role name, role ∈ dbRoles → role_name role = Some name → name ∉ inherited) →
     ∀ v, v ∈ roles → v ∈ [RoleId CORE_LEAD; RoleId DEV; RoleId OPEN]).
Proof.
  intros roles.
  assert (Helem : ∀ v, v ∈ roles →
            v = RoleId OPEN
            ∨ ∃ role, role ∈ dbRoles ∧ roleMapping (role_name role) = Some v).
  { intros v Hv. unfold roles, mapDatabaseRolesToDiscordRoles in Hv.
    destruct (fold_left addRole dbRoles []) as [|w ws] eqn:Hfold.
    - apply list_elem_of_singleton in Hv. by left.
    - rewrite <- Hfold in Hv. apply fold_addRole_elem in Hv as [Hv|Hv]; [|by right].
      by apply elem_of_nil in Hv. }
  assert (Hmapped : ∀ v role, role ∈ dbRoles → roleMapping (role_name role) = Some v →
                              v ∈ roles).
  { intros v role Hin Hmap.
    assert (Hv : v ∈ fold_left addRole dbRoles []).
    { apply fold_addRole_elem. right. by exists role. }
    unfold roles, mapDatabaseRolesToDiscordRoles.
    destruct (fold_left addRole dbRoles []); [by apply elem_of_nil in Hv | done]. }
  split; [|split; [|split; [|split; [|split]]]].
  - unfold roles, mapDatabaseRolesToDiscordRoles.
    by destruct (fold_left addRole dbRoles []).
  - unfold roles, mapDatabaseRolesToDiscordRoles.
    pose proof (fold_addRole_NoDup dbRoles [] (NoDup_nil_2)) as Hnd.
    destruct (fold_left addRole dbRoles []); [apply NoDup_singleton | done].
  - split.
    + intros Hv. destruct (Helem _ Hv) as [[=]|(role & Hin & Hmap)].
      exists role. split; [done|].
      destruct (roleMapping_cases _ _ Hmap)
        as [[? _]|[[_ [=]]|[[_ [=]]|(? & _ & _ & [=])]]]; done.
    + intros (role & Hin & Hname). apply (Hmapped _ role Hin). by rewrite Hname.
  - intros Hv. destruct (Helem _ Hv) as [[=]|(role & Hin & Hmap)].
    destruct (roleMapping_cases _ _ Hmap)
      as [[_ [=]]|[[_ [=]]|[[_ [=]]|(? & _ & _ & [=])]]].
  - intros Hnone. unfold roles, mapDatabaseRolesToDiscordRoles.
    destruct (fold_left addRole dbRoles []) as [|w ws] eqn:Hfold; [done|].
    assert (Hw : w ∈ fold_left addRole dbRoles []) by (rewrite Hfold; by left).
    apply fold_addRole_elem in Hw as [Hw|(role & Hin & Hmap)].
    + by apply elem_of_nil in Hw.
    + by rewrite (Hnone role Hin) in Hmap.
  - intros Hplain v Hv. destruct (Helem _ Hv) as [->|(role & Hin & Hmap)].
    { right. right. by left. }
    destruct (roleMapping_cases _ _ Hmap)
      as [[_ ->]|[[_ ->]|[[_ ->]|(n & Hname & Hinh & _)]]].
    + by left.
    + right. by left.
    + right. right. by left.
    + by destruct (Hplain role n Hin Hname).
Qed.

Lemma mapDatabaseRolesToDiscordRoles_grants_witness :
  mapDatabaseRolesToDiscordRoles [mkRole 7 (Some "intern")] = [RoleId OPEN].
Proof.
  destruct (mapDatabaseRolesToDiscordRoles_grants [mkRole 7 (Some "intern")])
    as (_ & _ & _ & _ & Hnone & _).
  apply Hnone. intros role Hin. apply list_elem_of_singleton in Hin. by subst.
Defined.

End RoleFacts.

(** ** Searches of one source *)

Section AdapterFacts.

Import Discord.

Lemma hitsOf_provenance params k ranking :
  Forall
    (λ h, ∃ r, r ∈ take k ranking
               ∧ passesFilters params (metadata (doc r)) = true
               ∧ h = toHit r)
    (hitsOf params k ranking).
Proof.
  unfold hitsOf. apply Forall_forall. intros h Hh.
  apply list_elem_of_fmap in Hh as (r & -> & Hr).
  apply list_elem_of_In, filter_In in Hr as [Hr Hpass].
  exists r. split; [by apply list_elem_of_In | done].
Qed.

(** X11. With the collection loaded and the query embedded in the
    dimension of the collection, [discordSemanticSearch] returns.  Its
    results are the first [limit] records that pass the filters among the
    [2 * limit] best-ranked ones: at most [limit] results, counted by
    [total_results], in non-increasing similarity, each made from a
    record that passes every filter and is ranked among the first
    [2 * limit].  A matching record ranked lower is not returned, even
    when fewer than [limit] results are found. *)
Theorem discordSemanticSearch_filters_best_candidates (env : Env) (params : Params.t)
    (docs : list VectorRecord) (q : list R) :
  let limit := default 20 (Params.limit params) in
  nonEmpty (Params.query params) = true →
  vectors env = Ok docs →
  generateEmbedding env (Params.query params) = Ok q →
  Forall (λ d, length q = length (embedding d)) docs →
  ∃ response scored,
    discordSemanticSearch env params = Ok response
    ∧ Forall2 (scoredAs q) docs scored
    ∧ results response
      = take limit (hitsOf params (limit * 2) (sortBy bySimilarity scored))
    ∧ length (results response) ≤ limit
    ∧ total_results response = length (results response)
    ∧ StronglySorted (λ a b, (Hit.similarity b <= Hit.similarity a)%R) (results response)
    ∧ Forall
        (λ h, ∃ r, r ∈ take (limit * 2) (sortBy bySimilarity scored)
                   ∧ passesFilters params (metadata (doc r)) = true
                   ∧ h = toHit r)
        (results response).
Proof.
  intros limit Hq Hv He Hall.
  destruct (mapM_score_cases q docs) as [(_ & scored & Hm & Hscored) | [Hex _]].
  2:{ apply Exists_exists in Hex as (d & Hd & Hne).
      rewrite Forall_forall in Hall. by destruct (Hne (Hall d Hd)). }
  eexists. exists scored. split.
  { apply discordSemanticSearch_Ok. by exists docs, q, scored. }
  cbn [results total_results]. fold limit.
  split; [done|]. split; [done|]. split.
  { rewrite length_take. lia. }
  split; [done|]. split.
  - apply StronglySorted_take, hitsOf_sorted.
  - apply Forall_take, hitsOf_provenance.
Qed.

Lemma discordSemanticSearch_filters_best_candidates_witness :
  ∃ response,
    discordSemanticSearch sampleEnv (byBob 1 "release") = Ok response
    ∧ length (results response) ≤ 1.
Proof.
  destruct (discordSemanticSearch_filters_best_candidates sampleEnv (byBob 1 "release")
              sampleDocs [1; 0]%R eq_refl eq_refl eq_refl)
    as (response & scored & Hr & _ & _ & Hlen & _).
  - by repeat constructor.
  - by exists response.
Defined.

Lemma all_is_no_range s e : nonEmpty s = true → s +:+ " to " +:+ e ≠ "all".
Proof.
  intros Hs Heq. apply (f_equal String.length) in Heq.
  rewrite !length_append in Heq. simpl in Heq. lia.
Qed.

(** X12. The response echoes a date range only when both [start_date]
    and [end_date] are given.  With one bound alone the bound is applied
    (no result is dated before a lone [start_date], none after a lone
    [end_date]) while [filters.date_range] reads [all]. *)
Theorem date_range_echo_needs_both_bounds (env : Env) (params : Params.t)
    (response : Response Hit.t) :
  discordSemanticSearch env params = Ok response →
  (date_range (filters response) = "all"
   ↔ ¬ (truthy (Params.start_date params) = true ∧ truthy (Params.end_date params) = true))
  ∧ (truthy (Params.start_date params) = true →
     Forall (λ h, lessThan (Hit.date h) (Params.start_date params) = false)
       (results response))
  ∧ (truthy (Params.end_date params) = true →
     Forall (λ h, lessThan (Params.end_date params) (Hit.date h) = false)
       (results response)).
Proof.
  intros Hok. apply discordSemanticSearch_Ok in Hok as (docs & q & scored & _ & _ & _ & _ & ->).
  cbn [filters results date_range echoFilters].
  assert (Hpass : Forall (λ h, ∃ r, passesFilters params (metadata (doc r)) = true
                                    ∧ h = toHit r)
                    (take (default 20 (Params.limit params))
                       (hitsOf params (default 20 (Params.limit params) * 2)
                          (sortBy bySimilarity scored)))).
  { apply Forall_take. eapply Forall_impl; [apply hitsOf_provenance|].
    intros h (r & _ & ? & ?). by exists r. }
  split; [|split].
  - destruct (truthy (Params.start_date params)) eqn:Hs;
      destruct (truthy (Params.end_date params)) eqn:He; simpl.
    + split; [|by intros []].
      intros Heq. destruct (Params.start_date params) as [s|]; [|done].
      by destruct (all_is_no_range s (default EmptyString (Params.end_date params))).
    + split; [by intros _ [_ ?] | done].
    + split; [by intros _ [? _] | done].
    + split; [by intros _ [? _] | done].
  - intros Hs. eapply Forall_impl; [exact Hpass|].
    intros h (r & Hr & ->). cbn [toHit Hit.date].
    unfold passesFilters in Hr. rewrite Hs in Hr.
    destruct (lessThan (metadata (doc r) !! "date") (Params.start_date params)); [|done].
    simpl in Hr. repeat (destruct (_ && _) in Hr; try done).
  - intros He. eapply Forall_impl; [exact Hpass|].
    intros h (r & Hr & ->). cbn [toHit Hit.date].
    unfold passesFilters in Hr. rewrite He in Hr.
    destruct (lessThan (Params.end_date params) (metadata (doc r) !! "date")); [|done].
    simpl in Hr. repeat (destruct (_ && _) in Hr; try done).
Qed.

Lemma date_range_echo_needs_both_bounds_witness :
  ∃ response,
    discordSemanticSearch sampleEnv
      (Params.mk "release" None None None (Some "2025-01-01") None (Some 1) None)
    = Ok response
    ∧ date_range (filters response) = "all".
Proof.
  destruct (semantic_sampleEnv
              (Params.mk "release" None None None (Some "2025-01-01") None (Some 1) None)
              eq_refl) as (response & Hs & _).
  exists response. split; [done|].
  destruct (date_range_echo_needs_both_bounds _ _ _ Hs) as [Hecho _].
  apply Hecho. by intros [_ ?].
Defined.

Lemma mapM_not_Ok {A B : Type} (f : A → result B) xs :
  Exists (λ x, ∀ y, f x ≠ Ok y) xs → ∀ ys, mapM f xs ≠ Ok ys.
Proof.
  intros Hex ys Hok. apply mapM_Ok_Forall2 in Hok.
  apply Exists_exists in Hex as (x & Hx & Hfail).
  apply list_elem_of_lookup in Hx as [i Hi].
  destruct (Forall2_lookup_l _ _ _ _ _ Hok Hi) as (y & _ & Hy).
  by destruct (Hfail y).
Qed.

Lemma mapM_first_throw {A B : Type} (f : A → result B) e xs :
  Forall (λ x, (∃ y, f x = Ok y) ∨ f x = Throw e) xs →
  Exists (λ x, f x = Throw e) xs →
  mapM f xs = Throw e.
Proof.
  induction 1 as [|x xs Hx _ IH]; intros Hex; [by apply Exists_nil in Hex|].
  simpl. destruct Hx as [[y Hy]| ->]; [|done].
  rewrite Hy. simpl. apply Exists_cons in Hex as [Hex|Hex]; [congruence|].
  by rewrite (IH Hex).
Qed.

(** X14. The hybrid search reads [text.toLowerCase()] of every candidate:
    when one of the candidates found by the semantic search has no
    [text], the hybrid search does not return, although the semantic
    search did; if the keywords are patterns that compile, what it raises
    is the TypeError of reading [toLowerCase] of [undefined]. *)
Theorem discordHybridSearch_needs_text (env : Env) (params : Params.t)
    (semantic : Response Hit.t) :
  let limit := default 20 (Params.limit params) in
  let keywords := RegExp.split RegExp.whiteSpaceRun (toLowerCase (Params.query params)) in
  discordSemanticSearch env (withLimit params (limit * 2)) = Ok semantic →
  Exists (λ h, Hit.text h = None) (results semantic) →
  (∀ response, discordHybridSearch env params ≠ Ok response)
  ∧ (Forall compiles keywords →
     discordHybridSearch env params
     = Throw (TypeError "Cannot read properties of undefined (reading 'toLowerCase')")).
Proof.
  intros limit keywords Hsem Hex.
  assert (Hq : nonEmpty (Params.query params) = true).
  { apply discordSemanticSearch_Ok in Hsem as (? & ? & ? & Hq & _). exact Hq. }
  unfold discordHybridSearch. fold limit. rewrite Hq, Hsem. cbn [negb]. simpl.
  fold keywords. split.
  - intros response.
    destruct (mapM (rescore keywords (default 0.7%R (Params.semantic_weight params)))
                (results semantic)) as [hs| |] eqn:Hm; [|done..].
    exfalso. revert Hm. apply mapM_not_Ok.
    eapply Exists_impl; [exact Hex|]. intros h Hh y. unfold rescore. by rewrite Hh.
  - intros Hkw.
    rewrite (mapM_first_throw _
               (TypeError "Cannot read properties of undefined (reading 'toLowerCase')")).
    + done.
    + apply Forall_forall. intros h _. unfold rescore.
      destruct (Hit.text h) as [text|]; [left | by right].
      destruct (countKeywordMatches_total (toLowerCase text) 0 keywords Hkw) as [total ->].
      by eexists.
    + eapply Exists_impl; [exact Hex|]. intros h Hh. unfold rescore. by rewrite Hh.
Qed.

Lemma discordHybridSearch_needs_text_witness :
  discordHybridSearch textlessEnv (about "release")
  = Throw (TypeError "Cannot read properties of undefined (reading 'toLowerCase')").
Proof.
  assert (Hsem : ∃ semantic,
            discordSemanticSearch textlessEnv (withLimit (about "release") (1 * 2))
            = Ok semantic
            ∧ Exists (λ h, Hit.text h = None) (results semantic)).
  { eexists. split.
    - apply discordSemanticSearch_Ok.
      exists [mkRecord "m4" [1; 0]%R {[ "author" := "carol" ]}], [1; 0]%R,
        [mkScored (mkRecord "m4" [1; 0]%R {[ "author" := "carol" ]}) 1].
      split; [done|]. split; [done|]. split; [done|]. split; [|reflexivity].
      simpl. unfold score. simpl. by rewrite cosineSimilarity_sample.
    - cbn [results]. vm_compute. by left. }
  destruct Hsem as (semantic & Hsem & Hex).
  destruct (discordHybridSearch_needs_text textlessEnv (about "release") semantic Hsem Hex)
    as [_ Hthrow].
  apply Hthrow. vm_compute. repeat constructor. by eexists.
Defined.

End AdapterFacts.

Section PathFilterFacts.

Lemma docs_filterLoop_total params n acc rs :
  truthy (Docs.Params.file_path params) = false →
  ∃ out, Docs.filterLoop params n acc rs = Ok out.
Proof.
  intros Hpath. revert acc. induction rs as [|r rs IH]; intros acc; simpl; [by eexists|].
  unfold Docs.passesFilters. rewrite Hpath. simpl.
  destruct (_ && _); simpl; [apply IH|].
  destruct (_ && _); simpl; [apply IH|].
  destruct (n <=? length (acc ++ [Docs.toHit r])); [by eexists | apply IH].
Qed.

(** X13. The [file_path] filter of the documentation search calls
    [includes] on the [file_path] of each candidate it examines: when the
    best-ranked candidate has no [file_path], a search with that filter
    raises a TypeError instead of skipping the candidate.  Without that
    filter the search returns whatever the metadata lacks: the [category]
    and [doc_type] filters skip a candidate that lacks the field. *)
Theorem docsSemanticSearch_file_path_filter_needs_file_path (env : Docs.Env)
    (params : Docs.Params.t) (pages : list VectorRecord) (q : list R) :
  let limit := default 20 (Docs.Params.limit params) in
  nonEmpty (Docs.Params.query params) = true →
  Docs.vectors env = Ok pages →
  Docs.generateEmbedding env (Docs.Params.query params) = Ok q →
  (∀ r rest,
     truthy (Docs.Params.file_path params) = true →
     vectorSearch q pages (limit * 2) = Ok (r :: rest) →
     metadata (doc r) !! "file_path" = None →
     Docs.docsSemanticSearch env params = Throw noFilePath)
  ∧ (truthy (Docs.Params.file_path params) = false →
     Forall (λ d, length q = length (embedding d)) pages →
     ∃ response, Docs.docsSemanticSearch env params = Ok response).
Proof.
  intros limit Hq Hv He. unfold Docs.docsSemanticSearch. fold limit.
  rewrite Hq, Hv. simpl. rewrite He. simpl. split.
  - intros r rest Hpath -> Hnone. simpl.
    unfold Docs.passesFilters, Docs.pathIncludes. by rewrite Hpath, Hnone.
  - intros Hpath Hall.
    destruct (vectorSearch_total q pages (limit * 2) Hall) as [found ->]. simpl.
    destruct (docs_filterLoop_total params limit [] found Hpath) as [out ->].
    by eexists.
Qed.

Lemma docsSemanticSearch_file_path_filter_needs_file_path_witness :
  Docs.docsSemanticSearch sampleLoosePagesEnv
    (Docs.Params.mk "notes" (Some "docs/") None None (Some 1))
  = Throw noFilePath.
Proof.
  destruct (docsSemanticSearch_file_path_filter_needs_file_path sampleLoosePagesEnv
              (Docs.Params.mk "notes" (Some "docs/") None None (Some 1))
              [mkRecord "d3" [1; 0]%R {[ "text" := "Loose notes" ]}] [1; 0]%R
              eq_refl eq_refl eq_refl) as [Hthrow _].
  apply (Hthrow (mkScored (mkRecord "d3" [1; 0]%R {[ "text" := "Loose notes" ]}) 1) []).
  - done.
  - unfold vectorSearch. simpl. unfold score. simpl.
    by rewrite cosineSimilarity_sample.
  - done.
Defined.

End PathFilterFacts.

(** ** Chunks *)

Section TrimFacts.

Lemma trimStart_startsClean s : startsClean (trimStart s).
Proof.
  induction s as [|c s IH]; simpl; [done|].
  destruct (isWhiteSpace c) eqn:Hc; [done | by simpl].
Qed.

Lemma trimStart_clean s : startsClean s → trimStart s = s.
Proof. destruct s as [|c s]; simpl; [done|]. by intros ->. Qed.

Lemma trimEnd_cons c s :
  trimEnd (String c s)
  = match trimEnd s with
    | EmptyString => if isWhiteSpace c then EmptyString else String c EmptyString
    | r => String c r
    end.
Proof. done. Qed.

Lemma trimEnd_startsClean s : startsClean s → startsClean (trimEnd s).
Proof.
  destruct s as [|c s]; [done|]. simpl startsClean at 1. intros Hc.
  rewrite trimEnd_cons, Hc. by destruct (trimEnd s).
Qed.

Lemma trimEnd_idem s : trimEnd (trimEnd s) = trimEnd s.
Proof.
  induction s as [|c s IH]; [done|]. rewrite trimEnd_cons.
  destruct (trimEnd s) as [|c' r] eqn:Hr.
  - destruct (isWhiteSpace c) eqn:Hc; [done|]. rewrite trimEnd_cons. simpl. by rewrite Hc.
  - rewrite trimEnd_cons, IH. done.
Qed.

Lemma trim_idem s : trim (trim s) = trim s.
Proof.
  unfold trim.
  rewrite (trimStart_clean (trimEnd (trimStart s)))
    by apply trimEnd_startsClean, trimStart_startsClean.
  apply trimEnd_idem.
Qed.

Lemma trimEnd_empty s : trimEnd s = EmptyString → allChars isWhiteSpace s.
Proof.
  induction s as [|c s IH]; [constructor|]. rewrite trimEnd_cons.
  destruct (trimEnd s) as [|c' r]; [|done].
  destruct (isWhiteSpace c) eqn:Hc; [|done]. intros _. constructor; [done | by apply IH].
Qed.

Lemma trimStart_empty s : trimStart s = EmptyString → allChars isWhiteSpace s.
Proof.
  induction s as [|c s IH]; [constructor|]. simpl.
  destruct (isWhiteSpace c) eqn:Hc; [|done]. intros Hs. constructor; [done | by apply IH].
Qed.

Lemma trimStart_allChars s : allChars isWhiteSpace (trimStart s) → allChars isWhiteSpace s.
Proof.
  intros Hall. apply trimStart_empty.
  pose proof (trimStart_startsClean s) as Hclean.
  destruct (trimStart s) as [|c r]; [done|].
  apply Forall_cons in Hall as [Hc _]. simpl in Hclean. congruence.
Qed.

Lemma trim_empty s : trim s = EmptyString → allChars isWhiteSpace s.
Proof. intros Ht. by apply trimStart_allChars, trimEnd_empty. Qed.

Lemma allChars_app f s t : allChars f (s +:+ t) ↔ allChars f s ∧ allChars f t.
Proof.
  unfold allChars. induction s as [|c s IH].
  - rewrite append_nil_l. split; [by split; [constructor|] | by intros [_ ?]].
  - rewrite append_cons. simpl. rewrite !Forall_cons, IH. tauto.
Qed.

End TrimFacts.

Section ChunkInvariant.

Import Indexer.

Lemma pushCurrent_trimmed st : flushedTrimmed st → flushedTrimmed (pushCurrent st).
Proof.
  destruct st as [chunks cur]. unfold flushedTrimmed. simpl. intros Hall.
  apply Forall_app. split; [done|]. constructor; [apply trim_idem | constructor].
Qed.

Lemma addSentence_trimmed size st sentence :
  flushedTrimmed st → flushedTrimmed (addSentence size st sentence).
Proof.
  intros Hst. unfold addSentence. destruct st as [chunks cur].
  destruct (size <? _); [|done].
  destruct (nonEmpty cur).
  - apply pushCurrent_trimmed in Hst. by destruct (pushCurrent (chunks, cur)).
  - done.
Qed.

Lemma fold_addSentence_trimmed size sentences st :
  flushedTrimmed st → flushedTrimmed (fold_left (addSentence size) sentences st).
Proof.
  revert st. induction sentences as [|x xs IH]; intros st Hst; [done|].
  simpl. by apply IH, addSentence_trimmed.
Qed.

Lemma addSection_trimmed size separator st section :
  flushedTrimmed st → flushedTrimmed (addSection size separator st section).
Proof.
  intros Hst. unfold addSection. destruct st as [chunks cur].
  destruct (size <? String.length section).
  - apply fold_addSentence_trimmed.
    destruct (nonEmpty cur); [|done].
    apply pushCurrent_trimmed in Hst. by destruct (pushCurrent (chunks, cur)).
  - destruct (size <? _); [|done].
    apply pushCurrent_trimmed in Hst. by destruct (pushCurrent (chunks, cur)).
Qed.

Lemma fold_addSection_trimmed size separator sections st :
  flushedTrimmed st → flushedTrimmed (fold_left (addSection size separator) sections st).
Proof.
  revert st. induction sections as [|x xs IH]; intros st Hst; [done|].
  simpl. by apply IH, addSection_trimmed.
Qed.

Lemma chunkText_trimmed (text : string) (options : ChunkOptions) :
  Forall (λ chunk, chunk ≠ EmptyString ∧ trim chunk = chunk) (chunkText text options).
Proof.
  unfold chunkText.
  set (st := fold_left _ _ _).
  assert (Hst : flushedTrimmed st).
  { apply fold_addSection_trimmed. constructor. }
  assert (Hlast : flushedTrimmed (if nonEmpty st.2 then pushCurrent st else st)).
  { destruct (nonEmpty st.2); [by apply pushCurrent_trimmed | done]. }
  destruct (if nonEmpty st.2 then pushCurrent st else st) as [chunks cur].
  unfold flushedTrimmed in Hlast. simpl in Hlast.
  apply Forall_forall. intros chunk Hin.
  apply list_elem_of_In, filter_In in Hin as [Hin Hlen].
  split.
  - intros ->. done.
  - rewrite Forall_forall in Hlast. by apply Hlast, list_elem_of_In.
Qed.

Lemma trimEnd_endsBlank s : endsBlank (trimEnd s) = false.
Proof.
  induction s as [|c s IH]; [done|]. rewrite trimEnd_cons.
  destruct (trimEnd s) as [|c' r] eqn:Hr.
  - destruct (isWhiteSpace c) eqn:Hc; [done|]. unfold endsBlank. simpl. exact Hc.
  - unfold endsBlank in *. exact IH.
Qed.

(** X15. Every chunk that [chunkText] returns is non-empty and trimmed:
    it neither starts nor ends with white space, so trimming it again
    changes nothing. *)
Theorem chunkText_chunks_are_trimmed (text : string) (options : ChunkOptions) :
  Forall
    (λ chunk,
       chunk ≠ EmptyString
       ∧ startsBlank chunk = false
       ∧ endsBlank chunk = false
       ∧ trim chunk = chunk)
    (chunkText text options).
Proof.
  eapply Forall_impl; [apply chunkText_trimmed|].
  intros chunk [Hne Htrim]. split; [done|]. split; [|split; [|done]].
  - pose proof (trimEnd_startsClean _ (trimStart_startsClean chunk)) as Hclean.
    fold (trim chunk) in Hclean. rewrite Htrim in Hclean.
    destruct chunk as [|c chunk]; [done|]. exact Hclean.
  - rewrite <- Htrim. apply trimEnd_endsBlank.
Qed.

End ChunkInvariant.

Section SentenceFacts.

Import Indexer.

Lemma star_unfold a greedy k s :
  RegExp.star a greedy k s
  = match s with
    | EmptyString => k s
    | String c s' =>
        if RegExp.atomMatches a c then
          if greedy then RegExp.orElse (S <$> RegExp.star a greedy k s') (k s)
          else RegExp.orElse (k s) (S <$> RegExp.star a greedy k s')
        else k s
    end.
Proof. by destruct s. Qed.

(** A greedy star takes the whole run of matching characters when the
    rest of the pattern matches after it. *)
Lemma star_greedy_run a k u v m :
  allChars (RegExp.atomMatches a) u →
  stopsAt (RegExp.atomMatches a) v →
  k v = Some m →
  RegExp.star a true k (u +:+ v) = Some (String.length u + m).
Proof.
  intros Hu Hv Hk. induction u as [|c u IH].
  - rewrite append_nil_l, star_unfold. destruct v as [|c v]; [done|].
    simpl in Hv. by rewrite Hv.
  - apply Forall_cons in Hu as [Hc Hu]. rewrite append_cons, star_unfold, Hc.
    by rewrite (IH Hu).
Qed.

Lemma sentence_head c : RegExp.atomMatches (RegExp.Class true ["."; "!"; "?"]%char) c
                        = nonTerminator c.
Proof. done. Qed.

Lemma sentence_tail c : RegExp.atomMatches (RegExp.Class false ["."; "!"; "?"]%char) c
                        = terminator c.
Proof. done. Qed.

Lemma matchAt_sentence_unfold s :
  RegExp.matchAt RegExp.sentence s
  = RegExp.step (RegExp.Class true ["."; "!"; "?"]%char)
      (RegExp.star (RegExp.Class true ["."; "!"; "?"]%char) true
         (RegExp.step (RegExp.Class false ["."; "!"; "?"]%char)
            (RegExp.star (RegExp.Class false ["."; "!"; "?"]%char) true (λ _, Some 0))))
      s.
Proof. done. Qed.

Lemma stopsAt_app f t rest : t ≠ EmptyString → allChars (λ c, negb (f c)) t →
  stopsAt f (t +:+ rest).
Proof.
  destruct t as [|c t]; [done|]. intros _ [Hc _]%Forall_cons.
  rewrite append_cons. simpl. by apply negb_true_iff in Hc.
Qed.

(** A run of other characters followed by a run of terminators is one
    match of the sentence pattern. *)
Lemma matchAt_sentence n t rest :
  n ≠ EmptyString → t ≠ EmptyString →
  allChars nonTerminator n → allChars terminator t → stopsAt terminator rest →
  RegExp.matchAt RegExp.sentence (n +:+ t +:+ rest)
  = Some (String.length n + String.length t).
Proof.
  intros Hn Ht Hnon Hterm Hrest. rewrite matchAt_sentence_unfold.
  destruct n as [|c n]; [done|]. apply Forall_cons in Hnon as [Hc Hnon].
  rewrite append_cons. cbn [RegExp.step]. rewrite sentence_head, Hc.
  rewrite (star_greedy_run _ _ n (t +:+ rest) (String.length t)).
  - done.
  - eapply Forall_impl; [exact Hnon|]. intros x Hx. by rewrite sentence_head.
  - destruct t as [|d t]; [done|]. apply Forall_cons in Hterm as [Hd _].
    rewrite append_cons. simpl. unfold nonTerminator in *. cbn. 
    change (negb (terminator d) = false). by rewrite Hd.
  - destruct t as [|d t]; [done|]. apply Forall_cons in Hterm as [Hd Hterm].
    rewrite append_cons. cbn [RegExp.step]. rewrite sentence_tail, Hd.
    rewrite (star_greedy_run _ _ t rest 0).
    + simpl. f_equal. lia.
    + eapply Forall_impl; [exact Hterm|]. intros x Hx. by rewrite sentence_tail.
    + destruct rest as [|x rest]; [done|]. exact Hrest.
    + done.
Qed.

Lemma star_nonTerminators s :
  allChars nonTerminator s →
  RegExp.star (RegExp.Class true ["."; "!"; "?"]%char) true
    (RegExp.step (RegExp.Class false ["."; "!"; "?"]%char)
       (RegExp.star (RegExp.Class false ["."; "!"; "?"]%char) true (λ _, Some 0)))
    s = None.
Proof.
  induction s as [|c s IH]; [done|]. intros [Hc Hs]%Forall_cons.
  rewrite star_unfold, sentence_head, Hc, (IH Hs). cbn [RegExp.step RegExp.orElse fmap option_fmap option_map].
  rewrite sentence_tail. unfold nonTerminator in Hc. apply negb_true_iff in Hc.
  by rewrite Hc.
Qed.

Lemma matchAt_sentence_none s :
  allChars nonTerminator s → RegExp.matchAt RegExp.sentence s = None.
Proof.
  intros Hs. rewrite matchAt_sentence_unfold. destruct s as [|c s]; [done|].
  apply Forall_cons in Hs as [Hc Hs]. cbn [RegExp.step].
  by rewrite sentence_head, Hc, (star_nonTerminators s Hs).
Qed.

Lemma matchAllFrom_cons p skip c s :
  RegExp.matchAllFrom p skip (String c s)
  = match skip with
    | S k => RegExp.matchAllFrom p k s
    | 0 =>
        match RegExp.matchAt p (String c s) with
        | Some n => substring 0 n (String c s) :: RegExp.matchAllFrom p (pred n) s
        | None => RegExp.matchAllFrom p 0 s
        end
    end.
Proof. by destruct skip. Qed.

Lemma matchAll_sentence_none s :
  allChars nonTerminator s → RegExp.matchAllFrom RegExp.sentence 0 s = [].
Proof.
  induction s as [|c s IH]; [done|]. intros Hs.
  rewrite matchAllFrom_cons, (matchAt_sentence_none _ Hs).
  apply Forall_cons in Hs as [_ Hs]. by apply IH.
Qed.

Lemma matchAllFrom_skip p u v :
  RegExp.matchAllFrom p (String.length u) (u +:+ v) = RegExp.matchAllFrom p 0 v.
Proof.
  induction u as [|c u IH]; [by rewrite append_nil_l|].
  by rewrite append_cons, matchAllFrom_cons.
Qed.

Lemma substring_app u v : substring 0 (String.length u) (u +:+ v) = u.
Proof.
  induction u as [|c u IH]; [by destruct v|]. rewrite append_cons. simpl. by rewrite IH.
Qed.

(** One sentence and an unterminated rest: the rest is not matched. *)
Lemma matchAll_sentence_one n t rest :
  n ≠ EmptyString → t ≠ EmptyString →
  allChars nonTerminator n → allChars terminator t → allChars nonTerminator rest →
  RegExp.matchAll RegExp.sentence (n +:+ t +:+ rest) = [n +:+ t].
Proof.
  intros Hn Ht Hnon Hterm Hrest. unfold RegExp.matchAll.
  assert (Hstop : stopsAt terminator rest).
  { destruct rest as [|c rest]; [done|]. apply Forall_cons in Hrest as [Hc _].
    simpl. by apply negb_true_iff in Hc. }
  pose proof (matchAt_sentence n t rest Hn Ht Hnon Hterm Hstop) as Hm.
  destruct n as [|c n]; [done|].
  rewrite append_cons in Hm |- *. rewrite matchAllFrom_cons, Hm. f_equal.
  - by rewrite <- length_append, <- append_cons, <- append_assoc, substring_app.
  - change (pred (String.length (String c n) + String.length t))
      with (String.length n + String.length t).
    rewrite <- length_append, <- append_assoc, matchAllFrom_skip.
    by apply matchAll_sentence_none.
Qed.

Lemma splitFrom_unbroken separator cur s :
  unbroken separator s → JS.splitFrom separator 0 cur s = [cur +:+ s].
Proof.
  unfold unbroken. revert cur. induction s as [|c s IH]; intros cur Hs.
  - simpl. by rewrite append_nil_r.
  - rewrite includes_unfold in Hs.
    destruct (String.prefix separator (String c s)) eqn:Hp; [done|].
    rewrite splitFrom_cons, Hp, (IH _ Hs). by rewrite append_assoc.
Qed.

Lemma split_unbroken separator s : unbroken separator s → JS.split separator s = [s].
Proof.
  intros Hs. unfold JS.split. destruct separator as [|c separator].
  - unfold unbroken in Hs. rewrite includes_unfold in Hs. by destruct s.
  - by rewrite splitFrom_unbroken, append_nil_l.
Qed.

Lemma terminator_not_whiteSpace c : terminator c = true → isWhiteSpace c = false.
Proof.
  unfold terminator. simpl. rewrite !orb_true_iff.
  intros [Hc|[Hc|[Hc|Hc]]]; [| | |done]; apply Ascii.eqb_eq in Hc; by subst.
Qed.

Lemma keep_nonEmpty chunk :
  List.filter (λ chunk, 0 <? String.length chunk) [chunk]
  = if nonEmpty chunk then [chunk] else [].
Proof. by destruct chunk. Qed.

(** The chunks of a text that is one oversize section, given the
    sentences found in it. *)
Lemma chunkText_one_sentence text sentence options :
  let size := default 1000 (chunkSize options) in
  let sep := default (String LF (String LF EmptyString)) (separator options) in
  unbroken sep text →
  size < String.length text →
  match RegExp.matchAll RegExp.sentence text with
  | [] => [text]
  | found => found
  end = [sentence] →
  sentence ≠ EmptyString →
  chunkText text options = if nonEmpty (trim sentence) then [trim sentence] else [].
Proof.
  intros size sep Hsep Hlen Hfound Hne. unfold chunkText. fold size sep.
  rewrite (split_unbroken _ _ Hsep). cbn [fold_left]. unfold addSection.
  apply Nat.ltb_lt in Hlen. rewrite Hlen. cbn [nonEmpty String.eqb negb].
  rewrite Hfound. cbn [fold_left]. unfold addSentence. cbn [nonEmpty String.eqb negb].
  destruct (size <? String.length EmptyString + String.length sentence);
    rewrite ?append_nil_l; cbn [snd]; rewrite (proj2 (nonEmpty_true sentence) Hne);
    cbn [pushCurrent app]; apply keep_nonEmpty.
Qed.

(** X16. In a section longer than the chunk size, the text that follows
    the last sentence terminator is lost: for a text without the
    separator, longer than the chunk size and made of a run of other
    characters, a run of terminators ([.], [!], [?]) and an unterminated
    rest, [chunkText] returns the sentence alone, and the rest is in no
    chunk. *)
Theorem chunkText_drops_unterminated_rest (n t rest : string) (options : ChunkOptions) :
  let text := n +:+ t +:+ rest in
  let size := default 1000 (chunkSize options) in
  let sep := default (String LF (String LF EmptyString)) (separator options) in
  n ≠ EmptyString → t ≠ EmptyString →
  allChars nonTerminator n → allChars terminator t → allChars nonTerminator rest →
  unbroken sep text →
  size < String.length text →
  chunkText text options = [trim (n +:+ t)].
Proof.
  intros text size sep Hn Ht Hnon Hterm Hrest Hsep Hlen.
  rewrite (chunkText_one_sentence text (n +:+ t) options Hsep Hlen).
  - destruct (nonEmpty (trim (n +:+ t))) eqn:Htrim; [done|].
    apply nonEmpty_false, trim_empty, allChars_app in Htrim as [_ Hws].
    destruct t as [|d t]; [done|].
    apply Forall_cons in Hws as [Hd _]. apply Forall_cons in Hterm as [Hd' _].
    apply terminator_not_whiteSpace in Hd'. congruence.
  - unfold text. by rewrite (matchAll_sentence_one n t rest).
  - destruct n; [done|]. by rewrite append_cons.
Qed.

Lemma chunkText_drops_unterminated_rest_witness :
  chunkText "Ship it today. and tell the team" (mkOptions (Some 20) None None)
  = ["Ship it today."].
Proof.
  apply (chunkText_drops_unterminated_rest "Ship it today" "." " and tell the team"
           (mkOptions (Some 20) None None)).
  - done.
  - done.
  - unfold allChars. simpl. repeat constructor.
  - unfold allChars. simpl. repeat constructor.
  - unfold allChars. simpl. repeat constructor.
  - reflexivity.
  - simpl. lia.
Defined.

(** X17. The chunk size is no upper bound on a chunk.  A section that is
    longer than the chunk size and holds no sentence terminator is never
    split: for such a text without the separator, [chunkText] returns the
    whole trimmed text as its only chunk, so a text without white space
    around it comes back as one chunk longer than the chunk size. *)
Theorem chunkText_keeps_unterminated_section_whole (text : string)
    (options : ChunkOptions) :
  let size := default 1000 (chunkSize options) in
  let sep := default (String LF (String LF EmptyString)) (separator options) in
  allChars nonTerminator text →
  unbroken sep text →
  size < String.length text →
  chunkText text options = (if nonEmpty (trim text) then [trim text] else [])
  ∧ (trim text = text →
     chunkText text options = [text]
     ∧ Forall (λ chunk, size < String.length chunk) (chunkText text options)).
Proof.
  intros size sep Hnon Hsep Hlen.
  assert (Hne : text ≠ EmptyString).
  { intros ->. simpl in Hlen. lia. }
  assert (Hchunks : chunkText text options
                    = if nonEmpty (trim text) then [trim text] else []).
  { apply (chunkText_one_sentence text text options Hsep Hlen); [|done].
    unfold RegExp.matchAll. by rewrite matchAll_sentence_none. }
  split; [done|]. intros Htrim. rewrite Hchunks, Htrim.
  rewrite (proj2 (nonEmpty_true text) Hne). split; [done|].
  by repeat constructor.
Qed.

Lemma chunkText_keeps_unterminated_section_whole_witness :
  chunkText "one long line without a full stop" (mkOptions (Some 10) None None)
  = ["one long line without a full stop"].
Proof.
  destruct (chunkText_keeps_unterminated_section_whole "one long line without a full stop"
              (mkOptions (Some 10) None None)) as [_ Hwhole].
  - unfold allChars. simpl. repeat constructor.
  - reflexivity.
  - simpl. lia.
  - by destruct (Hwhole eq_refl).
Defined.

End SentenceFacts.

(** ** Symmetries of the cosine similarity *)

Section CosineFacts.

Lemma dot_comm v w : dot v w = dot w v.
Proof.
  revert w. induction v as [|x v IH]; intros [|y w]; simpl; [done..|].
  rewrite (IH w). lra.
Qed.

Lemma dot_opp v w : dot (map Ropp v) w = (- dot v w)%R.
Proof.
  revert w. induction v as [|x v IH]; intros [|y w]; simpl; [lra..|].
  rewrite (IH w). lra.
Qed.

Lemma magnitude_opp v : magnitude (map Ropp v) = magnitude v.
Proof.
  unfold magnitude. f_equal. induction v as [|x v IH]; simpl; [done|].
  rewrite IH. lra.
Qed.

(** X20. Cosine similarity does not depend on the order of its
    arguments: two vectors of one length get the same number in both
    orders, two vectors of different lengths the same error.  Changing
    the sign of every component of one vector changes the sign of the
    similarity and nothing else. *)
Theorem cosineSimilarity_symmetric (v w : list R) :
  cosineSimilarity v w = cosineSimilarity w v
  ∧ (∀ s, cosineSimilarity v w = Ok s →
       cosineSimilarity (map Ropp v) w = Ok (- s)%R)
  ∧ (∀ e, cosineSimilarity v w = Throw e →
       cosineSimilarity (map Ropp v) w = Throw e).
Proof.
  destruct (decide (length v = length w)) as [Hlen|Hlen].
  - assert (Hlen' : length (map Ropp v) = length w) by by rewrite length_map.
    rewrite (cosineSimilarity_equal_length v w Hlen).
    rewrite (cosineSimilarity_equal_length w v (eq_sym Hlen)).
    rewrite (cosineSimilarity_equal_length _ w Hlen').
    rewrite magnitude_opp, dot_opp.
    destruct (decide (magnitude v = 0%R ∨ magnitude w = 0%R)) as [Hz|Hnz].
    + rewrite decide_True by tauto. split; [done|]. split; [|done].
      intros s [= <-]. f_equal. lra.
    + rewrite decide_False by tauto. split; [|split; [|done]].
      * by rewrite (dot_comm w v), (Rmult_comm (magnitude w)).
      * intros s [= <-]. f_equal. unfold Rdiv. ring.
  - rewrite (cosineSimilarity_mismatch v w Hlen).
    rewrite (cosineSimilarity_mismatch w v) by done.
    rewrite (cosineSimilarity_mismatch (map Ropp v) w) by by rewrite length_map.
    split; [done|]. split; [done|]. by intros e [= <-].
Qed.

Lemma cosineSimilarity_symmetric_witness :
  cosineSimilarity [-1; -0]%R [1; 0]%R = Ok (-1)%R.
Proof.
  destruct (cosineSimilarity_symmetric [1; 0]%R [1; 0]%R) as (_ & Hopp & _).
  apply (Hopp 1%R). rewrite cosineSimilarity_equal_length by done.
  rewrite decide_False.
  - f_equal. unfold magnitude. simpl.
    replace (1 * 1 + (0 * 0 + 0))%R with 1%R by lra. rewrite sqrt_1. lra.
  - unfold magnitude. simpl.
    replace (1 * 1 + (0 * 0 + 0))%R with 1%R by lra. rewrite sqrt_1. lra.
Defined.

End CosineFacts.

(** ** A unified search without failures *)

Section UnifiedSuccessFacts.

Import Unified.

Context {hit : Type} (similarity : hit → R).

Implicit Type ps : list (string * result (SourceResult hit)).

Lemma noted_answered ps (st : Collected hit) :
  Forall (λ p, answered p.2) ps → errors (foldl noted st ps) = errors st.
Proof.
  intros Hall. revert st. induction Hall as [|[n o] ps [found Ho] _ IH]; intros st; [done|].
  simpl in Ho. subst o. simpl. by rewrite IH.
Qed.

(** X21. A unified search of a non-empty query in which every searched
    source answers returns with [errors] undefined.  Only the names
    [discord], [docs] and [knowledge] are searched; other names in
    [sources] are ignored, though echoed in [sources_searched].
    [source_counts] gives for each searched source the [total_results]
    of its own response, and 0 for a source that was not searched, while
    [total_results] counts the merged list after its truncation, so it
    can be less than the sum of the counts.  Every result carries the
    name of a searched source. *)
Theorem unifiedSemanticSearch_counts_sources_before_merging (handlers : Handlers hit)
    (params : Params) :
  let query := Unified.query params in
  let sources := default ["discord"; "docs"; "knowledge"] (Unified.sources params) in
  let limit := default 20 (Unified.limit params) in
  let searched := searchPromises handlers query sources limit in
  let candidates := concat (map taggedOf searched) in
  nonEmpty query = true →
  Forall (λ p, answered p.2) searched →
  ∃ response,
    unifiedSemanticSearch similarity handlers params = Ok response
    ∧ response_errors response = None
    ∧ sources_searched response = sources
    ∧ response_total_results response = limit `min` length candidates
    ∧ length (response_results response) = response_total_results response
    ∧ (∀ name found,
         (name, Ok found) ∈ searched →
         name ∈ sources ∧ source_counts response !! name = Some (total_results found))
    ∧ (∀ name,
         name ∈ ["discord"; "docs"; "knowledge"] → name ∉ sources →
         source_counts response !! name = Some 0)
    ∧ (∀ t, t ∈ response_results response →
            source t ∈ sources ∧ source t ∈ ["discord"; "docs"; "knowledge"]).
Proof.
  intros query sources limit searched candidates Hquery Hall.
  destruct (searchPromises_names handlers query sources limit) as [Hnd Hknown].
  fold searched in Hnd, Hknown.
  assert (Hsettled : Forall (λ p, settled p.2) searched).
  { eapply Forall_impl; [exact Hall|]. by intros p [found ->]. }
  assert (Hrequested : ∀ name, name ∈ searched.*1 → name ∈ sources).
  { intros name. unfold searched, searchPromises. rewrite !fmap_app, !elem_of_app.
    intros [Hin|[Hin|Hin]]; case_bool_decide as Hs;
      try (by apply elem_of_nil in Hin);
      apply list_elem_of_singleton in Hin; by subst. }
  set (st := foldl noted (mkCollected ∅ ∅) searched).
  eexists. unfold unifiedSemanticSearch. fold query sources limit searched.
  rewrite Hquery. simpl. rewrite (settleAll_fold searched _ Hsettled). simpl.
  fold st candidates.
  split; [reflexivity|]. simpl.
  split.
  { unfold st. rewrite (noted_answered searched _ Hall). simpl. by rewrite decide_True. }
  split; [done|].
  assert (Hlen : length (slice0 limit (sortBy (bySimilarity similarity) candidates))
                 = limit `min` length candidates).
  { unfold slice0. by rewrite length_take, sortBy_length. }
  split; [done|]. split; [done|]. split; [|split].
  - intros name found Hin.
    assert (Hname : name ∈ searched.*1).
    { apply list_elem_of_fmap. by exists (name, Ok found). }
    split; [by apply Hrequested|].
    rewrite (source_counts_lookup (countOf st)) by (by apply Hknown).
    destruct (noted_ok searched (mkCollected ∅ ∅) name found Hnd Hin) as [Hres _].
    fold st in Hres. unfold countOf. by rewrite Hres.
  - intros name Hknown' Hnot.
    rewrite (source_counts_lookup (countOf st)) by done.
    assert (Habsent : name ∉ searched.*1) by (intros Hin; by apply Hnot, Hrequested).
    destruct (noted_absent searched (mkCollected ∅ ∅) name Habsent) as [Hres _].
    fold st in Hres. simpl in Hres. unfold countOf. by rewrite Hres, lookup_empty.
  - intros t Ht. unfold slice0 in Ht. apply (subseteq_take limit) in Ht.
    rewrite (sortBy_perm (bySimilarity similarity) candidates) in Ht.
    apply taggedOf_source in Ht as [response Ht].
    assert (Hname : source t ∈ searched.*1).
    { apply list_elem_of_fmap. by exists (source t, Ok response). }
    split; [by apply Hrequested | by apply Hknown].
Qed.

End UnifiedSuccessFacts.

Lemma unifiedSemanticSearch_counts_sources_before_merging_witness :
  ∃ response,
    Unified.unifiedSemanticSearch Unified.similarityOf sampleHandlers
      (Unified.mkParams "release" (Some ["docs"; "wiki"]) (Some 1)) = Ok response
    ∧ Unified.response_errors response = None
    ∧ Unified.source_counts response !! "discord" = Some 0.
Proof.
  destruct (sampleHandlers_healthy "release" 1 eq_refl) as [found Hfound].
  destruct (unifiedSemanticSearch_counts_sources_before_merging Unified.similarityOf
              sampleHandlers
              (Unified.mkParams "release" (Some ["docs"; "wiki"]) (Some 1)))
    as (response & Hr & He & _ & _ & _ & _ & Hzero & _).
  - done.
  - unfold Unified.searchPromises. simpl. constructor; [|constructor].
    simpl. rewrite Hfound. by exists found.
  - exists response. split; [done|]. split; [done|].
    apply Hzero; [by left|]. simpl.
    rewrite !elem_of_cons, elem_of_nil. by intros [?|[?|?]].
Defined.

(** ** The text kept by the chunks *)

Section KeptTextFacts.

Import Indexer.

Lemma withoutWhiteSpace_app s t :
  withoutWhiteSpace (s +:+ t) = withoutWhiteSpace s +:+ withoutWhiteSpace t.
Proof.
  induction s as [|c s IH]; [by rewrite !append_nil_l|].
  rewrite append_cons. simpl. destruct (isWhiteSpace c); [done|].
  by rewrite append_cons, IH.
Qed.

Lemma withoutWhiteSpace_blank s : allChars isWhiteSpace s → withoutWhiteSpace s = EmptyString.
Proof.
  induction s as [|c s IH]; [done|]. intros [Hc Hs]%Forall_cons. simpl.
  rewrite Hc. by apply IH.
Qed.

Lemma withoutWhiteSpace_trimStart s : withoutWhiteSpace (trimStart s) = withoutWhiteSpace s.
Proof.
  induction s as [|c s IH]; [done|]. simpl.
  destruct (isWhiteSpace c) eqn:Hc; [done|]. simpl. by rewrite Hc.
Qed.

Lemma withoutWhiteSpace_trimEnd s : withoutWhiteSpace (trimEnd s) = withoutWhiteSpace s.
Proof.
  induction s as [|c s IH]; [done|]. rewrite trimEnd_cons.
  destruct (trimEnd s) as [|c' r] eqn:Hr.
  - change (withoutWhiteSpace EmptyString) with EmptyString in IH.
    cbn [withoutWhiteSpace]. rewrite <- IH.
    destruct (isWhiteSpace c) eqn:Hc; [done|]. cbn [withoutWhiteSpace]. by rewrite Hc.
  - change (withoutWhiteSpace (String c (String c' r)))
      with (if isWhiteSpace c then withoutWhiteSpace (String c' r)
            else String c (withoutWhiteSpace (String c' r))).
    rewrite IH. done.
Qed.

Lemma withoutWhiteSpace_trim s : withoutWhiteSpace (trim s) = withoutWhiteSpace s.
Proof. unfold trim. by rewrite withoutWhiteSpace_trimEnd, withoutWhiteSpace_trimStart. Qed.

Lemma concatAll_app xs ys : concatAll (xs ++ ys) = concatAll xs +:+ concatAll ys.
Proof.
  induction xs as [|x xs IH]; simpl; [by rewrite append_nil_l|].
  by rewrite IH, append_assoc.
Qed.

Lemma concatAll_filter xs :
  concatAll (List.filter (λ chunk, 0 <? String.length chunk) xs) = concatAll xs.
Proof.
  induction xs as [|x xs IH]; [done|]. simpl.
  destruct x as [|c x]; simpl; [by rewrite append_nil_l in * |]. by rewrite IH.
Qed.

Lemma withoutWhiteSpace_join separator sections :
  allChars isWhiteSpace separator →
  withoutWhiteSpace (join separator sections) = withoutWhiteSpace (concatAll sections).
Proof.
  intros Hws. induction sections as [|x [|y xs] IH].
  - done.
  - simpl. by rewrite append_nil_r.
  - rewrite join_cons. cbn [concatAll] in *.
    rewrite !withoutWhiteSpace_app, IH, (withoutWhiteSpace_blank _ Hws).
    by rewrite append_nil_l, withoutWhiteSpace_app.
Qed.

Lemma heldText_pushCurrent st :
  withoutWhiteSpace (concatAll (pushCurrent st).1) = heldText st.
Proof.
  destruct st as [chunks cur]. unfold heldText. simpl.
  rewrite concatAll_app, withoutWhiteSpace_app. simpl.
  by rewrite append_nil_r, withoutWhiteSpace_trim.
Qed.

Lemma heldText_addSection size separator st section :
  allChars isWhiteSpace separator →
  String.length section ≤ size →
  heldText (addSection size separator st section)
  = heldText st +:+ withoutWhiteSpace section.
Proof.
  intros Hws Hfits. unfold addSection. destruct st as [chunks cur].
  replace (size <? String.length section) with false
    by (symmetry; apply Nat.ltb_ge; lia).
  destruct (size <? String.length cur + String.length section).
  - unfold heldText at 1. cbn [fst snd].
    by rewrite (heldText_pushCurrent (chunks, cur)).
  - unfold heldText. cbn [fst snd]. rewrite !withoutWhiteSpace_app.
    destruct (nonEmpty cur).
    + by rewrite (withoutWhiteSpace_blank _ Hws), append_nil_l, append_assoc.
    + simpl. by rewrite append_nil_l, append_assoc.
Qed.

Lemma heldText_fold size separator sections st :
  allChars isWhiteSpace separator →
  Forall (λ section, String.length section ≤ size) sections →
  heldText (fold_left (addSection size separator) sections st)
  = heldText st +:+ withoutWhiteSpace (concatAll sections).
Proof.
  intros Hws Hall. revert st. induction Hall as [|x xs Hx _ IH]; intros st.
  - simpl. by rewrite append_nil_r.
  - simpl. rewrite IH, heldText_addSection by done.
    by rewrite withoutWhiteSpace_app, append_assoc.
Qed.

(** X22. When the separator is white space (as the default one is) and
    no section is longer than the chunk size, no text is lost or
    reordered: the chunks of [chunkText], read one after the other,
    hold the characters of the text in their order, white space apart. *)
Theorem chunkText_keeps_text_of_fitting_sections (text : string) (options : ChunkOptions) :
  let size := default 1000 (chunkSize options) in
  let sep := default (String LF (String LF EmptyString)) (separator options) in
  allChars isWhiteSpace sep →
  Forall (λ section, String.length section ≤ size) (JS.split sep text) →
  withoutWhiteSpace (concatAll (chunkText text options)) = withoutWhiteSpace text.
Proof.
  intros size sep Hws Hall. unfold chunkText. fold size sep.
  set (st := fold_left (addSection size sep) (JS.split sep text) ([], EmptyString)).
  assert (Hheld : heldText st = withoutWhiteSpace text).
  { unfold st. rewrite heldText_fold by done. unfold heldText. simpl.
    rewrite append_nil_l, <- (withoutWhiteSpace_join sep) by done.
    by rewrite join_split. }
  clearbody st. destruct (nonEmpty st.2) eqn:Hcur.
  - pose proof (heldText_pushCurrent st) as Hpush.
    destruct (pushCurrent st) as [chunks cur]. simpl in Hpush.
    by rewrite concatAll_filter, Hpush.
  - destruct st as [chunks cur]. simpl in Hcur. apply nonEmpty_false in Hcur. subst cur.
    unfold heldText in Hheld. simpl in Hheld. rewrite append_nil_r in Hheld.
    by rewrite concatAll_filter.
Qed.

Lemma chunkText_keeps_text_of_fitting_sections_witness :
  withoutWhiteSpace
    (concatAll (chunkText "alpha beta  gamma" (mkOptions (Some 10) None (Some " "))))
  = "alphabetagamma".
Proof.
  rewrite (chunkText_keeps_text_of_fitting_sections "alpha beta  gamma"
             (mkOptions (Some 10) None (Some " "))).
  - reflexivity.
  - unfold allChars. simpl. repeat constructor.
  - vm_compute. repeat constructor; lia.
Defined.

End KeptTextFacts.

(** ** Keywords of a query with white space around it *)

Section BlankKeywordFacts.

Import Discord.

Lemma matchAll_empty_pattern s :
  length (RegExp.matchAllFrom [] 0 s) = S (String.length s).
Proof. induction s as [|c s IH]; [done|]. simpl. by rewrite IH. Qed.

Lemma countMatches_empty_keyword text :
  RegExp.countMatches EmptyString text = Ok (S (String.length text)).
Proof.
  unfold RegExp.countMatches, RegExp.matchAll. simpl. by rewrite matchAll_empty_pattern.
Qed.

Lemma countKeywordMatches_empty_keyword text score keywords :
  Forall compiles keywords →
  ∃ total,
    countKeywordMatches text score keywords = Ok total
    ∧ score ≤ total
    ∧ (EmptyString ∈ keywords → score + S (String.length text) ≤ total).
Proof.
  intros Hall. revert score.
  induction Hall as [|kw kws [p Hp] _ IH]; intros score; simpl.
  - exists score. split; [done|]. split; [done|]. by intros ?%elem_of_nil.
  - unfold RegExp.countMatches at 1. rewrite Hp. simpl.
    destruct (IH (score + length (RegExp.matchAll p text))) as (total & -> & Hle & Hin).
    exists total. split; [done|]. split; [lia|].
    intros [<-|Hkw]%elem_of_cons.
    + pose proof (countMatches_empty_keyword text) as Hc.
      unfold RegExp.countMatches in Hc. rewrite Hp in Hc. injection Hc as Hc. lia.
    + specialize (Hin Hkw). lia.
Qed.

Lemma star_blankRun s :
  RegExp.star (RegExp.Class false whiteSpace) true (λ _, Some 0) s = Some (blankRun s).
Proof.
  induction s as [|c s IH]; [done|]. rewrite star_unfold.
  change (RegExp.atomMatches (RegExp.Class false whiteSpace) c) with (isWhiteSpace c).
  cbn [blankRun]. destruct (isWhiteSpace c); [|done]. by rewrite IH.
Qed.

Lemma matchAt_whiteSpaceRun s :
  RegExp.matchAt RegExp.whiteSpaceRun s
  = match s with
    | String c s' => if isWhiteSpace c then Some (S (blankRun s')) else None
    | EmptyString => None
    end.
Proof.
  destruct s as [|c s]; [done|]. unfold RegExp.whiteSpaceRun. cbn [RegExp.matchAt RegExp.step].
  change (RegExp.atomMatches (RegExp.Class false whiteSpace) c) with (isWhiteSpace c).
  destruct (isWhiteSpace c); [|done]. by rewrite star_blankRun.
Qed.

Lemma regexp_splitFrom_cons p cur skip c s :
  RegExp.splitFrom p cur skip (String c s)
  = match skip with
    | S k => RegExp.splitFrom p cur k s
    | 0 =>
        match RegExp.matchAt p (String c s) with
        | None => RegExp.splitFrom p (cur +:+ String c EmptyString) 0 s
        | Some 0 =>
            if nonEmpty cur then cur :: RegExp.splitFrom p (String c EmptyString) 0 s
            else RegExp.splitFrom p (String c EmptyString) 0 s
        | Some (S k) => cur :: RegExp.splitFrom p EmptyString k s
        end
    end.
Proof. by destruct skip. Qed.

Lemma last_cons_Some {A : Type} (x y : A) l : last l = Some y → last (x :: l) = Some y.
Proof. destruct l; [done|]. done. Qed.

Lemma endsBlank_cons c s : s ≠ EmptyString → endsBlank (String c s) = endsBlank s.
Proof. unfold endsBlank. simpl. by destruct s. Qed.

(** A text that ends with white space ends, once split, with an empty
    piece. *)
Lemma splitFrom_endsBlank s :
  ∀ cur skip,
    endsBlank s = true →
    skip = 0 ∨ (cur = EmptyString ∧ skip = blankRun s) →
    last (RegExp.splitFrom RegExp.whiteSpaceRun cur skip s) = Some EmptyString.
Proof.
  induction s as [|c s IH]; intros cur skip Hend Hskip; [done|].
  rewrite regexp_splitFrom_cons. destruct skip as [|k].
  - rewrite matchAt_whiteSpaceRun. destruct (isWhiteSpace c) eqn:Hc.
    + apply last_cons_Some. destruct s as [|c' s]; [done|].
      apply IH; [by rewrite endsBlank_cons in Hend | by right].
    + destruct s as [|c' s].
      * unfold endsBlank in Hend. simpl in Hend. congruence.
      * apply IH; [by rewrite endsBlank_cons in Hend | by left].
  - destruct Hskip as [?|[-> Hrun]]; [done|]. simpl in Hrun.
    destruct (isWhiteSpace c); [|done]. injection Hrun as ->.
    destruct s as [|c' s]; [done|].
    apply IH; [by rewrite endsBlank_cons in Hend | by right].
Qed.

Lemma split_blank_keyword s :
  startsBlank s = true ∨ endsBlank s = true →
  EmptyString ∈ RegExp.split RegExp.whiteSpaceRun s.
Proof.
  intros Hblank. destruct s as [|c s]; [by destruct Hblank|].
  unfold RegExp.split. destruct Hblank as [Hstart|Hend].
  - rewrite regexp_splitFrom_cons, matchAt_whiteSpaceRun. simpl in Hstart.
    rewrite Hstart. by left.
  - pose proof (splitFrom_endsBlank (String c s) EmptyString 0 Hend (or_introl eq_refl))
      as Hlast.
    apply last_Some in Hlast as [l ->]. apply elem_of_app. right. by left.
Qed.

Lemma lowerChar_whiteSpace c : isWhiteSpace c = true → lowerChar c = c.
Proof.
  unfold isWhiteSpace, whiteSpace. simpl. rewrite !orb_true_iff.
  intros [Hc|[Hc|[Hc|[Hc|[Hc|[Hc|Hc]]]]]]; [| | | | | |done];
    apply Ascii.eqb_eq in Hc; by subst.
Qed.

Lemma isWhiteSpace_lowerChar c : isWhiteSpace (lowerChar c) = isWhiteSpace c.
Proof.
  destruct (isWhiteSpace c) eqn:Hc.
  - by rewrite (lowerChar_whiteSpace c Hc).
  - unfold lowerChar. destruct (_ && _) eqn:Hup; [|done].
    apply andb_true_iff in Hup as [Hlo Hhi].
    apply Nat.leb_le in Hlo, Hhi.
    remember (nat_of_ascii c) as n eqn:Hn.
    assert (Hcases : n ∈ seq 65 26) by (apply elem_of_seq; lia).
    clear -Hcases. vm_compute in Hcases.
    repeat (apply elem_of_cons in Hcases as [->|Hcases]; [done|]).
    by apply elem_of_nil in Hcases.
Qed.

Lemma toLowerCase_startsBlank s : startsBlank (toLowerCase s) = startsBlank s.
Proof. destruct s as [|c s]; [done|]. simpl. apply isWhiteSpace_lowerChar. Qed.

Lemma lastChar_toLowerCase s : lastChar (toLowerCase s) = lowerChar <$> lastChar s.
Proof.
  induction s as [|c s IH]; [done|]. simpl toLowerCase.
  destruct s as [|c' s]; [done|]. exact IH.
Qed.

Lemma toLowerCase_endsBlank s : endsBlank (toLowerCase s) = endsBlank s.
Proof.
  unfold endsBlank. rewrite lastChar_toLowerCase.
  destruct (lastChar s) as [c|]; [|done]. simpl. apply isWhiteSpace_lowerChar.
Qed.

Lemma Rmin_saturated (total k : nat) :
  0 < k → 5 * k ≤ total → Rmin (INR total / INR k / 5) 1 = 1%R.
Proof.
  intros Hk Hle. apply Rmin_right.
  assert (Hk' : (0 < INR k)%R) by (by apply lt_0_INR).
  assert (Hle' : (5 * INR k <= INR total)%R).
  { apply le_INR in Hle. rewrite mult_INR in Hle. simpl in Hle. lra. }
  assert (Heq : (INR total / INR k / 5 * (5 * INR k) = INR total)%R) by (field; lra).
  set (x := (INR total / INR k / 5)%R) in *. clearbody x. nra.
Qed.

(** X23. White space at the start or at the end of the query puts the
    empty string among the keywords, and the empty pattern matches once
    at every position of a text.  So, when the keywords are patterns
    that compile, every candidate whose text has at least
    [5 * keywords - 1] characters gets the keyword score 1, whatever the
    text says: its blended score is
    [similarity * weight + (1 - weight)]. *)
Theorem blank_keyword_saturates_keyword_score (query : string) (semantic_weight : R)
    (h : Hit.t) (text : string) :
  let keywords := RegExp.split RegExp.whiteSpaceRun (toLowerCase query) in
  startsBlank query = true ∨ endsBlank query = true →
  Forall compiles keywords →
  Hit.text h = Some text →
  5 * length keywords ≤ S (String.length text) →
  EmptyString ∈ keywords
  ∧ ∃ hh,
      rescore keywords semantic_weight h = Ok hh
      ∧ keyword_score hh = 1%R
      ∧ hybrid_score hh
        = (Hit.similarity h * semantic_weight + (1 - semantic_weight))%R.
Proof.
  intros keywords Hblank Hcompile Htext Hlong.
  assert (Hin : EmptyString ∈ keywords).
  { apply split_blank_keyword.
    by rewrite toLowerCase_startsBlank, toLowerCase_endsBlank. }
  split; [done|].
  destruct (countKeywordMatches_empty_keyword (toLowerCase text) 0 keywords Hcompile)
    as (total & Htotal & _ & Hmany).
  specialize (Hmany Hin).
  assert (Hlen : String.length (toLowerCase text) = String.length text).
  { clear. induction text as [|c text IH]; [done|]. simpl. by rewrite IH. }
  rewrite Hlen in Hmany.
  assert (Hk : 0 < length keywords).
  { destruct keywords; [by apply elem_of_nil in Hin | simpl; lia]. }
  unfold rescore. rewrite Htext, Htotal. simpl. eexists. split; [done|]. simpl.
  rewrite Rmin_saturated by (done || lia). split; [done | lra].
Qed.

Lemma blank_keyword_saturates_keyword_score_witness :
  ∃ hh,
    rescore (RegExp.split RegExp.whiteSpaceRun (toLowerCase "release "))
      0.5%R (toHit question) = Ok hh
    ∧ keyword_score hh = 1%R.
Proof.
  destruct (blank_keyword_saturates_keyword_score "release " 0.5%R (toHit question)
              "What is this thing") as (_ & hh & Hok & Hscore & _).
  - by right.
  - vm_compute. repeat constructor; by eexists.
  - reflexivity.
  - vm_compute. lia.
  - by exists hh.
Defined.

End BlankKeywordFacts.

(** ** Indexing the knowledge base *)

Section KnowledgeIndexFacts.

Import Indexer.

Lemma getKnowledgeCluster_known relativePath cluster :
  IndexKnowledge.getKnowledgeCluster relativePath = Some cluster →
  cluster ∈ knownClusters.
Proof.
  unfold IndexKnowledge.getKnowledgeCluster, knownClusters.
  repeat case_match; try done; intros [= <-]; rewrite !elem_of_cons;
    repeat (first [left; reflexivity | right]).
Qed.

Lemma documentsOf_knowledge relativePath cluster section chunks :
  cluster ∈ knownClusters →
  Forall (λ chunk, chunk ≠ EmptyString ∧ trim chunk = chunk) chunks →
  Forall knowledgeDocument
    (IndexKnowledge.documentsOf relativePath cluster section chunks).
Proof.
  intros Hcluster Hchunks. unfold IndexKnowledge.documentsOf.
  apply Forall_forall. intros d Hd.
  apply list_elem_of_lookup in Hd as [i Hi].
  rewrite list_lookup_imap in Hi.
  destruct (chunks !! i) as [chunk|] eqn:Hchunk; [|done]. injection Hi as <-.
  rewrite Forall_forall in Hchunks.
  destruct (Hchunks chunk) as [Hne Htrim]; [by eapply list_elem_of_lookup_2|].
  unfold knowledgeDocument. cbn [Document.id Document.text Document.metadata].
  split.
  { rewrite truthy_Some. apply nonEmpty_true. intros Heq.
    apply (f_equal String.length) in Heq. rewrite !length_append in Heq.
    simpl in Heq. lia. }
  split; [done|]. split; [done|]. eexists. split; [done|].
  split; [by rewrite lookup_insert_eq|]. split.
  - rewrite lookup_insert_ne by done. rewrite lookup_insert_eq. by eexists.
  - exists cluster. split; [|done].
    rewrite !lookup_insert_ne by done. by rewrite lookup_insert_eq.
Qed.

Lemma processLoop_knowledge env filePaths documents result :
  Forall knowledgeDocument documents →
  IndexKnowledge.processLoop env filePaths documents = Ok result →
  Forall knowledgeDocument result.
Proof.
  revert documents. induction filePaths as [|filePath filePaths IH];
    intros documents Hdocs; simpl.
  - by intros [= <-].
  - destruct (IndexKnowledge.readFile env filePath) as [content| |]; simpl; [|done..].
    destruct (String.length (trim content) =? 0); [by apply IH|].
    destruct (IndexKnowledge.getKnowledgeCluster _) as [cluster|] eqn:Hcluster;
      [|by apply IH].
    apply IH. apply Forall_app. split; [done|].
    apply documentsOf_knowledge.
    + by eapply getKnowledgeCluster_known.
    + apply chunkText_trimmed.
Qed.

Lemma processLoop_parts env filePaths contents documents :
  Forall2 (λ filePath content, IndexKnowledge.readFile env filePath = Ok content)
    filePaths contents →
  IndexKnowledge.processLoop env filePaths documents
  = Ok (documents ++ concat (zip_with (documentsFrom env) filePaths contents)).
Proof.
  intros Hall. revert documents.
  induction Hall as [|filePath content filePaths contents Hread _ IH];
    intros documents; simpl.
  - by rewrite app_nil_r.
  - rewrite Hread. simpl. unfold documentsFrom at 1.
    destruct (String.length (trim content) =? 0); [by rewrite IH|].
    destruct (IndexKnowledge.getKnowledgeCluster _) as [cluster|]; [|by rewrite IH].
    rewrite IH. by rewrite <- app_assoc.
Qed.

Lemma processLoop_first_failure env readable filePath rest e documents :
  Forall (λ f, ∃ content, IndexKnowledge.readFile env f = Ok content) readable →
  IndexKnowledge.readFile env filePath = Throw e →
  IndexKnowledge.processLoop env (readable ++ filePath :: rest) documents = Throw e.
Proof.
  intros Hall Hfail. revert documents.
  induction Hall as [|f readable [content Hread] _ IH]; intros documents; simpl.
  - by rewrite Hfail.
  - rewrite Hread. simpl.
    destruct (String.length (trim content) =? 0); [apply IH|].
    destruct (IndexKnowledge.getKnowledgeCluster _); apply IH.
Qed.

Lemma getKnowledgeCluster_discord relativePath :
  IndexKnowledge.getKnowledgeCluster relativePath = None
  ↔ ∃ part parts,
      RegExp.split IndexKnowledge.pathSeparator relativePath = part :: parts
      ∧ toLowerCase part = "discord".
Proof.
  unfold IndexKnowledge.getKnowledgeCluster. split.
  - destruct (RegExp.split _ _) as [|part parts]; [done|].
    destruct (String.eqb (toLowerCase part) "discord") eqn:Heq.
    + intros _. exists part, parts. split; [done|]. by apply String.eqb_eq.
    + repeat case_match; done.
  - intros (part & parts & -> & ->). done.
Qed.

Lemma documentsFrom_skipped env filePath content :
  skippedFile env filePath content → documentsFrom env filePath content = [].
Proof.
  unfold skippedFile, documentsFrom. intros [-> | ->]; [done|].
  by destruct (String.length (trim content) =? 0).
Qed.

Lemma documentsFrom_chunks env filePath content :
  ¬ skippedFile env filePath content →
  ∃ cluster,
    IndexKnowledge.getKnowledgeCluster (IndexKnowledge.relativeToKnowledge env filePath)
    = Some cluster
    ∧ cluster ∈ knownClusters
    ∧ chunkDocuments env filePath content cluster (documentsFrom env filePath content).
Proof.
  unfold skippedFile, documentsFrom. intros Hkept.
  destruct (String.length (trim content) =? 0) eqn:Hblank.
  { exfalso. apply Hkept. left. apply Nat.eqb_eq in Hblank.
    by destruct (trim content). }
  destruct (IndexKnowledge.getKnowledgeCluster _) as [cluster|] eqn:Hcluster;
    [|exfalso; apply Hkept; by right].
  exists cluster. split; [done|]. split; [by eapply getKnowledgeCluster_known|].
  unfold chunkDocuments, IndexKnowledge.documentsOf. cbn zeta.
  split; [by rewrite length_imap|].
  intros i chunk Hi. rewrite list_lookup_imap, Hi. done.
Qed.

(** X24. When every file can be read, [processKnowledgeFiles] returns
    the documents of the files in the order of the files.  A file that
    is blank, or whose path under the knowledge directory starts with
    [discord] (in any letter case), adds no document, wherever it stands
    in the list.  Every other file adds one document for each chunk that
    [chunkText] makes of its content with chunk size 1000 and a blank
    line as separator, in the order of the chunks: chunk [i] has the
    identifier [<path>_chunk_<i>], the chunk as its text, and metadata
    with that text, the path of the file, its cluster (one of [ai],
    [company], [rules], [info-signals] and [general]), its section, [i]
    and the number of chunks of the file.  Every document has a
    non-empty, trimmed text.  The first file that cannot be read makes
    the whole call fail with the error of the read. *)
Theorem processKnowledgeFiles_documents (env : IndexKnowledge.Env)
    (filePaths : list string) :
  (∀ contents,
     Forall2 (λ filePath content, IndexKnowledge.readFile env filePath = Ok content)
       filePaths contents →
     ∃ parts,
       IndexKnowledge.processKnowledgeFiles env filePaths = Ok (concat parts)
       ∧ Forall knowledgeDocument (concat parts)
       ∧ length parts = length filePaths
       ∧ ∀ k filePath content part,
           filePaths !! k = Some filePath →
           contents !! k = Some content →
           parts !! k = Some part →
           (skippedFile env filePath content → part = [])
           ∧ (¬ skippedFile env filePath content →
              ∃ cluster,
                IndexKnowledge.getKnowledgeCluster
                  (IndexKnowledge.relativeToKnowledge env filePath) = Some cluster
                ∧ cluster ∈ knownClusters
                ∧ chunkDocuments env filePath content cluster part))
  ∧ (∀ readable filePath rest e,
       filePaths = readable ++ filePath :: rest →
       Forall (λ f, ∃ content, IndexKnowledge.readFile env f = Ok content) readable →
       IndexKnowledge.readFile env filePath = Throw e →
       IndexKnowledge.processKnowledgeFiles env filePaths = Throw e)
  ∧ (∀ relativePath,
       IndexKnowledge.getKnowledgeCluster relativePath = None
       ↔ ∃ part parts,
           RegExp.split IndexKnowledge.pathSeparator relativePath = part :: parts
           ∧ toLowerCase part = "discord").
Proof.
  unfold IndexKnowledge.processKnowledgeFiles. split; [|split].
  - intros contents Hall.
    exists (zip_with (documentsFrom env) filePaths contents).
    pose proof (processLoop_parts env filePaths contents [] Hall) as Hok.
    rewrite app_nil_l in Hok.
    split; [done|]. split; [by apply (processLoop_knowledge env filePaths [])|].
    split.
    { rewrite length_zip_with_l_eq; [done|]. by eapply Forall2_length. }
    intros k filePath content part Hf Hc Hp.
    rewrite lookup_zip_with, Hf in Hp. simpl in Hp. rewrite Hc in Hp.
    injection Hp as <-. split.
    + apply documentsFrom_skipped.
    + apply documentsFrom_chunks.
  - intros readable filePath rest e -> Hall Hfail.
    by apply processLoop_first_failure.
  - apply getKnowledgeCluster_discord.
Qed.

Lemma processKnowledgeFiles_documents_witness :
  ∃ parts,
    IndexKnowledge.processKnowledgeFiles sampleKnowledgeFiles ["context/rules/house.md"]
    = Ok (concat parts)
    ∧ Forall knowledgeDocument (concat parts)
    ∧ length parts = 1.
Proof.
  destruct (processKnowledgeFiles_documents sampleKnowledgeFiles
              ["context/rules/house.md"]) as (Hparts & _).
  destruct (Hparts ["# Rules of the house"]) as (parts & Hok & Hdocs & Hlen & _).
  - repeat constructor.
  - by exists parts.
Defined.

Lemma knowledge_filterLoop_located params n acc rs :
  Forall (λ r, located (metadata (doc r))) rs →
  Forall (λ h, is_Some (Knowledge.Hit.file_path h)
               ∧ is_Some (Knowledge.Hit.cluster h)
               ∧ is_Some (Knowledge.Hit.text h)) acc →
  ∃ out,
    Knowledge.filterLoop params n acc rs = Ok out
    ∧ Forall (λ h, is_Some (Knowledge.Hit.file_path h)
                   ∧ is_Some (Knowledge.Hit.cluster h)
                   ∧ is_Some (Knowledge.Hit.text h)) out.
Proof.
  intros Hall. revert acc.
  induction Hall as [|r rs (Hpath & Hcluster & Htext) _ IH]; intros acc Hacc; simpl.
  - by eexists.
  - assert (Hpass : ∃ b, Knowledge.passesFilters params (metadata (doc r)) = Ok b).
    { unfold Knowledge.passesFilters, Docs.pathIncludes.
      destruct (_ && _); [by eexists|].
      destruct (truthy (Knowledge.Params.file_path params)); [|by eexists].
      destruct Hpath as [path ->]. simpl. by eexists. }
    destruct Hpass as [b ->]. simpl. destruct b; [|by apply IH].
    assert (Hacc' : Forall (λ h, is_Some (Knowledge.Hit.file_path h)
                                 ∧ is_Some (Knowledge.Hit.cluster h)
                                 ∧ is_Some (Knowledge.Hit.text h))
                      (acc ++ [Knowledge.toHit r])).
    { apply Forall_app. split; [done|]. by repeat constructor. }
    destruct (n <=? length (acc ++ [Knowledge.toHit r])); [by eexists | by apply IH].
Qed.

(** X25. A collection indexed from the documents of
    [processKnowledgeFiles] can be searched with any filter: every
    record names its file, so the [file_path] filter of
    [knowledgeSemanticSearch] finds a [file_path] to examine and the
    search returns, and every result carries its [file_path], [cluster]
    and [text]. *)
Theorem knowledge_index_supports_every_filter (files : IndexKnowledge.Env)
    (filePaths : list string) (documents : list Document.t)
    (pipeline : result Embeddings.Model) (embedder : option Embeddings.Model)
    (model : Embeddings.Model) (options : IndexOptions) (vectors : list VectorRecord)
    (env : Knowledge.Env) (params : Knowledge.Params.t) (q : list R) :
  IndexKnowledge.processKnowledgeFiles files filePaths = Ok documents →
  0 < default 10 (batchSize options) →
  provides pipeline embedder model →
  (indexDocuments pipeline embedder documents options).2 = Ok vectors →
  Knowledge.vectors env = Ok vectors →
  nonEmpty (Knowledge.Params.query params) = true →
  Knowledge.generateEmbedding env (Knowledge.Params.query params) = Ok q →
  Forall (λ d, length q = length (embedding d)) vectors →
  Forall (λ v, located (metadata v)) vectors
  ∧ ∃ response,
      Knowledge.knowledgeSemanticSearch env params = Ok response
      ∧ Forall
          (λ h, is_Some (Knowledge.Hit.file_path h)
                ∧ is_Some (Knowledge.Hit.cluster h)
                ∧ is_Some (Knowledge.Hit.text h))
          (Knowledge.results response).
Proof.
  intros Hdocs Hb Hp Hindex Hv Hq He Hdim.
  assert (Hknow : Forall knowledgeDocument documents).
  { by apply (processLoop_knowledge files filePaths []). }
  assert (Hlocated : Forall (λ v, located (metadata v)) vectors).
  { unfold indexDocuments in Hindex.
    destruct (default 10 (batchSize options)) as [|b'] eqn:Hsize; [lia|].
    rewrite (batchLoop_result pipeline model) in Hindex by done.
    rewrite drop_0, take_ge in Hindex by (apply ceilDiv_covers; lia).
    destruct (mapM model (map Document.text documents)) as [es| |]; [|done..].
    injection Hindex as <-.
    apply Forall_forall. intros v Hin.
    apply list_elem_of_lookup in Hin as [i Hi].
    rewrite list_lookup_imap in Hi.
    destruct (zip documents es !! i) as [[d e]|] eqn:Hzip; [|done].
    injection Hi as <-. simpl.
    assert (Hd : d ∈ documents).
    { apply list_elem_of_lookup_2 in Hzip.
      by apply (elem_of_zip_l d e documents es). }
    rewrite Forall_forall in Hknow.
    destruct (Hknow d Hd) as (_ & _ & _ & meta & -> & Htext & Hpath & cluster & Hc & _).
    simpl. unfold located. rewrite Htext, Hc. by eauto. }
  split; [done|].
  unfold Knowledge.knowledgeSemanticSearch. rewrite Hq, Hv. simpl. rewrite He. simpl.
  destruct (vectorSearch_total q vectors (default 20 (Knowledge.Params.limit params) * 2)
              Hdim) as [found Hfound].
  rewrite Hfound. simpl.
  destruct (knowledge_filterLoop_located params
              (default 20 (Knowledge.Params.limit params)) [] found)
    as (out & -> & Hout).
  - apply Forall_forall. intros r Hr.
    rewrite Forall_forall in Hlocated. apply Hlocated.
    by apply (vectorSearch_subset q vectors
                (default 20 (Knowledge.Params.limit params) * 2) found).
  - constructor.
  - eexists. split; [done|]. done.
Qed.

Lemma knowledge_index_supports_every_filter_witness :
  ∃ response,
    Knowledge.knowledgeSemanticSearch sampleIndexedEnv
      (Knowledge.Params.mk "house rules" None (Some "rules/") (Some 5)) = Ok response.
Proof.
  destruct (knowledge_index_supports_every_filter sampleKnowledgeFiles
              ["context/rules/house.md"] sampleKnowledgeDocuments
              (Ok (λ _, Ok [1; 0]%R)) None (λ _, Ok [1; 0]%R)
              (mkIndexOptions (Some 10) true) sampleKnowledgeVectors
              sampleIndexedEnv
              (Knowledge.Params.mk "house rules" None (Some "rules/") (Some 5))
              [1; 0]%R) as (_ & response & Hok & _).
  - reflexivity.
  - simpl. lia.
  - by right.
  - reflexivity.
  - reflexivity.
  - reflexivity.
  - reflexivity.
  - repeat constructor.
  - by exists response.
Defined.

End KnowledgeIndexFacts.

(** ** Blended scores and limits *)

Section HybridRangeFacts.

Import Discord.

Lemma Rmin_unit x : (0 <= x)%R → (0 <= Rmin x 1 <= 1)%R.
Proof. intros Hx. unfold Rmin. destruct (Rle_dec x 1); lra. Qed.

Lemma keyword_ratio_nonneg (total k : nat) : (0 <= INR total / INR k / 5)%R.
Proof.
  destruct k as [|k].
  - simpl. unfold Rdiv. rewrite Rinv_0. pose proof (pos_INR total). nra.
  - pose proof (pos_INR total) as Ht.
    assert (Hk : (0 < INR (S k))%R) by (apply lt_0_INR; lia).
    apply Rmult_le_pos; [|lra]. apply Rmult_le_pos; [done|].
    left. by apply Rinv_0_lt_compat.
Qed.

(** X26. A hybrid search that returns gives at most [limit] results,
    counted by [total_results], in non-increasing blended score, and
    echoes the weights [w] and [1 - w], where [w] is the given
    [semantic_weight], used as it is.  Every keyword score lies between 0
    and 1, and every blended score is
    [similarity * w + keyword * (1 - w)]. *)
Theorem discordHybridSearch_scores_in_range (env : Env) (params : Params.t)
    (response : Response HybridHit) :
  let limit := default 20 (Params.limit params) in
  let w := default 0.7%R (Params.semantic_weight params) in
  discordHybridSearch env params = Ok response →
  length (results response) ≤ limit
  ∧ total_results response = length (results response)
  ∧ weights response = Some (w, (1 - w)%R)
  ∧ StronglySorted (λ a b, (hybrid_score b <= hybrid_score a)%R) (results response)
  ∧ Forall
      (λ hh,
         (0 <= keyword_score hh <= 1)%R
         ∧ hybrid_score hh
           = (Hit.similarity (hit hh) * w + keyword_score hh * (1 - w))%R)
      (results response).
Proof.
  intros limit w Hok.
  apply discordHybridSearch_Ok in Hok as (semantic & rescored & _ & _ & Hm & ->).
  fold limit w in Hm |- *. cbn [results total_results weights].
  split; [rewrite length_take; lia|].
  split; [rewrite length_take; lia|].
  split; [done|]. split.
  - apply StronglySorted_take. apply (sortBy_desc_sorted hybrid_score).
  - apply Forall_take.
    assert (Hall : Forall
              (λ hh,
                 (0 <= keyword_score hh <= 1)%R
                 ∧ hybrid_score hh
                   = (Hit.similarity (hit hh) * w + keyword_score hh * (1 - w))%R)
              rescored).
    { apply mapM_Ok_Forall2 in Hm. apply Forall_forall. intros hh Hhh.
      apply list_elem_of_lookup in Hhh as [i Hi].
      destruct (Forall2_lookup_r _ _ _ _ _ Hm Hi) as (h & _ & Hr).
      destruct (rescore_Ok _ _ _ _ Hr) as (Hhit & Hscore & text & total & _ & _ & Hk).
      rewrite Hhit. split; [|done]. rewrite Hk.
      apply Rmin_unit, keyword_ratio_nonneg. }
    apply Forall_forall. intros hh Hhh.
    rewrite (sortBy_perm byHybridScore rescored) in Hhh.
    rewrite Forall_forall in Hall. by apply Hall.
Qed.

Lemma discordHybridSearch_scores_in_range_witness :
  ∃ hybrid,
    discordHybridSearch sampleEnv (byBob 1 "release") = Ok hybrid
    ∧ length (results hybrid) ≤ 1.
Proof.
  destruct hybrid_byBob as (hybrid & Hh & _).
  exists hybrid. split; [done|].
  by destruct (discordHybridSearch_scores_in_range _ _ _ Hh) as [Hlen _].
Defined.

Lemma prefix_within {A : Type} (l1 l2 : list A) n :
  l1 `prefix_of` l2 → length l1 ≤ n → l1 `prefix_of` take n l2.
Proof.
  intros [k ->] Hlen. rewrite take_app_ge by done. by eexists.
Qed.

(** X27. Raising the limit of a semantic search only extends its results:
    with the same collection, query and filters, the results for a limit
    are the first results for any greater limit, in the same order. *)
Theorem discordSemanticSearch_limit_extends_results (env : Env) (params : Params.t)
    (limit limit' : nat) (response response' : Response Hit.t) :
  limit ≤ limit' →
  discordSemanticSearch env (withLimit params limit) = Ok response →
  discordSemanticSearch env (withLimit params limit') = Ok response' →
  results response `prefix_of` results response'.
Proof.
  intros Hle Hok Hok'.
  apply discordSemanticSearch_Ok in Hok as (docs & q & scored & _ & Hv & He & Hm & ->).
  apply discordSemanticSearch_Ok in Hok'
    as (docs' & q' & scored' & _ & Hv' & He' & Hm' & ->).
  cbn [withLimit Params.query Params.limit default results] in *.
  rewrite Hv in Hv'. injection Hv' as <-.
  rewrite He in He'. injection He' as <-.
  rewrite Hm in Hm'. injection Hm' as <-.
  set (ranking := sortBy bySimilarity scored).
  change (hitsOf (withLimit params limit)) with (hitsOf params).
  change (hitsOf (withLimit params limit')) with (hitsOf params).
  cbv [Datatypes.id].
  apply prefix_within; [|rewrite length_take; lia].
  etrans; [apply prefix_take|]. apply hitsOf_prefix. lia.
Qed.

Lemma discordSemanticSearch_limit_extends_results_witness :
  ∃ response response',
    discordSemanticSearch sampleEnv (withLimit (about "release") 1) = Ok response
    ∧ discordSemanticSearch sampleEnv (withLimit (about "release") 3) = Ok response'
    ∧ results response `prefix_of` results response'.
Proof.
  destruct (semantic_sampleEnv (withLimit (about "release") 1) eq_refl)
    as (response & Hs & _).
  destruct (semantic_sampleEnv (withLimit (about "release") 3) eq_refl)
    as (response' & Hs' & _).
  exists response, response'. split; [done|]. split; [done|].
  apply (discordSemanticSearch_limit_extends_results sampleEnv (about "release") 1 3);
    [lia | done | done].
Defined.

End HybridRangeFacts.

(** ** The unified hybrid search *)

Section UnifiedHybridFacts.

Import Unified.

Context {hit : Type} (similarity hybrid_score : hit → R).

(** X28. A unified hybrid search whose searches all settle returns the
    first [limit] of the merged candidates, sorted by
    [hybrid_score || similarity], and echoes the weights.  A blended
    score of exactly 0 is falsy, so such a result is ranked by its
    similarity: the results are in non-increasing order of that key, not
    of the blended score, and a candidate with blended score 0 stands
    before a candidate with a positive blended score that is less than
    its similarity. *)
Theorem unifiedHybridSearch_ranks_zero_scores_by_similarity
    (handlers : HybridHandlers hit) (params : HybridParams) :
  let query := hybrid_query params in
  let sources := default ["discord"; "docs"; "knowledge"] (hybrid_sources params) in
  let limit := default 20 (hybrid_limit params) in
  let w := default 0.7%R (semantic_weight params) in
  let searched := hybridPromises handlers query sources limit w in
  let candidates := concat (map taggedOf searched) in
  let key := rankKey similarity hybrid_score in
  nonEmpty query = true →
  Forall (λ p, settled p.2) searched →
  ∃ response,
    unifiedHybridSearch similarity hybrid_score handlers params = Ok response
    ∧ hybrid_results response
      = take limit (sortBy (byRankKey similarity hybrid_score) candidates)
    ∧ hybrid_total_results response = length (hybrid_results response)
    ∧ hybrid_weights response = (w, (1 - w)%R)
    ∧ StronglySorted (λ a b, (key b <= key a)%R) (hybrid_results response)
    ∧ (∀ a b,
         candidates = [b; a] →
         2 ≤ limit →
         hybrid_score (item a) = 0%R →
         hybrid_score (item b) ≠ 0%R →
         (hybrid_score (item b) < similarity (item a))%R →
         hybrid_results response = [a; b]).
Proof.
  intros query sources limit w searched candidates key Hquery Hsettled.
  eexists. unfold unifiedHybridSearch. fold query sources limit w searched.
  rewrite Hquery. simpl. rewrite (settleAll_fold searched _ Hsettled). simpl.
  fold candidates.
  split; [reflexivity|]. simpl. split; [done|]. split; [done|]. split; [done|].
  split.
  - unfold slice0. apply StronglySorted_take. apply (sortBy_desc_sorted key).
  - intros a b -> Hlimit Ha Hb Hlt. unfold slice0. simpl.
    assert (Hcmp : (0 < byRankKey similarity hybrid_score b a)%R).
    { unfold byRankKey, rankKey. rewrite decide_True by done.
      rewrite decide_False by done. lra. }
    rewrite bool_decide_eq_true_2 by done. simpl.
    rewrite take_ge by (simpl; lia). done.
Qed.

End UnifiedHybridFacts.

Lemma unifiedHybridSearch_ranks_zero_scores_by_similarity_witness :
  let a := Unified.mkTagged (0.9%R, 0%R) "discord" in
  let b := Unified.mkTagged (0.5%R, 0.3%R) "discord" in
  let handlers :=
    Unified.mkHybridHandlers
      (λ _ _ _, Ok (Unified.mkSourceResult 2 [(0.5%R, 0.3%R); (0.9%R, 0%R)]))
      (λ _ _ _, Throw (Error "not initialized"))
      (λ _ _ _, Throw (Error "not initialized")) in
  let params := Unified.mkHybridParams "roles" (Some ["discord"]) None None in
  ∃ response,
    Unified.unifiedHybridSearch fst snd handlers params = Ok response
    ∧ Unified.hybrid_results response = [a; b].
Proof.
  intros a b handlers params.
  destruct (unifiedHybridSearch_ranks_zero_scores_by_similarity fst snd handlers params)
    as (response & Hrun & _ & _ & _ & _ & Hzero).
  - reflexivity.
  - repeat constructor. discriminate.
  - exists response. split; [exact Hrun|].
    apply Hzero.
    + reflexivity.
    + simpl. lia.
    + reflexivity.
    + simpl. lra.
    + simpl. lra.
Defined.
